(** * DirtJWax: the chart decoder and the judgment engine

    A shallow embedding of [ptfile.py] (the binary chart decoder and the
    cache of decrypted charts), of the timing core of [dwax_game.py]
    (timeline build, channel allocation, judgment state machine, auto-fail
    sweep, score aggregation, the clock with pause, seek and resume, the
    layout of the buttons, the actions of the window) and of the grouping of
    notes by tick in [dwax_cli.py].

    Conventions of the embedding.
    - Python exceptions are values of [exn]; a call that may raise returns a
      [result].  An uncaught exception ends the program, so the state at the
      raise point is not kept.
    - Python numbers that hold milliseconds, tempi and intervals ([int] and
      [float] mixed in the source) are exact rationals [Q]; [/] on them is
      [truediv], which raises [ZeroDivisionError] on a zero divisor.
    - Unsigned chart fields (u8, u16, u32) are [N]; list indices are [nat].
    - Python dicts that are iterated are association lists in insertion
      order. *)

From Stdlib Require Import List Bool Arith NArith ZArith QArith Qabs Qround.
From Stdlib Require Import Lia Lqa Sorted.
From Stdlib Require Strings.Byte.
Import ListNotations.

Set Implicit Arguments.

(* ------------------------------------------------------------------ *)
(** ** Exceptions and the error monad *)

Inductive exn : Type :=
| StructError          (* struct.error: buffer too small for the format *)
| AssertionError       (* a failed [assert] *)
| TypeError            (* raise TypeError(...), or an operation on None *)
| UnicodeDecodeError   (* bytes.decode() on ill-formed UTF-8 *)
| IndexError           (* list index out of range *)
| KeyError             (* missing dict key *)
| AttributeError       (* missing attribute *)
| ZeroDivisionError    (* division by zero *)
| GatewayError (code : N). (* anything the decryption gateway raises *)

Inductive result (A : Type) : Type :=
| Ok (a : A)
| Err (e : exn).
Arguments Ok {A} a.
Arguments Err {A} e.

Definition bind {A B : Type} (c : result A) (k : A -> result B) : result B :=
  match c with
  | Ok a => k a
  | Err e => Err e
  end.

Notation "'let*' x ':=' c 'in' k" := (bind c (fun x => k))
  (at level 10, x pattern, c at level 100, k at level 200).

(** [lst[i]] for a non-negative index. *)
Definition getitem {A : Type} (lst : list A) (i : nat) : result A :=
  match nth_error lst i with
  | Some a => Ok a
  | None => Err IndexError
  end.

(** [dct[key]] and [dct.get(key)] on an insertion-ordered dict. *)
Fixpoint dict_get {V : Type} (dct : list (nat * V)) (key : nat) : option V :=
  match dct with
  | [] => None
  | (k, v) :: rest => if Nat.eqb k key then Some v else dict_get rest key
  end.

Definition dict_getitem {V : Type} (dct : list (nat * V)) (key : nat) : result V :=
  match dict_get dct key with
  | Some v => Ok v
  | None => Err KeyError
  end.

(** [dct[key] = v] for a key that is already present keeps its place;
    a new key goes to the end. *)
Fixpoint dict_set {V : Type} (dct : list (nat * V)) (key : nat) (v : V)
  : list (nat * V) :=
  match dct with
  | [] => [(key, v)]
  | (k, w) :: rest =>
      if Nat.eqb k key then (k, v) :: rest else (k, w) :: dict_set rest key v
  end.

Definition dict_keys {V : Type} (dct : list (nat * V)) : list nat := map fst dct.
Definition dict_values {V : Type} (dct : list (nat * V)) : list V := map snd dct.

(* ------------------------------------------------------------------ *)
(** ** Numbers *)

Definition Qltb (a b : Q) : bool := negb (Qle_bool b a).

(** Python [a / b]. *)
Definition truediv (a b : Q) : result Q :=
  if Qeq_bool b 0 then Err ZeroDivisionError else Ok (a / b)%Q.

(** [240000 / ticks_per_measure / tempo]: the milliseconds of one tick. *)
Definition tick_interval_of (ticks_per_measure : N) (tempo : Q) : result Q :=
  let* per_measure := truediv 240000 (inject_Z (Z.of_N ticks_per_measure)) in
  truediv per_measure tempo.

(** Python [int(x)]: truncation toward zero. *)
Definition py_int (x : Q) : Z :=
  if Qltb x 0 then Qceiling x else Qfloor x.

(* ------------------------------------------------------------------ *)
(** ** The chart ([ptfile.py]), generic in the representation [F] of the
    32-bit floats: the decoder keeps their bit patterns, the engine works on
    their rational values. *)

(** A Python [str]: its code points. *)
Definition str : Type := list N.

Record PTFileSound : Type := mkPTFileSound {
  index : N;
  command : N;
  filename : str
}.

Section Chart.
Variable F : Type.

Record PTFileHeader : Type := mkPTFileHeader {
  version_major : N;
  version_minor : N;
  ticks_per_measure : N;
  master_bpm : F;
  number_of_tracks : N;
  total_ticks : N;
  time_in_seconds : F;
  number_of_sounds : N
}.

Inductive PTFileNoteParams : Type :=
| PTFileGeneralNoteParams (sound_index volume pan attribute duration : N)
| PTFileVolumeNoteParams (volume : N)
| PTFileBPMChangeNoteParams (tempo : F)
| PTFileBeatNoteParams (beat : N).

(** [command_type] is stored next to [params] in the source and always
    agrees with it; here it is read off the variant. *)
Record PTFileNote : Type := mkPTFileNote {
  position : N;
  params : PTFileNoteParams
}.

Record PTFileTrack : Type := mkPTFileTrack {
  name : str;
  ticks : N;
  notes : list PTFileNote
}.

Record PTFile : Type := mkPTFile {
  header : PTFileHeader;
  sounds : list PTFileSound;
  tracks : list PTFileTrack
}.
End Chart.

Arguments PTFileGeneralNoteParams {F}.
Arguments PTFileVolumeNoteParams {F}.
Arguments PTFileBPMChangeNoteParams {F}.
Arguments PTFileBeatNoteParams {F}.

Inductive PTFileCommandType : Type := GENERAL | VOLUME | BPM | BEAT.

Definition PTFileCommandType_value (c : PTFileCommandType) : N :=
  match c with GENERAL => 1 | VOLUME => 2 | BPM => 3 | BEAT => 4 end.

Definition get_command_type {F} (p : PTFileNoteParams F) : PTFileCommandType :=
  match p with
  | PTFileGeneralNoteParams _ _ _ _ _ => GENERAL
  | PTFileVolumeNoteParams _ => VOLUME
  | PTFileBPMChangeNoteParams _ => BPM
  | PTFileBeatNoteParams _ => BEAT
  end.

Definition command_type {F} (n : PTFileNote F) : PTFileCommandType :=
  get_command_type (params n).

(* ------------------------------------------------------------------ *)
(** ** Comparisons of chart notes ([PTFileNote], [PTFileGeneralNoteParams]) *)

(** [PTFileNote.is_general] *)
Definition PTFileNote_is_general {F} (self : PTFileNote F) : bool :=
  match command_type self with GENERAL => true | _ => false end.

(** [PTFileGeneralNoteParams.is_equal_except_duration]: the attributes other
    than [duration] are compared, in the order of [__dict__].  The other
    parameter classes have no such method. *)
Definition PTFileGeneralNoteParams_is_equal_except_duration {F}
    (self other : PTFileNoteParams F) : result bool :=
  match self with
  | PTFileGeneralNoteParams sound_index volume pan attribute _ =>
      match other with
      | PTFileGeneralNoteParams sound_index' volume' pan' attribute' _ =>
          Ok ((sound_index =? sound_index') && (volume =? volume')
              && (pan =? pan') && (attribute =? attribute'))%N
      | _ => Ok false
      end
  | _ => Err AttributeError
  end.

(** [PTFileNote.is_equal_except_duration]: both notes GENERAL, the same
    [position] and [command_type], and parameters equal except for the
    duration. *)
Definition PTFileNote_is_equal_except_duration {F} (self other : PTFileNote F)
  : result bool :=
  if negb (PTFileNote_is_general self) || negb (PTFileNote_is_general other)
  then Ok false
  else if (position self =? position other)%N
          && (PTFileCommandType_value (command_type self)
              =? PTFileCommandType_value (command_type other))%N
  then PTFileGeneralNoteParams_is_equal_except_duration (params self) (params other)
  else Ok false.

(* ------------------------------------------------------------------ *)
(** ** The chart decoder: [SequentialUnpacker] and [PTFile.parse] *)

Module Decoder.

Definition bytes : Type := list Byte.byte.

(** A 32-bit float field is kept as the unsigned value of its four bytes. *)
Definition f32 : Type := N.

(** The bytes [buffer[offset : offset + size]] that [struct.unpack_from]
    reads; [struct.error] when the buffer is too small. *)
Definition read (buffer : bytes) (offset size : nat) : result bytes :=
  if (offset + size <=? length buffer)%nat
  then Ok (firstn size (skipn offset buffer))
  else Err StructError.

(** Little-endian unsigned integer of a byte string (codes B, H, I, and the
    bit pattern of f). *)
Fixpoint le_uint (bs : bytes) : N :=
  match bs with
  | [] => 0
  | b :: rest => Byte.to_N b + 256 * le_uint rest
  end%N.

(** The field of [size] bytes at [start] in an unpacked record. *)
Definition field (record : bytes) (start size : nat) : bytes :=
  firstn size (skipn start record).

Definition uint_field (record : bytes) (start size : nat) : N :=
  le_uint (field record start size).

Definition bytes_eqb (a b : bytes) : bool :=
  if list_eq_dec Byte.byte_eq_dec a b then true else false.

Definition PTFF : bytes := [Byte.x50; Byte.x54; Byte.x46; Byte.x46].
Definition EZTR : bytes := [Byte.x45; Byte.x5a; Byte.x54; Byte.x52].

(** [value.partition(b"\0")[0]]: the bytes before the first zero byte. *)
Fixpoint before_nul (bs : bytes) : bytes :=
  match bs with
  | [] => []
  | b :: rest => if Byte.eqb b Byte.x00 then [] else b :: before_nul rest
  end.

(** [bytes.decode()]: strict UTF-8 (no overlong forms, no surrogates, nothing
    above U+10FFFF). *)
Definition continuation (b : N) : bool := ((128 <=? b) && (b <=? 191))%N.

Definition within (lo b hi : N) : bool := ((lo <=? b) && (b <=? hi))%N.

Fixpoint decode (bs : bytes) : result str :=
  match bs with
  | [] => Ok []
  | c0 :: rest0 =>
      let b0 := Byte.to_N c0 in
      if (b0 <? 128)%N then
        let* s := decode rest0 in Ok (b0 :: s)
      else
        match rest0 with
        | [] => Err UnicodeDecodeError
        | c1 :: rest1 =>
            let b1 := Byte.to_N c1 in
            if within 194 b0 223 then
              if continuation b1 then
                let* s := decode rest1 in
                Ok (((b0 - 192) * 64 + (b1 - 128)) :: s)%N
              else Err UnicodeDecodeError
            else
              match rest1 with
              | [] => Err UnicodeDecodeError
              | c2 :: rest2 =>
                  let b2 := Byte.to_N c2 in
                  if within 224 b0 239 then
                    if (if (b0 =? 224)%N then within 160 b1 191
                        else if (b0 =? 237)%N then within 128 b1 159
                        else continuation b1)
                       && continuation b2
                    then
                      let* s := decode rest2 in
                      Ok (((b0 - 224) * 4096 + (b1 - 128) * 64 + (b2 - 128)) :: s)%N
                    else Err UnicodeDecodeError
                  else
                    match rest2 with
                    | [] => Err UnicodeDecodeError
                    | c3 :: rest3 =>
                        let b3 := Byte.to_N c3 in
                        if within 240 b0 244
                           && (if (b0 =? 240)%N then within 144 b1 191
                               else if (b0 =? 244)%N then within 128 b1 143
                               else continuation b1)
                           && continuation b2 && continuation b3
                        then
                          let* s := decode rest3 in
                          Ok (((b0 - 240) * 262144 + (b1 - 128) * 4096
                               + (b2 - 128) * 64 + (b3 - 128)) :: s)%N
                        else Err UnicodeDecodeError
                    end
              end
        end
  end.

(** [is_encrypted]: the unsigned 16-bit value at offset 0x18 is not 1. *)
Definition is_encrypted (buffer : bytes) : result bool :=
  let* record := read buffer 24 2 in
  let first_song_index := le_uint record in
  Ok (negb (first_song_index =? 1)%N).

(** The header, format ["<4sBBHfHIfH"] (24 bytes). *)
Definition parse_header (buffer : bytes) (offset : nat)
  : result (PTFileHeader f32 * nat) :=
  let* r := read buffer offset 24 in
  if negb (bytes_eqb (field r 0 4) PTFF) then Err AssertionError
  else
    Ok (mkPTFileHeader (uint_field r 4 1) (uint_field r 5 1) (uint_field r 6 2)
          (uint_field r 8 4) (uint_field r 12 2) (uint_field r 14 4)
          (uint_field r 18 4) (uint_field r 22 2),
        (offset + 24)%nat).

(** One sound entry, format ["<HH64s"] (68 bytes). *)
Definition parse_sound (buffer : bytes) (offset : nat)
  : result (PTFileSound * nat) :=
  let* r := read buffer offset 68 in
  let* filename := decode (before_nul (field r 4 64)) in
  Ok (mkPTFileSound (uint_field r 0 2) (uint_field r 2 2) filename,
      (offset + 68)%nat).

Fixpoint parse_sounds (buffer : bytes) (count : nat) (offset : nat)
  : result (list PTFileSound * nat) :=
  match count with
  | O => Ok ([], offset)
  | S count' =>
      let* (sound_entry, offset) := parse_sound buffer offset in
      let* (sound_entries, offset) := parse_sounds buffer count' offset in
      Ok (sound_entry :: sound_entries, offset)
  end.

(** The 8-byte parameter blob of a note, by command type. *)
Definition parse_params (command_type : N) (blob : bytes)
  : result (PTFileNoteParams f32) :=
  if (command_type =? PTFileCommandType_value GENERAL)%N then
    Ok (PTFileGeneralNoteParams (uint_field blob 0 2) (uint_field blob 2 1)
          (uint_field blob 3 1) (uint_field blob 4 1) (uint_field blob 5 2))
  else if (command_type =? PTFileCommandType_value VOLUME)%N then
    Ok (PTFileVolumeNoteParams (uint_field blob 0 1))
  else if (command_type =? PTFileCommandType_value BPM)%N then
    Ok (PTFileBPMChangeNoteParams (uint_field blob 0 4))
  else if (command_type =? PTFileCommandType_value BEAT)%N then
    Ok (PTFileBeatNoteParams (uint_field blob 0 2))
  else Err TypeError.

(** One note record, format ["<IBxxx8s"] (16 bytes). *)
Definition parse_note (buffer : bytes) (offset : nat)
  : result (PTFileNote f32 * nat) :=
  let* r := read buffer offset 16 in
  let* note_params := parse_params (uint_field r 4 1) (field r 8 8) in
  Ok (mkPTFileNote (uint_field r 0 4) note_params, (offset + 16)%nat).

Fixpoint parse_notes (buffer : bytes) (count : nat) (offset : nat)
  : result (list (PTFileNote f32) * nat) :=
  match count with
  | O => Ok ([], offset)
  | S count' =>
      let* (note_entry, offset) := parse_note buffer offset in
      let* (note_entries, offset) := parse_notes buffer count' offset in
      Ok (note_entry :: note_entries, offset)
  end.

(** One track record: the header, format ["<4sxx64sIIxx"] (80 bytes), then
    [size_of_data // 0x10] notes. *)
Definition parse_track (buffer : bytes) (offset : nat)
  : result (PTFileTrack f32 * nat) :=
  let* r := read buffer offset 80 in
  let offset := (offset + 80)%nat in
  if negb (bytes_eqb (field r 0 4) EZTR) then Err AssertionError
  else
    let* track_name := decode (before_nul (field r 6 64)) in
    let number_of_notes := (uint_field r 74 4 / 16)%N in
    let* (note_entries, offset) :=
      parse_notes buffer (N.to_nat number_of_notes) offset in
    Ok (mkPTFileTrack track_name (uint_field r 70 4) note_entries, offset).

Fixpoint parse_tracks (buffer : bytes) (count : nat) (offset : nat)
  : result (list (PTFileTrack f32) * nat) :=
  match count with
  | O => Ok ([], offset)
  | S count' =>
      let* (track_entry, offset) := parse_track buffer offset in
      let* (track_entries, offset) := parse_tracks buffer count' offset in
      Ok (track_entry :: track_entries, offset)
  end.

(** Lines 416-488 of [parse]: the structural parse of a plain buffer. *)
Definition parse_plain (buffer : bytes) : result (PTFile f32) :=
  let* (hdr, offset) := parse_header buffer 0 in
  let* (sound_entries, offset) :=
    parse_sounds buffer (N.to_nat (number_of_sounds hdr)) offset in
  let* (track_entries, offset) :=
    parse_tracks buffer (N.to_nat (number_of_tracks hdr)) offset in
  Ok (mkPTFile hdr sound_entries track_entries).

(** [PTFile.parse] on a [bytes] argument.  [decrypt_ptfile] is the
    Decryption Gateway ([CachedPTFileDecryptor.decrypt_ptfile]); the first
    component of the result lists the buffers handed to it, in order. *)
Definition parse (decrypt_ptfile : bytes -> result bytes) (buffer : bytes)
  : list bytes * result (PTFile f32) :=
  match is_encrypted buffer with
  | Err e => ([], Err e)
  | Ok true =>
      ([buffer],
       let* buffer := decrypt_ptfile buffer in parse_plain buffer)
  | Ok false => ([], parse_plain buffer)
  end.

End Decoder.

(* ------------------------------------------------------------------ *)
(** ** [CachedPTFileDecryptor]: the cache in front of the gateway *)

Module CachedPTFileDecryptor.

Section Gateway.

(** [hashlib.md5(file_buffer).hexdigest()[:7]], read as a number. *)
Variable md5hash_hex7 : Decoder.bytes -> nat.

(** [create_decrypt_task_and_download(file).content]. *)
Variable create_decrypt_task_and_download : Decoder.bytes -> result Decoder.bytes.

(** [cache_files] holds the files [<md5hash_hex[:7]>.pt] of
    [_decrypted_cache_dir], by their seven digits; [downloads] lists the
    buffers sent to the gateway, most recent first. *)
Record t : Type := mk {
  cache_files : list (nat * Decoder.bytes);
  downloads : list Decoder.bytes
}.

Definition init : t := mk [] [].

(** [decrypt_ptfile(file, cached)] on a [bytes] argument. *)
Definition decrypt_ptfile (self : t) (file : Decoder.bytes) (cached : bool)
  : result (t * Decoder.bytes) :=
  let cached_filename := md5hash_hex7 file in
  match (if cached then dict_get (cache_files self) cached_filename else None) with
  | Some decrypted_file_content => Ok (self, decrypted_file_content)
  | None =>
      let* decrypted_file_content := create_decrypt_task_and_download file in
      Ok (mk (dict_set (cache_files self) cached_filename decrypted_file_content)
            (file :: downloads self),
          decrypted_file_content)
  end.

End Gateway.

End CachedPTFileDecryptor.

(* ------------------------------------------------------------------ *)
(** ** Enumerations of [dwax_game.py] *)

Inductive GameTrackType : Type := NONE | CMD | FG1 | FG2 | MR | BG.

Definition get_track_type (track_index : nat) : GameTrackType :=
  if track_index <? 2 then CMD
  else if track_index <? 12 then FG1
  else if track_index <? 22 then FG2
  else if track_index <? 23 then MR
  else BG.

Definition GameTrackType_eqb (a b : GameTrackType) : bool :=
  match a, b with
  | NONE, NONE | CMD, CMD | FG1, FG1 | FG2, FG2 | MR, MR | BG, BG => true
  | _, _ => false
  end.

Inductive GameTrackButtonType : Type :=
| BUTTON1 | BUTTON2 | BUTTON3 | BUTTON4 | BUTTON5 | BUTTON6
| SIDEL | SIDER | L1 | R1.

(** [TRACK_INDEX_TO_BUTTON_TYPE_MAPPING.get(self)]; every button is a key. *)
Definition get_track_index (b : GameTrackButtonType) : nat :=
  match b with
  | SIDEL => 2 | BUTTON1 => 3 | BUTTON2 => 4 | BUTTON3 => 5 | BUTTON4 => 6
  | BUTTON5 => 7 | BUTTON6 => 8 | SIDER => 9 | L1 => 10 | R1 => 11
  end%nat.

(** [BUTTON_TYPE_TO_TRACK_INDEX_MAPPING.get(track_index)] *)
Definition get_button_type (track_index : nat) : option GameTrackButtonType :=
  match track_index with
  | 2 => Some SIDEL | 3 => Some BUTTON1 | 4 => Some BUTTON2 | 5 => Some BUTTON3
  | 6 => Some BUTTON4 | 7 => Some BUTTON5 | 8 => Some BUTTON6 | 9 => Some SIDER
  | 10 => Some L1 | 11 => Some R1
  | _ => None
  end%nat.

Definition GameTrackButtonType_eqb (a b : GameTrackButtonType) : bool :=
  match a, b with
  | BUTTON1, BUTTON1 | BUTTON2, BUTTON2 | BUTTON3, BUTTON3 | BUTTON4, BUTTON4
  | BUTTON5, BUTTON5 | BUTTON6, BUTTON6 | SIDEL, SIDEL | SIDER, SIDER
  | L1, L1 | R1, R1 => true
  | _, _ => false
  end.

Inductive GameMode : Type := FOUR | FIVE | SIX | EIGHT.

Definition get_button_types (m : GameMode) : list GameTrackButtonType :=
  match m with
  | FOUR => [SIDEL; BUTTON1; BUTTON2; BUTTON3; BUTTON4; SIDER]
  | FIVE => [SIDEL; BUTTON1; BUTTON2; BUTTON3; BUTTON4; BUTTON5; SIDER]
  | SIX => [SIDEL; BUTTON1; BUTTON2; BUTTON3; BUTTON4; BUTTON5; BUTTON6; SIDER]
  | EIGHT => [L1; SIDEL; BUTTON1; BUTTON2; BUTTON3; BUTTON4; BUTTON5; BUTTON6;
              SIDER; R1]
  end.

Definition get_track_indices (m : GameMode) : list nat :=
  map get_track_index (get_button_types m).

Definition is_playable_track (m : GameMode) (track_index : nat) : bool :=
  existsb (Nat.eqb track_index) (get_track_indices m).

(** The tables of a game mode: one entry per button, in the order of
    [get_button_types]. *)
Definition GameMode_value (m : GameMode) : nat :=
  match m with FOUR => 4 | FIVE => 5 | SIX => 6 | EIGHT => 8 end.


Definition get_total_columns (m : GameMode) : nat := Nat.min (GameMode_value m) 6.

Inductive ButtonColor : Type :=
| BUTTON_COLOR_TRIGGER | BUTTON_COLOR_SIDE | BUTTON_COLOR_MAIN | BUTTON_COLOR_SUB.

Definition get_button_colors (m : GameMode) : list ButtonColor :=
  match m with
  | FOUR =>
      [BUTTON_COLOR_SIDE; BUTTON_COLOR_MAIN; BUTTON_COLOR_SUB; BUTTON_COLOR_SUB;
       BUTTON_COLOR_MAIN; BUTTON_COLOR_SIDE]
  | FIVE =>
      [BUTTON_COLOR_SIDE; BUTTON_COLOR_MAIN; BUTTON_COLOR_SUB; BUTTON_COLOR_MAIN;
       BUTTON_COLOR_SUB; BUTTON_COLOR_MAIN; BUTTON_COLOR_SIDE]
  | SIX =>
      [BUTTON_COLOR_SIDE; BUTTON_COLOR_MAIN; BUTTON_COLOR_SUB; BUTTON_COLOR_MAIN;
       BUTTON_COLOR_MAIN; BUTTON_COLOR_SUB; BUTTON_COLOR_MAIN; BUTTON_COLOR_SIDE]
  | EIGHT =>
      [BUTTON_COLOR_TRIGGER; BUTTON_COLOR_SIDE; BUTTON_COLOR_MAIN;
       BUTTON_COLOR_SUB; BUTTON_COLOR_MAIN; BUTTON_COLOR_MAIN; BUTTON_COLOR_SUB;
       BUTTON_COLOR_MAIN; BUTTON_COLOR_SIDE; BUTTON_COLOR_TRIGGER]
  end.

(** An entry of a column table: a column number, or a pair (left, width) in
    columns. *)
Inductive ButtonColumn : Type :=
| Column (column : Q)
| ColumnSpan (left width : Q).

Definition get_button_columns (m : GameMode) : list ButtonColumn :=
  match m with
  | FOUR =>
      [ColumnSpan 0 2; Column 0; Column 1; Column 2; Column 3; ColumnSpan 2 2]
  | FIVE =>
      [ColumnSpan 0 (5 # 2); Column 0; Column 1; Column 2; Column 3; Column 4;
       ColumnSpan (5 # 2) (5 # 2)]
  | SIX =>
      [ColumnSpan 0 3; Column 0; Column 1; Column 2; Column 3; Column 4;
       Column 5; ColumnSpan 3 3]
  | EIGHT =>
      [ColumnSpan 0 3; ColumnSpan 0 3; Column 0; Column 1; Column 2; Column 3;
       Column 4; Column 5; ColumnSpan 3 3; ColumnSpan 3 3]
  end.

Inductive GameButtonActionType : Type := KEYDOWN | KEYUP.

Inductive GameNotePlayResultType : Type := MAX100 | MAX90 | MAX1 | BREAK.

Definition GameNotePlayResultType_value (t : GameNotePlayResultType) : Q :=
  match t with MAX100 => 100 | MAX90 => 90 | MAX1 => 1 | BREAK => 0 end.

Definition GameNotePlayResultType_eqb (a b : GameNotePlayResultType) : bool :=
  match a, b with
  | MAX100, MAX100 | MAX90, MAX90 | MAX1, MAX1 | BREAK, BREAK => true
  | _, _ => false
  end.

Inductive GameNotePlayResultFailReason : Type :=
| TOO_LATE_TO_START | TOO_LATE_TO_FINISH | TOO_EARLY_TO_FINISH.

Record GameNotePlayResult : Type := mkGameNotePlayResult {
  result_type : option GameNotePlayResultType;
  timing_diff : option Q;
  reason : option GameNotePlayResultFailReason
}.

(* ------------------------------------------------------------------ *)
(** ** Sounds *)

(** A loaded [pygame.mixer.Sound]; only its length (seconds) is observed. *)
Record Sound : Type := mkSound { get_length : Q }.

(** The [sound_volume] argument of [play_sound]: a float or a pair. *)
Inductive SoundVolume : Type :=
| VolumeFloat (v : Q)
| VolumeTuple (left right : Q).

Record GameSoundTable : Type := mkGameSoundTable {
  _sound_by_index : list (nat * Sound)
}.

Definition get_sound_by_index (self : GameSoundTable) (index : N) : result Sound :=
  dict_getitem (_sound_by_index self) (N.to_nat index).

(* ------------------------------------------------------------------ *)
(** ** [GameNote] *)

Definition QofN (n : N) : Q := inject_Z (Z.of_N n).

Module GameNote.


(** The attributes [_is_general], [_is_bpm_change], [_is_mr], [_is_long] and
    [_is_short] are computed once in [__init__] from the chart note and the
    track type and never assigned again; they are functions of those here. *)
Record t : Type := mk {
  _note : PTFileNote Q;
  _track_type : GameTrackType;
  _sound : option Sound;
  _sound_volume : option SoundVolume;
  _played_millis_per_tick : list Q;
  _unit_judge_millis : Q;
  _is_playing : bool;
  _is_played : bool;
  _result_type : option GameNotePlayResultType;
  _play_result : option GameNotePlayResult
}.

Definition is_general (self : t) : bool :=
  match command_type (_note self) with GENERAL => true | _ => false end.

Definition is_bpm_change (self : t) : bool :=
  match command_type (_note self) with BPM => true | _ => false end.

Definition is_mr (self : t) : bool :=
  is_general self && GameTrackType_eqb (_track_type self) MR.

Definition is_long (self : t) : bool :=
  match params (_note self) with
  | PTFileGeneralNoteParams _ _ _ _ duration => (6 <? duration)%N
  | _ => false
  end.

Definition is_short (self : t) : bool := negb (is_long self).

(** The per-note volume of [__init__]: centred pan plays the note volume,
    any other pan a left/right pair normalised by the louder side. *)
Definition note_sound_volume (volume pan : N) : result SoundVolume :=
  let* sound_volume := truediv (QofN volume) 127 in
  if (pan =? 64)%N then Ok (VolumeFloat sound_volume)
  else
    let* sound_volume_right := truediv (QofN pan) 127 in
    let sound_volume_left := 1 - sound_volume_right in
    let sound_volume_max :=
      if Qltb sound_volume_left sound_volume_right
      then sound_volume_right else sound_volume_left in
    let* sound_volume_left := truediv sound_volume_left sound_volume_max in
    let* sound_volume_right := truediv sound_volume_right sound_volume_max in
    Ok (VolumeTuple (sound_volume_left * sound_volume)
                    (sound_volume_right * sound_volume)).

Definition init (note : PTFileNote Q) (track_type : GameTrackType)
    (sound_table : GameSoundTable) : result t :=
  let fresh sound sound_volume :=
    mk note track_type sound sound_volume [] 42 false false None None in
  match params note with
  | PTFileGeneralNoteParams sound_index volume pan _ _ =>
      let* sound := get_sound_by_index sound_table sound_index in
      let* sound_volume := note_sound_volume volume pan in
      if GameTrackType_eqb track_type MR && negb (pan =? 64)%N
      then Err AssertionError
      else Ok (fresh (Some sound) (Some sound_volume))
  | _ => Ok (fresh None None)
  end.

Definition set_played_millis_per_tick (self : t) (l : list Q) : t :=
  mk (_note self) (_track_type self) (_sound self) (_sound_volume self)
    l (_unit_judge_millis self) (_is_playing self) (_is_played self)
    (_result_type self) (_play_result self).

Definition set_unit_judge_millis (self : t) (u : Q) : t :=
  mk (_note self) (_track_type self) (_sound self) (_sound_volume self)
    (_played_millis_per_tick self) u (_is_playing self) (_is_played self)
    (_result_type self) (_play_result self).

(** The four fields of the play status, assigned together. *)
Definition with_play_status (self : t) (playing played : bool)
    (rt : option GameNotePlayResultType) (pr : option GameNotePlayResult)
  : t :=
  mk (_note self) (_track_type self) (_sound self) (_sound_volume self)
    (_played_millis_per_tick self) (_unit_judge_millis self) playing played rt pr.

Definition get_position (self : t) : N := position (_note self).

(** [self._note.params.duration]: only GENERAL parameters have the
    attribute. *)
Definition get_duration (self : t) : result N :=
  match params (_note self) with
  | PTFileGeneralNoteParams _ _ _ _ duration => Ok duration
  | _ => Err AttributeError
  end.

Definition get_end_position (self : t) : result N :=
  let* duration := get_duration self in
  Ok (get_position self + duration)%N.

Definition get_position_millis (self : t) : result Q :=
  getitem (_played_millis_per_tick self) (N.to_nat (get_position self)).

Definition get_end_position_millis (self : t) : result Q :=
  let* end_position := get_end_position self in
  getitem (_played_millis_per_tick self) (N.to_nat end_position).

Definition get_sound_duration_millis (self : t) : option Q :=
  match _sound self with
  | Some sound => Some (get_length sound * 1000)
  | None => None
  end.

Definition is_playable (self : t) : bool :=
  is_general self && negb (_is_played self || _is_playing self).

Definition reset_play_status (self : t) : t :=
  with_play_status self false false None None.

(** [GameNote.start_play]: the first component is the note after the call,
    the second the returned value ([None] for Python's None). *)
Definition start_play (self : t) (current_millis : Q)
  : result (t * option GameNotePlayResult) :=
  let* position_millis := get_position_millis self in
  let diff_millis := position_millis - current_millis in
  if Qltb (3 * _unit_judge_millis self) diff_millis then Ok (self, None)
  else
    let abs_diff_millis := Qabs diff_millis in
    let result_type :=
      if Qltb abs_diff_millis (_unit_judge_millis self) then Some MAX100
      else if Qltb abs_diff_millis (2 * _unit_judge_millis self) then Some MAX90
      else if Qltb abs_diff_millis (3 * _unit_judge_millis self) then Some MAX1
      else _result_type self in
    let self :=
      with_play_status self (_is_playing self) (_is_played self) result_type
        (_play_result self) in
    if is_short self then
      let* position_millis := get_position_millis self in
      let play_result :=
        mkGameNotePlayResult (_result_type self)
          (Some (current_millis - position_millis)) None in
      Ok (with_play_status self (_is_playing self) true (_result_type self)
            (Some play_result),
          Some play_result)
    else if is_long self then
      Ok (with_play_status self true (_is_played self) (_result_type self)
            (_play_result self),
          _play_result self)
    else Ok (self, _play_result self).

Definition is_too_late_to_start (self : t) (current_millis : Q)
  : result bool :=
  if _is_playing self then Ok false
  else
    let* position_millis := get_position_millis self in
    Ok (Qltb (3 * _unit_judge_millis self) (current_millis - position_millis)).

Definition is_too_early_to_finish (self : t) (current_millis : Q)
  : result bool :=
  let* end_position_millis := get_end_position_millis self in
  Ok (Qltb (3 * _unit_judge_millis self) (end_position_millis - current_millis)).

Definition is_too_late_to_finish (self : t) (current_millis : Q)
  : result bool :=
  let* end_position_millis := get_end_position_millis self in
  Ok (Qltb (3 * _unit_judge_millis self) (current_millis - end_position_millis)).

Definition should_fail_to_play (self : t) (current_millis : Q)
  : result bool :=
  let* too_late_to_start := is_too_late_to_start self current_millis in
  if too_late_to_start then Ok true
  else if _is_playing self then is_too_late_to_finish self current_millis
  else Ok false.

(** [GameNote.finish_play].  The note is marked played before the release
    is classified. *)
Definition finish_play (self : t) (current_millis : Q)
  : result (t * option GameNotePlayResult) :=
  if is_long self && _is_playing self then
    let self :=
      with_play_status self false true (_result_type self) (_play_result self) in
    let* too_early := is_too_early_to_finish self current_millis in
    let* end_position_millis := get_end_position_millis self in
    if too_early then
      let play_result :=
        mkGameNotePlayResult (Some BREAK)
          (Some (current_millis - end_position_millis))
          (Some TOO_EARLY_TO_FINISH) in
      Ok (with_play_status self false true (Some BREAK) (Some play_result),
          Some play_result)
    else
      let play_result :=
        mkGameNotePlayResult (_result_type self)
          (Some (current_millis - end_position_millis)) None in
      Ok (with_play_status self false true (_result_type self)
            (Some play_result),
          Some play_result)
  else Ok (self, _play_result self).

(** [GameNote.fail]. *)
Definition fail (self : t) (current_millis : Q)
  : result (t * option GameNotePlayResult) :=
  let* too_late_to_start := is_too_late_to_start self current_millis in
  if too_late_to_start then
    let* position_millis := get_position_millis self in
    let play_result :=
      mkGameNotePlayResult (Some BREAK)
        (Some (current_millis - position_millis)) (Some TOO_LATE_TO_START) in
    Ok (with_play_status self (_is_playing self) (_is_played self)
          (_result_type self) (Some play_result),
        Some play_result)
  else
    let* too_late_to_finish := is_too_late_to_finish self current_millis in
    if too_late_to_finish then
      let* end_position_millis := get_end_position_millis self in
      let play_result :=
        mkGameNotePlayResult (Some MAX1)
          (Some (current_millis - end_position_millis))
          (Some TOO_LATE_TO_FINISH) in
      Ok (with_play_status self (_is_playing self) (_is_played self)
            (_result_type self) (Some play_result),
          Some play_result)
    else Ok (self, _play_result self).

(** What [process()] does, as data: the closure [_on_process] chosen in
    [__init__] is determined by the note's variant. *)
Inductive ProcessAction : Type :=
| PlaySound (sound : Sound) (sound_volume : option SoundVolume)
| SetTrackVolume (track_volume : Q)
| SetTempo (tempo : Q)
| SetBeat (beat : N).

Definition on_process (self : t) : result ProcessAction :=
  match params (_note self) with
  | PTFileGeneralNoteParams _ _ _ _ _ =>
      match _sound self with
      | Some sound => Ok (PlaySound sound (_sound_volume self))
      | None => Err AttributeError
      end
  | PTFileVolumeNoteParams volume =>
      let* track_volume := truediv (QofN volume) 127 in
      Ok (SetTrackVolume track_volume)
  | PTFileBPMChangeNoteParams tempo => Ok (SetTempo tempo)
  | PTFileBeatNoteParams beat => Ok (SetBeat beat)
  end.

End GameNote.

(* ------------------------------------------------------------------ *)
(** ** [GameTrackChannel]: the round-robin picker over a track's channels *)

Module GameTrackChannel.

(** One call of the mixer: [channel.play(sound)] followed by
    [channel.set_volume(...)]. *)
Record MixerCall : Type := mkMixerCall {
  mixer_channel : nat;
  mixer_sound : Sound;
  mixer_volume : SoundVolume
}.

(** [_channels] holds the indices of the [pygame] channels; [_channels_len]
    is [len(_channels)], fixed at construction.  [mixer_calls] records the
    calls made to the mixer, most recent first. *)
Record t : Type := mk {
  _channels : list nat;
  _volume : Q;
  _channel_index : nat;
  mixer_calls : list MixerCall
}.

Definition init (channels : list nat) : t := mk channels 1 0 [].

Definition _channels_len (self : t) : nat := length (_channels self).

Definition set_volume (self : t) (volume : Q) : t :=
  mk (_channels self) volume (_channel_index self) (mixer_calls self).

Definition find_free_channel (self : t) : result (t * nat) :=
  let* free_channel := getitem (_channels self) (_channel_index self) in
  let channel_index := (_channel_index self + 1)%nat in
  let channel_index :=
    if (_channels_len self <=? channel_index)%nat
    then (channel_index - _channels_len self)%nat else channel_index in
  Ok (mk (_channels self) (_volume self) channel_index (mixer_calls self),
      free_channel).

Definition play_sound (self : t) (sound : Sound)
    (sound_volume : option SoundVolume) : result t :=
  let* (self, channel) := find_free_channel self in
  let volume :=
    match sound_volume with
    | None => VolumeFloat (_volume self)
    | Some (VolumeTuple l r) => VolumeTuple (l * _volume self) (r * _volume self)
    | Some (VolumeFloat v) => VolumeFloat (v * _volume self)
    end in
  Ok (mk (_channels self) (_volume self) (_channel_index self)
        (mkMixerCall channel sound volume :: mixer_calls self)).

End GameTrackChannel.

(* ------------------------------------------------------------------ *)
(** ** [GameTrack]: the notes of one track and its two cursors *)

(** In-place update of the object at index [i] of a list. *)
Fixpoint list_set {A : Type} (l : list A) (i : nat) (a : A) : list A :=
  match l, i with
  | [], _ => []
  | _ :: rest, O => a :: rest
  | x :: rest, S i' => x :: list_set rest i' a
  end.

(** [next(filter(pred, range(start, start + len(l))), default)] over the
    elements [l] that sit at the indices [start], [start + 1], ... *)
Fixpoint find_from {A : Type} (pred : A -> bool) (l : list A) (start default : nat)
  : nat :=
  match l with
  | [] => default
  | a :: rest => if pred a then start else find_from pred rest (S start) default
  end.

Module GameTrack.

(** The track's [GameTrackChannel] is one object shared by the track and all
    its notes; it is kept here once.  It is [None] until [set_channel]. *)
Record t : Type := mk {
  _track_type : GameTrackType;
  _notes : list GameNote.t;
  _channel : option GameTrackChannel.t;
  _played_millis_per_tick : list Q;
  _unit_judge_millis : Q;
  _current_index : nat;
  _current_play_index : nat;
  _is_playing : bool
}.

Definition _notes_len (self : t) : nat := length (_notes self).

Fixpoint init_notes (notes : list (PTFileNote Q)) (track_type : GameTrackType)
    (sound_table : GameSoundTable) : result (list GameNote.t) :=
  match notes with
  | [] => Ok []
  | note :: rest =>
      let* n := GameNote.init note track_type sound_table in
      let* ns := init_notes rest track_type sound_table in
      Ok (n :: ns)
  end.

Definition init (notes : list (PTFileNote Q)) (track_type : GameTrackType)
    (sound_table : GameSoundTable) : result t :=
  let* ns := init_notes notes track_type sound_table in
  Ok (mk track_type ns None [] 42 0 0 false).

Definition with_notes (self : t) (notes : list GameNote.t) : t :=
  mk (_track_type self) notes (_channel self) (_played_millis_per_tick self)
    (_unit_judge_millis self) (_current_index self) (_current_play_index self)
    (_is_playing self).

Definition set_channel (self : t) (channel : GameTrackChannel.t) : t :=
  mk (_track_type self) (_notes self) (Some channel)
    (_played_millis_per_tick self) (_unit_judge_millis self)
    (_current_index self) (_current_play_index self) (_is_playing self).

Definition set_played_millis_per_tick (self : t) (l : list Q) : t :=
  mk (_track_type self)
    (map (fun note => GameNote.set_played_millis_per_tick note l) (_notes self))
    (_channel self) l (_unit_judge_millis self)
    (_current_index self) (_current_play_index self) (_is_playing self).

Definition set_unit_judge_millis (self : t) (u : Q) : t :=
  mk (_track_type self)
    (map (fun note => GameNote.set_unit_judge_millis note u) (_notes self))
    (_channel self) (_played_millis_per_tick self) u
    (_current_index self) (_current_play_index self) (_is_playing self).

Definition set_index (self : t) (index : nat) : t :=
  mk (_track_type self) (_notes self) (_channel self)
    (_played_millis_per_tick self) (_unit_judge_millis self)
    index (_current_play_index self) (_is_playing self).

Definition with_play_index (self : t) (play_index : nat) : t :=
  mk (_track_type self) (_notes self) (_channel self)
    (_played_millis_per_tick self) (_unit_judge_millis self)
    (_current_index self) play_index (_is_playing self).

Definition with_is_playing (self : t) (playing : bool) : t :=
  mk (_track_type self) (_notes self) (_channel self)
    (_played_millis_per_tick self) (_unit_judge_millis self)
    (_current_index self) (_current_play_index self) playing.

Definition reset_play_status (self : t) : t :=
  with_notes (with_play_index self 0)
    (map GameNote.reset_play_status (_notes self)).

Definition get_index (self : t) : nat := _current_index self.

Definition increment_index (self : t) : t := set_index self (get_index self + 1).

Definition get_head_note (self : t) : option GameNote.t :=
  if (_current_index self <? _notes_len self)%nat
  then nth_error (_notes self) (_current_index self) else None.

(** [find_note_index(predicate, start_index=start_index)], the default being
    [_notes_len]. *)
Definition find_note_index (self : t) (predicate : GameNote.t -> bool)
    (start_index : nat) : nat :=
  find_from predicate (skipn start_index (_notes self)) start_index
    (_notes_len self).

Definition set_index_for_tick (self : t) (tick : N) : t :=
  set_index self
    (find_note_index self (fun note => (tick <=? GameNote.get_position note)%N) 0).

Definition get_play_index (self : t) : nat := _current_play_index self.

Definition set_play_index (self : t) (play_index : nat) : t :=
  with_play_index self (find_note_index self GameNote.is_playable play_index).

Definition increment_play_index (self : t) : t :=
  set_play_index self (get_play_index self + 1).

Definition set_play_index_for_tick (self : t) (tick : N) : t :=
  set_play_index self
    (find_note_index self (fun note => (tick <=? GameNote.get_position note)%N) 0).

Definition get_play_head_note (self : t) : option GameNote.t :=
  if (_current_play_index self <? _notes_len self)%nat
  then nth_error (_notes self) (_current_play_index self) else None.

(** Store a note back at the play cursor: the head note is an object of
    [_notes], so what a method does to it is seen through the list. *)
Definition put_play_head_note (self : t) (note : GameNote.t) : t :=
  with_notes self (list_set (_notes self) (_current_play_index self) note).




End GameTrack.

(* ------------------------------------------------------------------ *)
(** ** [GamePatternPlayer]: the score aggregator *)

Definition QofNat (n : nat) : Q := inject_Z (Z.of_nat n).

(** An [IntEnum] member hashes and compares as its integer value; a dict
    keyed by result types is a dict keyed by these values. *)
Definition result_type_key (t : GameNotePlayResultType) : nat :=
  match t with MAX100 => 100 | MAX90 => 90 | MAX1 => 1 | BREAK => 0 end.

(** [dct.get(key, 0)]. *)
Definition dict_get_default (dct : list (nat * nat)) (key : nat) : nat :=
  match dict_get dct key with Some v => v | None => 0 end.

Module GamePatternPlayer.

Record t : Type := mk {
  _unit_judge_millis : Q;
  _play_result_count : nat;
  _combo_count : nat;
  _average_accuracy : Q;
  _result_type_counts : list (nat * nat)
}.

Definition fresh_result_type_counts : list (nat * nat) :=
  [(result_type_key MAX100, 0); (result_type_key MAX90, 0);
   (result_type_key MAX1, 0); (result_type_key BREAK, 0)]%nat.

Definition init : t := mk 42 0 0 0 fresh_result_type_counts.

Definition reset_play_stats (self : t) : t :=
  mk (_unit_judge_millis self) 0 0 0 fresh_result_type_counts.

(** [on_play_result].  A result without a result type makes the division
    [play_result.result_type / self._play_result_count] raise. *)
Definition on_play_result (self : t) (play_result : GameNotePlayResult)
  : result t :=
  let play_result_count := (_play_result_count self + 1)%nat in
  match result_type play_result with
  | None => Err TypeError
  | Some rt =>
      let* old_part :=
        truediv (_average_accuracy self * QofNat (play_result_count - 1))
          (QofNat play_result_count) in
      let* new_part :=
        truediv (GameNotePlayResultType_value rt) (QofNat play_result_count) in
      let average_accuracy := old_part + new_part in
      let combo_count :=
        if GameNotePlayResultType_eqb rt BREAK then 0%nat
        else (_combo_count self + 1)%nat in
      let result_type_counts :=
        dict_set (_result_type_counts self) (result_type_key rt)
          (dict_get_default (_result_type_counts self) (result_type_key rt) + 1)%nat
      in
      Ok (mk (_unit_judge_millis self) play_result_count combo_count
            average_accuracy result_type_counts)
  end.

(** The guard shared by [play_button] and the auto-fail sweep:
    [if play_result is not None and play_result.result_type is not None]. *)
Definition report (self : t) (play_result : option GameNotePlayResult)
  : result t :=
  match play_result with
  | Some r =>
      match result_type r with
      | Some _ => on_play_result self r
      | None => Ok self
      end
  | None => Ok self
  end.

End GamePatternPlayer.

(* ------------------------------------------------------------------ *)
(** ** [GameSequencePlayer]: chart load *)

(** [lst[start:end]] for [0 <= start <= end]. *)
Definition slice {A : Type} (lst : list A) (start stop : nat) : list A :=
  firstn (stop - start) (skipn start lst).

(** Monadic left fold: a [for] loop whose body may raise. *)
Fixpoint for_each {A S : Type} (items : list A) (body : S -> A -> result S)
    (s : S) : result S :=
  match items with
  | [] => Ok s
  | a :: rest => let* s := body s a in for_each rest body s
  end.

Module Timeline.

(** The local variables of the timeline sweep in [open_ptfile], with the
    three per-tick lists and the overlap flags it fills. *)
Record t : Type := mk {
  tempo : Q;
  played_millis : Q;
  tick_interval_millis : Q;
  _tempos_per_tick : list Q;
  _played_millis_per_tick : list Q;
  _tick_interval_millis_per_tick : list Q;
  _track_has_any_overlap : list (nat * bool);
  last_general_note_per_track : list (nat * GameNote.t)
}.

Definition start : t := mk 0 0 0 [] [] [] [] [].

Definition mem {V : Type} (key : nat) (dct : list (nat * V)) : bool :=
  match dict_get dct key with Some _ => true | None => false end.

(** The body of the [while] loop for a GENERAL note: the overlap test
    against the previous GENERAL note of the track. *)
Definition on_general (track_index : nat) (note : GameNote.t) (s : t) : result t :=
  let* overlap :=
    if negb (mem track_index (_track_has_any_overlap s))
       && mem track_index (last_general_note_per_track s)
    then
      let* prev_note := dict_getitem (last_general_note_per_track s) track_index in
      let* prev_millis :=
        getitem (_played_millis_per_tick s)
          (N.to_nat (GameNote.get_position prev_note)) in
      match GameNote.get_sound_duration_millis prev_note with
      | None => Err TypeError
      | Some sound_duration_millis =>
          if Qltb (played_millis s) (prev_millis + sound_duration_millis)
          then Ok (dict_set (_track_has_any_overlap s) track_index true)
          else Ok (_track_has_any_overlap s)
      end
    else Ok (_track_has_any_overlap s) in
  Ok (mk (tempo s) (played_millis s) (tick_interval_millis s)
        (_tempos_per_tick s) (_played_millis_per_tick s)
        (_tick_interval_millis_per_tick s) overlap
        (dict_set (last_general_note_per_track s) track_index note)).

(** The body for a BPM note. *)
Definition on_bpm_change (ticks_per_measure : N) (note : GameNote.t) (s : t)
  : result t :=
  match params (GameNote._note note) with
  | PTFileBPMChangeNoteParams new_tempo =>
      let* interval := tick_interval_of ticks_per_measure new_tempo in
      Ok (mk new_tempo (played_millis s) interval
            (_tempos_per_tick s) (_played_millis_per_tick s)
            (_tick_interval_millis_per_tick s) (_track_has_any_overlap s)
            (last_general_note_per_track s))
  | _ => Err AttributeError
  end.

(** [while note and note.get_position() <= cursor_tick: ...] on one track.
    [rest] is the part of the track's notes from its processing cursor on;
    the result counts how often [increment_index] ran. *)
Fixpoint drain (ticks_per_measure : N) (cursor_tick : N) (track_index : nat)
    (rest : list GameNote.t) (s : t) : result (nat * t) :=
  match rest with
  | [] => Ok (0%nat, s)
  | note :: rest' =>
      if (GameNote.get_position note <=? cursor_tick)%N then
        let* s :=
          if GameNote.is_general note then on_general track_index note s
          else Ok s in
        let* s :=
          if GameNote.is_bpm_change note then on_bpm_change ticks_per_measure note s
          else Ok s in
        let* (k, s) := drain ticks_per_measure cursor_tick track_index rest' s in
        Ok (S k, s)
      else Ok (0%nat, s)
  end.

(** One track at one tick: drain from the processing cursor, then leave the
    cursor after the drained notes. *)
Definition sweep_track (ticks_per_measure : N) (cursor_tick : N)
    (acc : list (nat * GameTrack.t) * t) (entry : nat * GameTrack.t)
  : result (list (nat * GameTrack.t) * t) :=
  let (done, s) := acc in
  let (track_index, track) := entry in
  let* (k, s) :=
    drain ticks_per_measure cursor_tick track_index
      (skipn (GameTrack.get_index track) (GameTrack._notes track)) s in
  Ok (done ++ [(track_index,
                GameTrack.set_index track (GameTrack.get_index track + k))],
      s).

(** The body of [for cursor_tick in range(self._total_ticks)]. *)
Definition tick (ticks_per_measure : N)
    (acc : list (nat * GameTrack.t) * t) (cursor_tick : nat)
  : result (list (nat * GameTrack.t) * t) :=
  let (game_tracks_dict, s) := acc in
  let s :=
    mk (tempo s) (played_millis s + tick_interval_millis s)
      (tick_interval_millis s) (_tempos_per_tick s) (_played_millis_per_tick s)
      (_tick_interval_millis_per_tick s) (_track_has_any_overlap s)
      (last_general_note_per_track s) in
  let* (game_tracks_dict, s) :=
    for_each game_tracks_dict
      (sweep_track ticks_per_measure (N.of_nat cursor_tick)) ([], s) in
  Ok (game_tracks_dict,
      mk (tempo s) (played_millis s) (tick_interval_millis s)
        (_tempos_per_tick s ++ [tempo s])
        (_played_millis_per_tick s ++ [played_millis s])
        (_tick_interval_millis_per_tick s ++ [tick_interval_millis s])
        (_track_has_any_overlap s) (last_general_note_per_track s)).

Definition build (ticks_per_measure total_ticks : N)
    (game_tracks_dict : list (nat * GameTrack.t))
  : result (list (nat * GameTrack.t) * t) :=
  for_each (seq 0 (N.to_nat total_ticks)) (tick ticks_per_measure)
    (game_tracks_dict, start).

End Timeline.

Module ChannelAllocator.

(** The conditional expression of [_number_of_channels_per_track]. *)
Definition number_of_channels (has_any_general_note : bool)
    (has_any_overlap : option bool) (track_type : GameTrackType) : nat :=
  if negb has_any_general_note then 0
  else if match has_any_overlap with Some b => b | None => false end
          || GameTrackType_eqb track_type FG1
  then 2
  else 1.

Definition any_general_note (notes : list (PTFileNote Q)) : bool :=
  existsb (fun note => match command_type note with GENERAL => true | _ => false end)
    notes.

(** [sum(dct.values())]. *)
Definition sum_values (dct : list (nat * nat)) : nat :=
  fold_left Nat.add (dict_values dct) 0%nat.

(** [partition_list_by_size(lst, sizes)] for a dict [sizes]: the loop
    variable [end] is threaded through. *)
Fixpoint partition_from {A : Type} (lst : list A) (sizes : list (nat * nat))
    (stop : nat) : list (nat * list A) :=
  match sizes with
  | [] => []
  | (key, size) :: rest =>
      let start := stop in
      let stop := (start + size)%nat in
      (key, slice lst start stop) :: partition_from lst rest stop
  end.

Definition partition_list_by_size {A : Type} (lst : list A)
    (sizes : list (nat * nat)) : list (nat * list A) :=
  partition_from lst sizes 0.

End ChannelAllocator.

(** [{i: track for i, track in enumerate(tracks) if track.notes}], counting
    from [i]. *)
Fixpoint effective_tracks_from (i : nat) (tracks : list (PTFileTrack Q))
  : list (nat * PTFileTrack Q) :=
  match tracks with
  | [] => []
  | track :: rest =>
      match notes track with
      | [] => effective_tracks_from (S i) rest
      | _ :: _ => (i, track) :: effective_tracks_from (S i) rest
      end
  end.

Module GameSequencePlayer.

Record t : Type := mk {
  _beats_per_minute : Q;
  _total_ticks : N;
  _ticks_per_measure : N;
  _effective_tracks : list (nat * PTFileTrack Q);
  _game_tracks_dict : list (nat * GameTrack.t);
  (* [_game_tracks_list] is [list(_game_tracks_dict.values())] and
     [_game_playable_tracks_list] a sublist of it: the same track objects.
     The playable ones are named by their keys. *)
  _game_playable_tracks_list : list nat;
  _tempos_per_tick : list Q;
  _played_millis_per_tick : list Q;
  _tick_interval_millis_per_tick : list Q;
  _track_has_any_overlap : list (nat * bool);
  _track_has_any_general_note : list (nat * bool);
  _number_of_channels_per_track : list (nat * nat);
  _total_number_of_channels : nat;
  _pygame_channels : list nat;
  _tempo : Q;
  _beat : N;
  _tick_interval_millis : Q;
  _current_tick : Z;
  _current_millis : Q;
  _started_millis : Q;
  _elapsed_millis : Q;
  _played_millis : Q;
  _paused_millis : Q;
  _is_playable : bool;
  _is_playing : bool;
  _is_auto_play : bool;
  _game_mode : GameMode;
  _unit_judge_millis : Q
}.

(** The part of the state that [open_ptfile] keeps: the settings that do not
    depend on the chart. *)
Record settings : Type := mkSettings {
  s_is_auto_play : bool;
  s_game_mode : GameMode;
  s_unit_judge_millis : Q
}.

Definition default_settings : settings := mkSettings false FOUR 42.

Fixpoint init_tracks (effective_tracks : list (nat * PTFileTrack Q))
    (sound_table : GameSoundTable) : result (list (nat * GameTrack.t)) :=
  match effective_tracks with
  | [] => Ok []
  | (track_index, track) :: rest =>
      let* game_track :=
        GameTrack.init (notes track) (get_track_type track_index) sound_table in
      let* game_tracks := init_tracks rest sound_table in
      Ok ((track_index, game_track) :: game_tracks)
  end.

Definition map_values {V W : Type} (f : V -> W) (dct : list (nat * V))
  : list (nat * W) :=
  map (fun kv => (fst kv, f (snd kv))) dct.

(** The body of the last loop of [open_ptfile]:
    [track.set_channel(self._channel_per_track[track_index])]. *)
Definition give_channel (channel_per_track : list (nat * GameTrackChannel.t))
    (done : list (nat * GameTrack.t)) (entry : nat * GameTrack.t)
  : result (list (nat * GameTrack.t)) :=
  let* channel := dict_getitem channel_per_track (fst entry) in
  Ok (done ++ [(fst entry, GameTrack.set_channel (snd entry) channel)]).

(** [open_ptfile], given the sound table that loading the chart's sound
    files produced.  The settings of the player are kept; [set_tempo] at the
    end divides by the master tempo. *)
Definition open_ptfile (cfg : settings) (ptfile : PTFile Q)
    (sound_table : GameSoundTable) : result t :=
  let beats_per_minute := master_bpm (header ptfile) in
  let total_ticks := total_ticks (header ptfile) in
  let ticks_per_measure := ticks_per_measure (header ptfile) in
  let effective_tracks := effective_tracks_from 0 (tracks ptfile) in
  let* game_tracks_dict := init_tracks effective_tracks sound_table in
  let game_playable_tracks_list :=
    filter (is_playable_track (s_game_mode cfg)) (dict_keys game_tracks_dict) in
  let game_tracks_dict :=
    map_values (fun track =>
                  GameTrack.set_unit_judge_millis track (s_unit_judge_millis cfg))
      game_tracks_dict in
  let track_has_any_general_note :=
    map_values (fun track => ChannelAllocator.any_general_note (notes track))
      effective_tracks in
  let* (game_tracks_dict, timeline) :=
    Timeline.build ticks_per_measure total_ticks game_tracks_dict in
  let game_tracks_dict :=
    map_values (fun track =>
                  GameTrack.set_played_millis_per_tick (GameTrack.set_index track 0)
                    (Timeline._played_millis_per_tick timeline))
      game_tracks_dict in
  let track_has_any_overlap := Timeline._track_has_any_overlap timeline in
  let number_of_channels_per_track :=
    map (fun kv =>
           (fst kv,
            ChannelAllocator.number_of_channels (snd kv)
              (dict_get track_has_any_overlap (fst kv))
              (get_track_type (fst kv))))
      track_has_any_general_note in
  let total_number_of_channels :=
    ChannelAllocator.sum_values number_of_channels_per_track in
  let pygame_channels := seq 0 total_number_of_channels in
  let channel_per_track :=
    map_values GameTrackChannel.init
      (ChannelAllocator.partition_list_by_size pygame_channels
         number_of_channels_per_track) in
  let* game_tracks_dict :=
    for_each game_tracks_dict (give_channel channel_per_track) [] in
  let* tick_interval_millis :=
    tick_interval_of ticks_per_measure beats_per_minute in
  Ok (mk beats_per_minute total_ticks ticks_per_measure effective_tracks
        game_tracks_dict game_playable_tracks_list
        (Timeline._tempos_per_tick timeline)
        (Timeline._played_millis_per_tick timeline)
        (Timeline._tick_interval_millis_per_tick timeline)
        track_has_any_overlap track_has_any_general_note
        number_of_channels_per_track total_number_of_channels pygame_channels
        beats_per_minute 4 tick_interval_millis
        0 (-1) (-1) (-1) (-1) (-1)
        true false (s_is_auto_play cfg) (s_game_mode cfg)
        (s_unit_judge_millis cfg)).

(** [__init__] without a chart: nothing is playable yet. *)
Definition init : t :=
  mk 0 0 0 [] [] [] [] [] [] [] [] [] 0 [] 0 0 0 0 (-1) (-1) (-1) (-1) (-1)
    false false false FOUR 42.

(** *** Field updates *)

Definition with_tracks (self : t) (game_tracks_dict : list (nat * GameTrack.t)) : t :=
  mk (_beats_per_minute self) (_total_ticks self) (_ticks_per_measure self)
    (_effective_tracks self) game_tracks_dict (_game_playable_tracks_list self)
    (_tempos_per_tick self) (_played_millis_per_tick self)
    (_tick_interval_millis_per_tick self) (_track_has_any_overlap self)
    (_track_has_any_general_note self) (_number_of_channels_per_track self)
    (_total_number_of_channels self) (_pygame_channels self)
    (_tempo self) (_beat self) (_tick_interval_millis self)
    (_current_tick self) (_current_millis self) (_started_millis self)
    (_elapsed_millis self) (_played_millis self) (_paused_millis self)
    (_is_playable self) (_is_playing self) (_is_auto_play self)
    (_game_mode self) (_unit_judge_millis self).

Definition with_tempo (self : t) (tempo : Q) (beat : N) (tick_interval_millis : Q)
  : t :=
  mk (_beats_per_minute self) (_total_ticks self) (_ticks_per_measure self)
    (_effective_tracks self) (_game_tracks_dict self)
    (_game_playable_tracks_list self)
    (_tempos_per_tick self) (_played_millis_per_tick self)
    (_tick_interval_millis_per_tick self) (_track_has_any_overlap self)
    (_track_has_any_general_note self) (_number_of_channels_per_track self)
    (_total_number_of_channels self) (_pygame_channels self)
    tempo beat tick_interval_millis
    (_current_tick self) (_current_millis self) (_started_millis self)
    (_elapsed_millis self) (_played_millis self) (_paused_millis self)
    (_is_playable self) (_is_playing self) (_is_auto_play self)
    (_game_mode self) (_unit_judge_millis self).

Definition with_clock (self : t) (current_tick : Z)
    (current_millis started_millis elapsed_millis played_millis paused_millis : Q)
    (is_playing : bool) : t :=
  mk (_beats_per_minute self) (_total_ticks self) (_ticks_per_measure self)
    (_effective_tracks self) (_game_tracks_dict self)
    (_game_playable_tracks_list self)
    (_tempos_per_tick self) (_played_millis_per_tick self)
    (_tick_interval_millis_per_tick self) (_track_has_any_overlap self)
    (_track_has_any_general_note self) (_number_of_channels_per_track self)
    (_total_number_of_channels self) (_pygame_channels self)
    (_tempo self) (_beat self) (_tick_interval_millis self)
    current_tick current_millis started_millis elapsed_millis played_millis
    paused_millis
    (_is_playable self) is_playing (_is_auto_play self)
    (_game_mode self) (_unit_judge_millis self).

Definition get_elapsed_millis (self : t) : Q := _elapsed_millis self.

(** [self._game_tracks_dict.get(track_index)] *)
Definition get_track (self : t) (track_index : nat) : option GameTrack.t :=
  dict_get (_game_tracks_dict self) track_index.

Definition put_track (self : t) (track_index : nat) (track : GameTrack.t) : t :=
  with_tracks self (dict_set (_game_tracks_dict self) track_index track).

Definition set_tempo (self : t) (tempo : Q) : result t :=
  let* tick_interval_millis := tick_interval_of (_ticks_per_measure self) tempo in
  Ok (with_tempo self tempo (_beat self) tick_interval_millis).

Definition set_beat (self : t) (beat : N) : t :=
  with_tempo self (_tempo self) beat (_tick_interval_millis self).

(** [on_tick_start(current_millis)] *)
Definition on_tick_start (self : t) (current_millis : Q) : t :=
  if negb (_is_playing self) then self
  else
    with_clock self (_current_tick self) current_millis (_started_millis self)
      (_elapsed_millis self) (_played_millis self) (_paused_millis self)
      (_is_playing self).

(** *** [note.process()], for a note of the track [track_index] *)

Definition process (self : t) (track_index : nat) (note : GameNote.t) : result t :=
  let* action := GameNote.on_process note in
  match action with
  | GameNote.PlaySound sound sound_volume =>
      let* track := dict_getitem (_game_tracks_dict self) track_index in
      match GameTrack._channel track with
      | None => Err AttributeError
      | Some channel =>
          let* channel := GameTrackChannel.play_sound channel sound sound_volume in
          Ok (put_track self track_index (GameTrack.set_channel track channel))
      end
  | GameNote.SetTrackVolume track_volume =>
      let* track := dict_getitem (_game_tracks_dict self) track_index in
      match GameTrack._channel track with
      | None => Err AttributeError
      | Some channel =>
          Ok (put_track self track_index
                (GameTrack.set_channel track
                   (GameTrackChannel.set_volume channel track_volume)))
      end
  | GameNote.SetTempo tempo => set_tempo self tempo
  | GameNote.SetBeat beat => Ok (set_beat self beat)
  end.

(** *** [GameTrack.start_play] and [GameTrack.finish_play]

    They are methods of the track; the note's [process()] reaches the track's
    channel and the sequence player, so they are given here on the player
    that holds the track at [track_index]. *)

Definition track_start_play (self : t) (track_index : nat) (current_millis : Q)
  : result (t * option GameNotePlayResult) :=
  let* track := dict_getitem (_game_tracks_dict self) track_index in
  if GameTrack._is_playing track then Ok (self, None)
  else
    let track := GameTrack.with_is_playing track true in
    let self := put_track self track_index track in
    match GameTrack.get_play_head_note track with
    | None => Ok (self, None)
    | Some note =>
        let* self := process self track_index note in
        let* track := dict_getitem (_game_tracks_dict self) track_index in
        let* (note, play_result) := GameNote.start_play note current_millis in
        let track := GameTrack.put_play_head_note track note in
        let track :=
          if GameNote._is_played note then GameTrack.increment_play_index track
          else track in
        Ok (put_track self track_index track, play_result)
    end.

Definition track_finish_play (self : t) (track_index : nat) (current_millis : Q)
  : result (t * option GameNotePlayResult) :=
  let* track := dict_getitem (_game_tracks_dict self) track_index in
  if negb (GameTrack._is_playing track) then Ok (self, None)
  else
    let track := GameTrack.with_is_playing track false in
    let self := put_track self track_index track in
    match GameTrack.get_play_head_note track with
    | None => Ok (self, None)
    | Some note =>
        let* (note, play_result) := GameNote.finish_play note current_millis in
        let track := GameTrack.put_play_head_note track note in
        let track :=
          if GameNote._is_played note then GameTrack.increment_play_index track
          else track in
        Ok (put_track self track_index track, play_result)
    end.

(** *** [on_tick], phase by phase *)

(** Lines 1187-1199: (re)base [_started_millis], start [_played_millis] at 0,
    shift the start by a pause. *)
Definition on_tick_rebase (self : t) : t :=
  let started_millis :=
    if Qltb (_started_millis self) 0 then
      if Qltb (_played_millis self) 0 then _current_millis self
      else _current_millis self - _played_millis self
    else _started_millis self in
  let played_millis :=
    if Qltb (_played_millis self) 0 then 0 else _played_millis self in
  let paused := Qltb 0 (_paused_millis self) in
  let started_millis :=
    if paused then started_millis + (_current_millis self - _paused_millis self)
    else started_millis in
  let paused_millis := if paused then -1 else _paused_millis self in
  with_clock self (_current_tick self) (_current_millis self) started_millis
    (_elapsed_millis self) played_millis paused_millis (_is_playing self).

(** Lines 1206-1215: elapsed time, whole ticks since the last advance, and
    the advance of [_current_tick] and [_played_millis]. *)
Definition on_tick_advance (self : t) : result t :=
  let elapsed_millis := _current_millis self - _started_millis self in
  let incremental_millis := elapsed_millis - _played_millis self in
  let* incremental_ticks :=
    if Qltb 0 (_tick_interval_millis self) then
      let* quotient := truediv incremental_millis (_tick_interval_millis self) in
      Ok (py_int quotient)
    else Ok 0%Z in
  if (0 <? incremental_ticks)%Z then
    Ok (with_clock self (_current_tick self + incremental_ticks)%Z
          (_current_millis self) (_started_millis self) elapsed_millis
          (_played_millis self
           + _tick_interval_millis self * inject_Z incremental_ticks)
          (_paused_millis self) (_is_playing self))
  else
    Ok (with_clock self (_current_tick self)
          (_current_millis self) (_started_millis self) elapsed_millis
          (_played_millis self) (_paused_millis self) (_is_playing self)).

(** Lines 1219-1229 for one track: [rest] is the part of the notes from the
    processing cursor on; the result counts the notes passed and lists those
    to process. *)
Fixpoint due_notes (current_tick : Z) (playable auto_play : bool)
    (rest : list GameNote.t) : nat * list GameNote.t :=
  match rest with
  | [] => (0%nat, [])
  | note :: rest' =>
      if (Z.of_N (GameNote.get_position note) <=? current_tick)%Z then
        let (k, to_process) := due_notes current_tick playable auto_play rest' in
        if negb (GameNote.is_general note) then (S k, note :: to_process)
        else if negb playable then (S k, note :: to_process)
        else if auto_play then (S k, note :: to_process)
        else (S k, to_process)
      else (0%nat, [])
  end.

Definition is_playable_key (self : t) (track_index : nat) : bool :=
  existsb (Nat.eqb track_index) (_game_playable_tracks_list self).

(** Lines 1217-1232: pass the due notes of every track, then process the
    collected ones in order. *)
Definition on_tick_process (self : t) : result t :=
  let passes :=
    map (fun entry =>
           let track := snd entry in
           let (k, to_process) :=
             due_notes (_current_tick self) (is_playable_key self (fst entry))
               (_is_auto_play self)
               (skipn (GameTrack.get_index track) (GameTrack._notes track)) in
           ((fst entry,
             GameTrack.set_index track (GameTrack.get_index track + k)),
            map (fun note => (fst entry, note)) to_process))
      (_game_tracks_dict self) in
  let self := with_tracks self (map fst passes) in
  let notes_to_process := concat (map snd passes) in
  for_each notes_to_process
    (fun self item => process self (fst item) (snd item)) self.

(** Lines 1235-1242 for one track: the auto-fail sweep of the judgment
    cursor.  Each turn of the [while] loop moves the cursor forward, so
    [fuel] turns are enough when [fuel] is at least the number of notes from
    the cursor to the end of the track. *)
Fixpoint fail_sweep_loop (fuel : nat) (elapsed_millis : Q) (auto_play : bool)
    (track : GameTrack.t) (pattern_player : GamePatternPlayer.t)
  : result (GameTrack.t * GamePatternPlayer.t) :=
  match fuel with
  | O => Ok (track, pattern_player)
  | S fuel' =>
      match GameTrack.get_play_head_note track with
      | None => Ok (track, pattern_player)
      | Some note =>
          let* should_fail := GameNote.should_fail_to_play note elapsed_millis in
          if should_fail then
            let* (track, pattern_player) :=
              if negb auto_play then
                let* (note, play_result) := GameNote.fail note elapsed_millis in
                let* pattern_player :=
                  GamePatternPlayer.report pattern_player play_result in
                Ok (GameTrack.put_play_head_note track note, pattern_player)
              else Ok (track, pattern_player) in
            fail_sweep_loop fuel' elapsed_millis auto_play
              (GameTrack.increment_play_index track) pattern_player
          else Ok (track, pattern_player)
      end
  end.

Definition fail_sweep_track (elapsed_millis : Q) (auto_play : bool)
    (track : GameTrack.t) (pattern_player : GamePatternPlayer.t)
  : result (GameTrack.t * GamePatternPlayer.t) :=
  fail_sweep_loop (GameTrack._notes_len track - GameTrack.get_play_index track)
    elapsed_millis auto_play track pattern_player.

(** Lines 1234-1242: the sweep over the playable tracks. *)
Definition on_tick_fail_sweep (self : t) (pattern_player : GamePatternPlayer.t)
  : result (t * GamePatternPlayer.t) :=
  for_each (_game_playable_tracks_list self)
    (fun (acc : t * GamePatternPlayer.t) track_index =>
       let (self, pattern_player) := acc in
       let* track := dict_getitem (_game_tracks_dict self) track_index in
       let* (track, pattern_player) :=
         fail_sweep_track (_elapsed_millis self) (_is_auto_play self) track
           pattern_player in
       Ok (put_track self track_index track, pattern_player))
    (self, pattern_player).

(** Lines 1244-1245. *)
Definition on_tick_finish (self : t) : t :=
  if (Z.of_N (_total_ticks self) <? _current_tick self)%Z then
    with_clock self (_current_tick self) (_current_millis self)
      (_started_millis self) (_elapsed_millis self) (_played_millis self)
      (_paused_millis self) false
  else self.

(** [on_tick].  The replay of a background sound after a seek
    ([_play_intermediate_mr_sound], set by [sync_with_current_tick] only) is
    audio output and is not part of this model. *)
Definition on_tick (self : t) (pattern_player : GamePatternPlayer.t)
  : result (t * GamePatternPlayer.t) :=
  if negb (_is_playing self) then Ok (self, pattern_player)
  else
    let self := on_tick_rebase self in
    let* self := on_tick_advance self in
    let* self := on_tick_process self in
    let* (self, pattern_player) := on_tick_fail_sweep self pattern_player in
    Ok (on_tick_finish self, pattern_player).


(** *** Start, seek and resume *)

Definition update_playable_tracks (self : t) (f : GameTrack.t -> GameTrack.t) : t :=
  with_tracks self
    (map (fun entry =>
            if is_playable_key self (fst entry) then (fst entry, f (snd entry))
            else entry)
       (_game_tracks_dict self)).

Definition reset_play_status (self : t) : t :=
  update_playable_tracks self GameTrack.reset_play_status.

Definition reset_progress (self : t) (pattern_player : GamePatternPlayer.t)
  : t * GamePatternPlayer.t :=
  let self :=
    with_clock self 0 (-1) (-1) (-1) (-1) (-1) (_is_playing self) in
  let self :=
    with_tracks self
      (map_values (fun track => GameTrack.set_index track 0)
         (_game_tracks_dict self)) in
  (reset_play_status self, GamePatternPlayer.reset_play_stats pattern_player).

Definition start_play (self : t) (pattern_player : GamePatternPlayer.t)
  : t * GamePatternPlayer.t :=
  if negb (_is_playing self) then
    let (self, pattern_player) := reset_progress self pattern_player in
    (with_clock self (_current_tick self) (_current_millis self)
       (_started_millis self) (_elapsed_millis self) (_played_millis self)
       (_paused_millis self) (_is_playable self),
     pattern_player)
  else (self, pattern_player).

Definition set_current_tick (self : t) (current_tick : Z) : t :=
  let paused_millis :=
    if Qltb 0 (_paused_millis self) then -1 else _paused_millis self in
  reset_play_status
    (with_clock self current_tick (_current_millis self) (_started_millis self)
       (_elapsed_millis self) (_played_millis self) paused_millis false).

Definition offset_current_tick (self : t) (delta_tick : Z) : t :=
  set_current_tick self (Z.max 0 (_current_tick self + delta_tick)).

(** The replay of [sync_with_current_tick] on one track at one tick: only
    BPM notes change the replayed tempo and interval.  (The background
    sound that the replay also looks for is audio output.) *)
Fixpoint replay_drain (ticks_per_measure : N) (cursor_tick : N)
    (rest : list GameNote.t) (acc : Q * Q) : result (nat * (Q * Q)) :=
  match rest with
  | [] => Ok (0%nat, acc)
  | note :: rest' =>
      if (GameNote.get_position note <=? cursor_tick)%N then
        let* acc :=
          match params (GameNote._note note) with
          | PTFileBPMChangeNoteParams tempo =>
              let* tick_interval_millis :=
                tick_interval_of ticks_per_measure tempo in
              Ok (tempo, tick_interval_millis)
          | _ => Ok acc
          end in
        let* (k, acc) := replay_drain ticks_per_measure cursor_tick rest' acc in
        Ok (S k, acc)
      else Ok (0%nat, acc)
  end.

(** The accumulator is the track dict and the local variables [tempo],
    [played_millis] and [tick_interval_millis]. *)
Definition replay_tick (ticks_per_measure : N)
    (acc : list (nat * GameTrack.t) * (Q * Q * Q)) (cursor_tick : nat)
  : result (list (nat * GameTrack.t) * (Q * Q * Q)) :=
  let '(game_tracks_dict, (tempo, played_millis, tick_interval_millis)) := acc in
  let played_millis := played_millis + tick_interval_millis in
  let* (game_tracks_dict, tempo_interval) :=
    for_each game_tracks_dict
      (fun (acc : list (nat * GameTrack.t) * (Q * Q)) entry =>
         let (done, tempo_interval) := acc in
         let track := snd entry in
         let* (k, tempo_interval) :=
           replay_drain ticks_per_measure (N.of_nat cursor_tick)
             (skipn (GameTrack.get_index track) (GameTrack._notes track))
             tempo_interval in
         Ok (done ++ [(fst entry,
                       GameTrack.set_index track (GameTrack.get_index track + k))],
             tempo_interval))
      ([], (tempo, tick_interval_millis)) in
  Ok (game_tracks_dict, (fst tempo_interval, played_millis, snd tempo_interval)).

Definition sync_with_current_tick (self : t) : result t :=
  let self :=
    update_playable_tracks self
      (fun track =>
         GameTrack.set_play_index_for_tick track (Z.to_N (_current_tick self))) in
  let game_tracks_dict :=
    map_values (fun track => GameTrack.set_index track 0) (_game_tracks_dict self) in
  let* (game_tracks_dict, locals) :=
    for_each (seq 0 (Z.to_nat (_current_tick self)))
      (replay_tick (_ticks_per_measure self)) (game_tracks_dict, (0, 0, 0)) in
  let '(tempo, played_millis, tick_interval_millis) := locals in
  let self := with_tracks self game_tracks_dict in
  let self := with_tempo self tempo (_beat self) tick_interval_millis in
  Ok (with_clock self (_current_tick self) (_current_millis self) (-1)
        (_elapsed_millis self) played_millis (_paused_millis self)
        (_is_playing self)).

Definition resume_play (self : t) : result t :=
  if negb (_is_playing self) then
    let* self :=
      if Qltb (_paused_millis self) 0 then sync_with_current_tick self
      else Ok self in
    Ok (with_clock self (_current_tick self) (_current_millis self)
          (_started_millis self) (_elapsed_millis self) (_played_millis self)
          (_paused_millis self) (_is_playable self))
  else Ok self.

(** *** [GamePatternPlayer.play_button]

    The pattern player asks the sequence player for the track and the
    elapsed time, plays the head note and reports the result. *)
Definition play_button (self : t) (pattern_player : GamePatternPlayer.t)
    (button : GameTrackButtonType) (action_type : GameButtonActionType)
  : result (t * GamePatternPlayer.t) :=
  let track_index := get_track_index button in
  match get_track self track_index with
  | None => Ok (self, pattern_player)
  | Some _ =>
      let current_millis := get_elapsed_millis self in
      let* (self, play_result) :=
        match action_type with
        | KEYDOWN => track_start_play self track_index current_millis
        | KEYUP => track_finish_play self track_index current_millis
        end in
      let* pattern_player := GamePatternPlayer.report pattern_player play_result in
      Ok (self, pattern_player)
  end.

(** *** Settings, stop and pause *)

Definition with_settings (self : t) (game_playable_tracks_list : list nat)
    (is_auto_play : bool) (game_mode : GameMode) (unit_judge_millis : Q) : t :=
  mk (_beats_per_minute self) (_total_ticks self) (_ticks_per_measure self)
    (_effective_tracks self) (_game_tracks_dict self)
    game_playable_tracks_list
    (_tempos_per_tick self) (_played_millis_per_tick self)
    (_tick_interval_millis_per_tick self) (_track_has_any_overlap self)
    (_track_has_any_general_note self) (_number_of_channels_per_track self)
    (_total_number_of_channels self) (_pygame_channels self)
    (_tempo self) (_beat self) (_tick_interval_millis self)
    (_current_tick self) (_current_millis self) (_started_millis self)
    (_elapsed_millis self) (_played_millis self) (_paused_millis self)
    (_is_playable self) (_is_playing self) is_auto_play game_mode
    unit_judge_millis.

Definition set_auto_play (self : t) (auto_play : bool) : t :=
  with_settings self (_game_playable_tracks_list self) auto_play
    (_game_mode self) (_unit_judge_millis self).

Definition get_auto_play (self : t) : bool := _is_auto_play self.

(** [set_game_mode]: the playable tracks are chosen anew and their judgment
    cursors are put at the current tick. *)
Definition set_game_mode (self : t) (game_mode : GameMode) : t :=
  let self :=
    with_settings self
      (filter (is_playable_track game_mode) (dict_keys (_game_tracks_dict self)))
      (_is_auto_play self) game_mode (_unit_judge_millis self) in
  update_playable_tracks self
    (fun track =>
       GameTrack.set_play_index_for_tick track (Z.to_N (_current_tick self))).

Definition set_unit_judge_millis (self : t) (unit_judge_millis : Q) : t :=
  with_tracks
    (with_settings self (_game_playable_tracks_list self) (_is_auto_play self)
       (_game_mode self) unit_judge_millis)
    (map_values (fun track => GameTrack.set_unit_judge_millis track unit_judge_millis)
       (_game_tracks_dict self)).

(** [stop_play] ([pygame.mixer.stop()] is audio output). *)
Definition stop_play (self : t) (pattern_player : GamePatternPlayer.t)
  : t * GamePatternPlayer.t :=
  let self :=
    if _is_playing self then
      with_clock self (_current_tick self) (_current_millis self)
        (_started_millis self) (_elapsed_millis self) (_played_millis self)
        (_paused_millis self) false
    else self in
  reset_progress self pattern_player.

(** [pause_play]; [now] is what [pygame.time.get_ticks()] returns. *)
Definition pause_play (self : t) (now : Q) : t :=
  if _is_playing self then
    with_clock self (_current_tick self) (_current_millis self)
      (_started_millis self) (_elapsed_millis self) (_played_millis self)
      now false
  else self.


Definition get_line_interval_ticks (self : t) : Q :=
  QofN (_ticks_per_measure self) * QofN (_beat self) / 4.


(** [on_event] for a [WINDOWMOVED] event. *)
Definition on_window_moved (self : t) : result t :=
  if _is_playing self then resume_play (offset_current_tick self 0)
  else Ok self.

End GameSequencePlayer.

(* ------------------------------------------------------------------ *)
(** ** [GamePatternDrawer]: the note speed and the buttons to draw *)

(** [lst.index(x)] when [x in lst], and [None] when [x not in lst]. *)
Fixpoint index_of {A : Type} (eqb : A -> A -> bool) (x : A) (lst : list A)
  : option nat :=
  match lst with
  | [] => None
  | y :: rest =>
      if eqb y x then Some 0%nat
      else match index_of eqb x rest with Some i => Some (S i) | None => None end
  end.

Module GamePatternDrawer.

Record t : Type := mk {
  _note_speed : Q;
  _track_drop_duration_millis : Q
}.

Definition get_note_speed (self : t) : Q := _note_speed self.

Definition set_note_speed (_ : t) (note_speed : Q) : result t :=
  let* track_drop_duration_millis := truediv 2800 note_speed in
  Ok (mk note_speed track_drop_duration_millis).


Definition _button_draw_order : list GameTrackButtonType :=
  [SIDEL; SIDER; L1; R1; BUTTON1; BUTTON2; BUTTON3; BUTTON4; BUTTON5; BUTTON6].

(** An entry of [_buttons_to_draw]; the track is named by its index. *)
Record ButtonArgs : Type := mkButtonArgs {
  button_track : nat;
  button_type : GameTrackButtonType;
  button_color : ButtonColor;
  button_left : Q;
  button_width : Q
}.

(** The body of the loop of [set_game_mode] over [_button_draw_order]. *)
Definition add_button_to_draw (game_mode : GameMode) (tracks : list nat)
    (column_width : Q) (buttons_to_draw : list ButtonArgs)
    (button_type : GameTrackButtonType) : result (list ButtonArgs) :=
  match index_of GameTrackButtonType_eqb button_type (get_button_types game_mode) with
  | None => Ok buttons_to_draw
  | Some button_index =>
      let track_index := get_track_index button_type in
      if existsb (Nat.eqb track_index) tracks then
        let* button_color := getitem (get_button_colors game_mode) button_index in
        let* button_column := getitem (get_button_columns game_mode) button_index in
        let (button_left, button_width) :=
          match button_column with
          | ColumnSpan l w => (column_width * l, column_width * w)
          | Column column => (column_width * column, column_width)
          end in
        Ok (buttons_to_draw
            ++ [mkButtonArgs track_index button_type button_color button_left
                  button_width])
      else Ok buttons_to_draw
  end.

(** [_buttons_to_draw] as [set_game_mode] computes it; [tracks] holds the
    keys of the sequence player's track dict. *)
Definition buttons_to_draw (game_mode : GameMode) (tracks : list nat)
    (screen_width : Q) : result (list ButtonArgs) :=
  let* column_width :=
    truediv screen_width (QofNat (get_total_columns game_mode)) in
  for_each _button_draw_order (add_button_to_draw game_mode tracks column_width) [].

End GamePatternDrawer.

(* ------------------------------------------------------------------ *)
(** ** [GameActions]: what the keys and the buttons of the window do *)

Module GameActions.

Definition pause_or_stop_play (sequence_player : GameSequencePlayer.t)
    (pattern_player : GamePatternPlayer.t) (now : Q)
  : GameSequencePlayer.t * GamePatternPlayer.t :=
  if GameSequencePlayer._is_playing sequence_player
  then (GameSequencePlayer.pause_play sequence_player now, pattern_player)
  else GameSequencePlayer.stop_play sequence_player pattern_player.

Definition pause_or_resume_play (sequence_player : GameSequencePlayer.t) (now : Q)
  : result GameSequencePlayer.t :=
  if GameSequencePlayer._is_playing sequence_player
  then Ok (GameSequencePlayer.pause_play sequence_player now)
  else GameSequencePlayer.resume_play sequence_player.



(** [decrease_note_speed] and [increase_note_speed]: the speed stays
    between 1.0 and 9.0. *)
Definition decrease_note_speed (pattern_drawer : GamePatternDrawer.t) (step : Q)
  : result GamePatternDrawer.t :=
  let note_speed := GamePatternDrawer.get_note_speed pattern_drawer in
  if Qltb 1 note_speed then
    let note_speed :=
      if Qltb 1 (note_speed - step) then note_speed - step else 1 in
    GamePatternDrawer.set_note_speed pattern_drawer note_speed
  else Ok pattern_drawer.

Definition increase_note_speed (pattern_drawer : GamePatternDrawer.t) (step : Q)
  : result GamePatternDrawer.t :=
  let note_speed := GamePatternDrawer.get_note_speed pattern_drawer in
  if Qltb note_speed 9 then
    let note_speed :=
      if Qltb (note_speed + step) 9 then note_speed + step else 9 in
    GamePatternDrawer.set_note_speed pattern_drawer note_speed
  else Ok pattern_drawer.

End GameActions.

(* ------------------------------------------------------------------ *)
(** ** [dwax_cli.py]: the notes of a chart by tick, as [diff] compares them *)

Module DwaxCli.

(** [enumerate(lst)] *)
Definition enumerate {A : Type} (lst : list A) : list (nat * A) :=
  combine (seq 0 (length lst)) lst.

(** [dct.setdefault(key, []).append(a)] *)
Definition setdefault_append {A : Type} (dct : list (nat * list A)) (key : nat)
    (a : A) : list (nat * list A) :=
  match dict_get dct key with
  | Some l => dict_set dct key (l ++ [a])
  | None => dict_set dct key [a]
  end.

(** The [while] loop of [parse_notes] on one track, over the notes [rest] of
    the track from its cursor on: a note at [tick_index] is added to the
    group of the track and the cursor moves past it; the first other note
    ends the loop. *)
Fixpoint take_notes {F} (tick_index track_index : nat)
    (rest : list (PTFileNote F))
    (acc : list nat * list (nat * list (PTFileNote F)))
  : result (list nat * list (nat * list (PTFileNote F))) :=
  match rest with
  | [] => Ok acc
  | note :: rest' =>
      if (position note =? N.of_nat tick_index)%N then
        let (current_track_indices, notes_at_tick) := acc in
        let notes_at_tick := setdefault_append notes_at_tick track_index note in
        let* current_track_index := getitem current_track_indices track_index in
        take_notes tick_index track_index rest'
          (list_set current_track_indices track_index (current_track_index + 1)%nat,
           notes_at_tick)
      else Ok acc
  end.

(** The body of the loop over [enumerate(ptfile.tracks)]. *)
Definition scan_track {F} (tick_index : nat)
    (acc : list nat * list (nat * list (PTFileNote F)))
    (entry : nat * PTFileTrack F)
  : result (list nat * list (nat * list (PTFileNote F))) :=
  let (track_index, track) := entry in
  let* current_track_index := getitem (fst acc) track_index in
  take_notes tick_index track_index (skipn current_track_index (notes track)) acc.

(** The body of the loop over [range(total_ticks)]. *)
Definition scan_tick {F} (track_entries : list (PTFileTrack F))
    (acc : list nat * list (nat * list (nat * list (PTFileNote F))))
    (tick_index : nat)
  : result (list nat * list (nat * list (nat * list (PTFileNote F)))) :=
  let (current_track_indices, notes_per_tick) := acc in
  let* (current_track_indices, notes_at_tick) :=
    for_each (enumerate track_entries) (scan_track tick_index)
      (current_track_indices, []) in
  Ok (current_track_indices,
      match notes_at_tick with
      | [] => notes_per_tick
      | _ :: _ => dict_set notes_per_tick tick_index notes_at_tick
      end).

(** [parse_notes(ptfile)] of [diff]: for every tick that has notes, the
    notes at that tick by track index. *)
Definition parse_notes {F} (ptfile : PTFile F)
  : result (list (nat * list (nat * list (PTFileNote F)))) :=
  let num_tracks := N.to_nat (number_of_tracks (header ptfile)) in
  let total_ticks := N.to_nat (total_ticks (header ptfile)) in
  let* (_, notes_per_tick) :=
    for_each (seq 0 total_ticks) (scan_tick (tracks ptfile))
      (repeat 0%nat num_tracks, []) in
  Ok notes_per_tick.

(** [notes_per_tick[0][0][-1].params.beat], the beat that [diff] takes from
    the grouped notes. *)
Definition first_beat {F} (notes_per_tick : list (nat * list (nat * list (PTFileNote F))))
  : result N :=
  let* notes_at_tick := dict_getitem notes_per_tick 0%nat in
  let* track_notes := dict_getitem notes_at_tick 0%nat in
  match rev track_notes with
  | [] => Err IndexError
  | note :: _ =>
      match params note with
      | PTFileBeatNoteParams beat => Ok beat
      | _ => Err AttributeError
      end
  end.

End DwaxCli.


(* ------------------------------------------------------------------ *)
(** ** Notions used in the statements *)






(** What relates the tempo in effect to the interval in effect: both still
    at their initial 0, or the interval computed from the tempo. *)
Definition tempo_interval (ticks_per_measure : N) (tempo interval : Q) : Prop :=
  (tempo = 0 /\ interval = 0) \/
  tick_interval_of ticks_per_measure tempo = Ok interval.

(** The timeline sweep between two ticks: [n] ticks are recorded, and the
    locals hold the values recorded last. *)
Record timeline_inv (ticks_per_measure : N) (n : nat) (s : Timeline.t) : Prop := {
  inv_tempos_len : length (Timeline._tempos_per_tick s) = n;
  inv_played_len : length (Timeline._played_millis_per_tick s) = n;
  inv_intervals_len : length (Timeline._tick_interval_millis_per_tick s) = n;
  inv_locals :
    tempo_interval ticks_per_measure (Timeline.tempo s)
      (Timeline.tick_interval_millis s);
  inv_pairs : forall t a b,
    nth_error (Timeline._tempos_per_tick s) t = Some a ->
    nth_error (Timeline._tick_interval_millis_per_tick s) t = Some b ->
    tempo_interval ticks_per_measure a b;
  inv_steps : forall t p q i,
    nth_error (Timeline._played_millis_per_tick s) t = Some p ->
    nth_error (Timeline._played_millis_per_tick s) (S t) = Some q ->
    nth_error (Timeline._tick_interval_millis_per_tick s) t = Some i ->
    q = p + i;
  inv_first : forall p,
    nth_error (Timeline._played_millis_per_tick s) 0 = Some p -> p = 0;
  inv_last :
    match n with
    | O => Timeline.played_millis s = 0 /\ Timeline.tick_interval_millis s = 0
    | S m =>
        nth_error (Timeline._played_millis_per_tick s) m
        = Some (Timeline.played_millis s) /\
        nth_error (Timeline._tick_interval_millis_per_tick s) m
        = Some (Timeline.tick_interval_millis s)
    end
}.

(** What the notes of one tick may change in the sweep: the tempo and the
    interval, kept related; the overlap flags; the last GENERAL notes. *)
Definition notes_effect (ticks_per_measure : N) (s s' : Timeline.t) : Prop :=
  Timeline._tempos_per_tick s' = Timeline._tempos_per_tick s /\
  Timeline._played_millis_per_tick s' = Timeline._played_millis_per_tick s /\
  Timeline._tick_interval_millis_per_tick s'
  = Timeline._tick_interval_millis_per_tick s /\
  Timeline.played_millis s' = Timeline.played_millis s /\
  (tempo_interval ticks_per_measure (Timeline.tempo s)
     (Timeline.tick_interval_millis s) ->
   tempo_interval ticks_per_measure (Timeline.tempo s')
     (Timeline.tick_interval_millis s')).





(* ------------------------------------------------------------------ *)
(** The bytes that the records of a chart take in its file: 24 for the
    header, 68 for every sound, and for a track its 80 bytes and 16 for every
    note. *)
Definition track_size {F} (track : PTFileTrack F) : nat :=
  (80 + 16 * length (notes track))%nat.

Definition tracks_size {F} (track_entries : list (PTFileTrack F)) : nat :=
  list_sum (map track_size track_entries).

Definition file_size {F} (ptfile : PTFile F) : nat :=
  (24 + 68 * length (sounds ptfile) + tracks_size (tracks ptfile))%nat.

(** A name read from a 64-byte field: at most 64 characters, none of them
    U+0000. *)
Definition well_formed_name (s : str) : Prop :=
  (length s <= 64)%nat /\ ~ In 0%N s.


(** The channel that the [k]-th call of [find_free_channel] returns, counted
    from the state [self]. *)
Definition round_robin (self : GameTrackChannel.t) (k : nat) : nat :=
  nth ((GameTrackChannel._channel_index self + k)
       mod GameTrackChannel._channels_len self)
    (GameTrackChannel._channels self) 0%nat.

(** [play_sound] for each of [sounds] in turn. *)
Definition play_sounds (sounds : list (Sound * option SoundVolume))
    (self : GameTrackChannel.t) : result GameTrackChannel.t :=
  for_each sounds
    (fun self item => GameTrackChannel.play_sound self (fst item) (snd item)) self.

(** What the construction of a [GameNote] needs of a chart note on a track
    of type [track_type]: a GENERAL note names a loaded sound, and on the
    background-music track its pan is 64. *)
Definition note_loads (sound_table : GameSoundTable) (track_type : GameTrackType)
    (note : PTFileNote Q) : Prop :=
  match params note with
  | PTFileGeneralNoteParams sound_index _ pan _ _ =>
      (exists sound, get_sound_by_index sound_table sound_index = Ok sound) /\
      (track_type = MR -> pan = 64%N)
  | _ => True
  end.

(** [on_play_result] for each of [results] in turn. *)
Definition feed (results : list GameNotePlayResult) (self : GamePatternPlayer.t)
  : result GamePatternPlayer.t :=
  for_each results GamePatternPlayer.on_play_result self.

Definition has_grade (grade : GameNotePlayResultType) (r : GameNotePlayResult)
  : bool :=
  match result_type r with
  | Some rt => GameNotePlayResultType_eqb rt grade
  | None => false
  end.



Definition all_graded (results : list GameNotePlayResult) : Prop :=
  Forall (fun r => result_type r <> None) results.

(** The chart notes that the tracks of a player hold, by track index. *)
Definition chart_notes (track : GameTrack.t) : list (PTFileNote Q) :=
  map GameNote._note (GameTrack._notes track).

Definition chart_of (game_tracks_dict : list (nat * GameTrack.t))
  : list (nat * list (PTFileNote Q)) :=
  GameSequencePlayer.map_values chart_notes game_tracks_dict.

(** [self] is a state of a player that holds the chart loaded into [sp]. *)
Definition same_chart (sp self : GameSequencePlayer.t) : Prop :=
  GameSequencePlayer._ticks_per_measure self
  = GameSequencePlayer._ticks_per_measure sp /\
  chart_of (GameSequencePlayer._game_tracks_dict self)
  = chart_of (GameSequencePlayer._game_tracks_dict sp).

(** The value of a per-tick list in effect when the tick [current_tick]
    starts: the entry of the tick before, and 0 at the first tick. *)
Definition recorded_before (per_tick : list Q) (current_tick : Z) : Q :=
  match Z.to_nat current_tick with
  | O => 0
  | S t => nth t per_tick 0
  end.

Definition locals (s : Timeline.t) : Q * Q * Q :=
  (Timeline.tempo s, Timeline.played_millis s, Timeline.tick_interval_millis s).

(** The tracks of the timeline sweep and those of the replay: the same keys,
    chart notes and processing cursors. *)
Definition replays (tT tR : list (nat * GameTrack.t)) : Prop :=
  Forall2 (fun a b =>
             fst a = fst b /\ chart_notes (snd a) = chart_notes (snd b) /\
             GameTrack.get_index (snd a) = GameTrack.get_index (snd b)) tT tR.

(** The body of the inner loop of [replay_tick]. *)
Definition replay_track (tpm : N) (cursor_tick : nat)
    (acc : list (nat * GameTrack.t) * (Q * Q)) (entry : nat * GameTrack.t)
  : result (list (nat * GameTrack.t) * (Q * Q)) :=
  let (done, tempo_interval) := acc in
  let track := snd entry in
  let* (k, tempo_interval) :=
    GameSequencePlayer.replay_drain tpm (N.of_nat cursor_tick)
      (skipn (GameTrack.get_index track) (GameTrack._notes track))
      tempo_interval in
  Ok (done ++ [(fst entry,
                GameTrack.set_index track (GameTrack.get_index track + k))],
      tempo_interval).

(** The per-tick lists after [n] ticks: [n] entries, the last of which are
    the values of the locals. *)
Definition recorded (n : nat) (s : Timeline.t) : Prop :=
  length (Timeline._tempos_per_tick s) = n /\
  length (Timeline._played_millis_per_tick s) = n /\
  length (Timeline._tick_interval_millis_per_tick s) = n /\
  match n with
  | O => locals s = (0, 0, 0)
  | S m =>
      nth m (Timeline._tempos_per_tick s) 0 = Timeline.tempo s /\
      nth m (Timeline._played_millis_per_tick s) 0 = Timeline.played_millis s /\
      nth m (Timeline._tick_interval_millis_per_tick s) 0
      = Timeline.tick_interval_millis s
  end.

(** A track without its processing cursor. *)
Definition forget_index (track : GameTrack.t) : GameTrack.t :=
  GameTrack.set_index track 0.

(** A note as the load leaves it: it carries the played-milliseconds table
    and the judge unit of the player and has no play status yet. *)
Definition note_ready (table : list Q) (unit_judge_millis : Q)
    (note : GameNote.t) : Prop :=
  GameNote._played_millis_per_tick note = table /\
  GameNote._unit_judge_millis note = unit_judge_millis /\
  GameNote._is_played note = false /\ GameNote._is_playing note = false /\
  GameNote._result_type note = None /\ GameNote._play_result note = None.

(** A track as the load leaves it: both cursors at the first note, no key
    held, a channel object, and all notes ready. *)
Definition track_ready (table : list Q) (unit_judge_millis : Q)
    (track : GameTrack.t) : Prop :=
  GameTrack._current_index track = 0%nat /\
  GameTrack._current_play_index track = 0%nat /\
  GameTrack._is_playing track = false /\
  (exists channel, GameTrack._channel track = Some channel) /\
  Forall (note_ready table unit_judge_millis) (GameTrack._notes track).

(** A track before the timeline sweep: fresh notes with the judge unit. *)
Definition track_fresh (unit_judge_millis : Q) (track : GameTrack.t) : Prop :=
  GameTrack._current_play_index track = 0%nat /\
  GameTrack._is_playing track = false /\
  Forall (fun note =>
            GameNote._unit_judge_millis note = unit_judge_millis /\
            GameNote._is_played note = false /\
            GameNote._is_playing note = false /\
            GameNote._result_type note = None /\
            GameNote._play_result note = None)
    (GameTrack._notes track).

(** The note speed of the drawer is between 1 and 9 and the drop duration
    is the one computed from it. *)
Definition note_speed_in_range (pattern_drawer : GamePatternDrawer.t) : Prop :=
  1 <= GamePatternDrawer._note_speed pattern_drawer /\
  GamePatternDrawer._note_speed pattern_drawer <= 9 /\
  GamePatternDrawer._track_drop_duration_millis pattern_drawer
  == 2800 / GamePatternDrawer._note_speed pattern_drawer.

(** The notes of the track [track_index] at one tick, and in the grouped
    notes tick by tick. *)
Definition group_of {F} (notes_at_tick : list (nat * list (PTFileNote F)))
    (track_index : nat) : list (PTFileNote F) :=
  match dict_get notes_at_tick track_index with
  | Some l => l
  | None => []
  end.

Definition gathered {F} (notes_per_tick : list (nat * list (nat * list (PTFileNote F))))
    (track_index : nat) : list (PTFileNote F) :=
  flat_map (fun entry => group_of (snd entry) track_index) notes_per_tick.

(** A group of the tick [tick_index]: a track index below [bound] and a
    non-empty list of notes at that tick. *)
Definition group_at {F} (tick_index bound : nat)
    (group : nat * list (PTFileNote F)) : Prop :=
  snd group <> [] /\
  Forall (fun note => position note = N.of_nat tick_index) (snd group) /\
  (fst group < bound)%nat.

Definition groups_at {F} (bound : nat)
    (entry : nat * list (nat * list (PTFileNote F))) : Prop :=
  snd entry <> [] /\ Forall (group_at (fst entry) bound) (snd entry).

(** The longest prefix of [track_notes] whose positions never go down, start
    at [from] or later and stay below [total_ticks]. *)
Fixpoint in_order_prefix {F} (total_ticks from : N)
    (track_notes : list (PTFileNote F)) : list (PTFileNote F) :=
  match track_notes with
  | [] => []
  | note :: rest =>
      if ((from <=? position note) && (position note <? total_ticks))%N
      then note :: in_order_prefix total_ticks (position note) rest
      else []
  end.

(** The notes at the head of [rest] whose position is [tick_index]. *)
Fixpoint take_at {F} (tick_index : nat) (rest : list (PTFileNote F))
  : list (PTFileNote F) :=
  match rest with
  | [] => []
  | note :: rest' =>
      if (position note =? N.of_nat tick_index)%N
      then note :: take_at tick_index rest'
      else []
  end.

(** The groups of one track over the [n] ticks from [tick_index] on. *)
Fixpoint gather {F} (tick_index n : nat) (rest : list (PTFileNote F))
  : list (PTFileNote F) :=
  match n with
  | O => []
  | S n' =>
      take_at tick_index rest
      ++ gather (S tick_index) n' (skipn (length (take_at tick_index rest)) rest)
  end.

(** The notes of the first track at tick 0 in the grouped notes. *)
Definition first_group {F}
    (notes_per_tick : list (nat * list (nat * list (PTFileNote F))))
  : list (PTFileNote F) :=
  match dict_get notes_per_tick 0%nat with
  | Some notes_at_tick => group_of notes_at_tick 0%nat
  | None => []
  end.

(** The state of [parse_notes] when the tick [tick_index] starts: the
    cursors and the groups of the ticks before. *)
Definition grouped_up_to {F} (track_entries : list (PTFileTrack F))
    (tick_index : nat)
    (state : list nat * list (nat * list (nat * list (PTFileNote F)))) : Prop :=
  let (current_track_indices, notes_per_tick) := state in
  (length track_entries <= length current_track_indices)%nat /\
  (forall key, In key (dict_keys notes_per_tick) -> (key < tick_index)%nat) /\
  StronglySorted lt (dict_keys notes_per_tick) /\
  Forall (groups_at (length track_entries)) notes_per_tick /\
  (forall i track,
     nth_error track_entries i = Some track ->
     nth_error current_track_indices i
     = Some (length (gathered notes_per_tick i)) /\
     forall n,
       gathered notes_per_tick i
       ++ gather tick_index n
            (skipn (length (gathered notes_per_tick i)) (notes track))
       = gather 0 (tick_index + n) (notes track)) /\
  ((0 < tick_index)%nat ->
   forall track, nth_error track_entries 0 = Some track ->
     first_group notes_per_tick = take_at 0 (notes track)).


(** ** Sample charts, states and buffers *)

Module Sample.

(** One sound of one second, under the sound index 1. *)
Definition sound_table : GameSoundTable := mkGameSoundTable [(1%nat, mkSound 1)].

Definition empty_track : PTFileTrack Q := mkPTFileTrack [] 0 [].

Definition tempo_track (tempo : Q) (at_tick : N) : PTFileTrack Q :=
  mkPTFileTrack [] 20 [mkPTFileNote at_tick (PTFileBPMChangeNoteParams tempo)].

(** A short note at tick 0 and a long note at tick 10. *)
Definition key_track : PTFileTrack Q :=
  mkPTFileTrack [] 20
    [mkPTFileNote 0 (PTFileGeneralNoteParams 1 127 64 0 4);
     mkPTFileNote 10 (PTFileGeneralNoteParams 1 127 64 0 8)].

(** 192 ticks per measure at 125 beats per minute: 10 ms per tick.  Track 0
    carries the tempo, track 3 (BUTTON1) the notes to play. *)
Definition chart : PTFile Q :=
  mkPTFile (mkPTFileHeader 1 0 192 125 4 20 1 1) [mkPTFileSound 1 0 []]
    [tempo_track 125 0; empty_track; empty_track; key_track].

(** The same notes on track 23, a background track: the sound of the first
    note (1000 ms) is still playing when the second starts at 100 ms. *)
Definition chart_overlap : PTFile Q :=
  mkPTFile (mkPTFileHeader 1 0 192 125 24 20 1 1) [mkPTFileSound 1 0 []]
    (tempo_track 125 0 :: repeat empty_track 22 ++ [key_track]).


(** Two frames of play: the clock reads 1000 ms at the first frame and
    1126 ms at the second. *)
Definition two_frames : result (GameSequencePlayer.t * GamePatternPlayer.t) :=
  let* sp :=
    GameSequencePlayer.open_ptfile GameSequencePlayer.default_settings chart
      sound_table in
  let (sp, pp) := GameSequencePlayer.start_play sp GamePatternPlayer.init in
  let sp := GameSequencePlayer.on_tick_start sp 1000 in
  let* (sp, pp) := GameSequencePlayer.on_tick sp pp in
  let sp := GameSequencePlayer.on_tick_start sp 1126 in
  GameSequencePlayer.on_tick sp pp.



(** The player after the load of [chart]. *)
Definition loaded : GameSequencePlayer.t :=
  match
    GameSequencePlayer.open_ptfile GameSequencePlayer.default_settings chart
      sound_table
  with
  | Ok sp => sp
  | Err _ => GameSequencePlayer.init
  end.

(** Notes of a track whose ticks are 100 ms apart. *)
Definition hundreds : list Q := map (fun t => QofNat t * 100) (seq 0 12).

Definition short_note : GameNote.t :=
  GameNote.mk (mkPTFileNote 1 (PTFileGeneralNoteParams 1 127 64 0 4)) FG1
    (Some (mkSound 1)) (Some (VolumeFloat 1)) hundreds 42 false false None None.

Definition held_long_note : GameNote.t :=
  GameNote.mk (mkPTFileNote 1 (PTFileGeneralNoteParams 1 127 64 0 8)) FG1
    (Some (mkSound 1)) (Some (VolumeFloat 1)) hundreds 42 true false
    (Some MAX90) None.

Definition track_of (note : GameNote.t) : GameTrack.t :=
  GameTrack.mk FG1 [note] (Some (GameTrackChannel.init [0; 1]%nat)) hundreds 42
    0 0 false.

(** *** A chart file *)

Definition byte_of (n : N) : Byte.byte :=
  match Byte.of_N n with Some b => b | None => Byte.x00 end.

Fixpoint le_bytes (size : nat) (n : N) : Decoder.bytes :=
  match size with
  | O => []
  | S size' => byte_of (n mod 256) :: le_bytes size' (n / 256)
  end.

Definition zeros (n : nat) : Decoder.bytes := repeat Byte.x00 n.

(** 125.0 as a 32-bit float. *)
Definition f32_125 : N := 1123680256.

Definition header_bytes : Decoder.bytes :=
  Decoder.PTFF ++ le_bytes 1 1 ++ le_bytes 1 0 ++ le_bytes 2 192
  ++ le_bytes 4 f32_125 ++ le_bytes 2 1 ++ le_bytes 4 20 ++ le_bytes 4 0
  ++ le_bytes 2 1.

Definition sound_bytes : Decoder.bytes :=
  le_bytes 2 1 ++ le_bytes 2 0 ++ [Byte.x61] ++ zeros 63.

Definition track_bytes : Decoder.bytes :=
  Decoder.EZTR ++ zeros 2 ++ zeros 64 ++ le_bytes 4 20 ++ le_bytes 4 32
  ++ zeros 2
  ++ (le_bytes 4 0 ++ le_bytes 1 3 ++ zeros 3 ++ le_bytes 4 f32_125 ++ zeros 4)
  ++ (le_bytes 4 0 ++ le_bytes 1 1 ++ zeros 3
      ++ le_bytes 2 1 ++ le_bytes 1 127 ++ le_bytes 1 64 ++ le_bytes 1 0
      ++ le_bytes 2 4 ++ zeros 1).

(** A plain chart file of 204 bytes: the header, one sound, one track with a
    tempo note and a short note. *)
Definition buffer : Decoder.bytes := header_bytes ++ sound_bytes ++ track_bytes.

(** The same file with one byte replaced. *)
Definition patched (offset : nat) (b : Byte.byte) : Decoder.bytes :=
  list_set buffer offset b.

End Sample.

(* ================================================================== *)
(** * Properties *)

Unset Implicit Arguments.

(* ------------------------------------------------------------------ *)
(** ** Arithmetic, the error monad and containers *)

Lemma Qltb_true_iff (a b : Q) : Qltb a b = true <-> a < b.
Proof.
  unfold Qltb. rewrite negb_true_iff.
  split; intro H.
  - apply Qnot_le_lt. intro Hle. apply Qle_bool_iff in Hle. congruence.
  - destruct (Qle_bool b a) eqn:E; [|reflexivity].
    apply Qle_bool_iff in E. lra.
Qed.

Lemma Qltb_false_iff (a b : Q) : Qltb a b = false <-> b <= a.
Proof.
  unfold Qltb. rewrite negb_false_iff. apply Qle_bool_iff.
Qed.


Lemma Qltb_false (a b : Q) : b <= a -> Qltb a b = false.
Proof. apply Qltb_false_iff. Qed.

Lemma truediv_ok (a b : Q) : ~ b == 0 -> truediv a b = Ok (a / b).
Proof.
  intro H. unfold truediv.
  destruct (Qeq_bool b 0) eqn:E; [|reflexivity].
  apply Qeq_bool_iff in E. contradiction.
Qed.


Lemma QofNat_S_nonzero n : ~ QofNat (S n) == 0.
Proof.
  unfold QofNat, Qeq. cbn. lia.
Qed.

(** Inversion of a bind that succeeded, and of one that failed. *)
Lemma bind_Ok {A B} (c : result A) (k : A -> result B) b :
  bind c k = Ok b -> exists a, c = Ok a /\ k a = Ok b.
Proof. destruct c as [a|e]; cbn; [eauto|discriminate]. Qed.


Ltac inv_bind H :=
  let x := fresh "x" in
  let Hx := fresh "Hx" in
  apply bind_Ok in H; destruct H as (x & Hx & H).

Lemma dict_get_set_same {V} (dct : list (nat * V)) key v :
  dict_get (dict_set dct key v) key = Some v.
Proof.
  induction dct as [|[k w] rest IH]; cbn.
  - rewrite Nat.eqb_refl. reflexivity.
  - destruct (Nat.eqb k key) eqn:E; cbn; rewrite E; [reflexivity|exact IH].
Qed.

Lemma dict_get_set_other {V} (dct : list (nat * V)) key key' v :
  key <> key' -> dict_get (dict_set dct key v) key' = dict_get dct key'.
Proof.
  intro Hne. induction dct as [|[k w] rest IH]; cbn.
  - destruct (Nat.eqb key key') eqn:E; [apply Nat.eqb_eq in E; contradiction|reflexivity].
  - destruct (Nat.eqb k key) eqn:E; cbn.
    + apply Nat.eqb_eq in E. subst k.
      destruct (Nat.eqb key key') eqn:E';
        [apply Nat.eqb_eq in E'; contradiction|reflexivity].
    + destruct (Nat.eqb k key'); [reflexivity|exact IH].
Qed.

Lemma dict_get_nth {V} (dct : list (nat * V)) k key v :
  NoDup (dict_keys dct) ->
  nth_error dct k = Some (key, v) ->
  dict_get dct key = Some v.
Proof.
  revert k. induction dct as [|[key0 v0] rest IH]; intros k Hnd Hk.
  - destruct k; discriminate.
  - cbn in Hnd. inversion Hnd as [|? ? Hnotin Hnd']; subst.
    destruct k as [|k]; cbn in *.
    + injection Hk as -> ->. rewrite Nat.eqb_refl. reflexivity.
    + destruct (Nat.eqb_spec key0 key) as [->|Hne].
      * exfalso. apply Hnotin. apply nth_error_In in Hk.
        change key with (fst (key, v)). apply in_map. exact Hk.
      * eapply IH; eassumption.
Qed.

Lemma same_keys_nth {V W} (a : list (nat * V)) (b : list (nat * W)) k key w :
  dict_keys a = dict_keys b ->
  nth_error b k = Some (key, w) ->
  exists v, nth_error a k = Some (key, v).
Proof.
  intros Hkeys Hb.
  assert (Hk : nth_error (dict_keys a) k = Some key).
  { rewrite Hkeys. unfold dict_keys. rewrite nth_error_map, Hb. reflexivity. }
  unfold dict_keys in Hk. rewrite nth_error_map in Hk.
  destruct (nth_error a k) as [[key' v]|]; [|discriminate].
  cbn in Hk. injection Hk as ->. eauto.
Qed.

Lemma list_set_length {A} (l : list A) i a : length (list_set l i a) = length l.
Proof.
  revert i. induction l as [|x rest IH]; intros [|i]; cbn; auto.
Qed.

Lemma list_set_nth_error {A} (l : list A) i a :
  (i < length l)%nat -> nth_error (list_set l i a) i = Some a.
Proof.
  revert i. induction l as [|x rest IH]; intros [|i] H; cbn in *; try lia; auto.
  apply IH. lia.
Qed.

Lemma nth_error_snoc {A} (l : list A) (x : A) t :
  nth_error (l ++ [x]) t
  = if (t <? length l)%nat then nth_error l t
    else if (t =? length l)%nat then Some x else None.
Proof.
  destruct (Nat.ltb_spec t (length l)).
  - apply nth_error_app1. assumption.
  - rewrite nth_error_app2 by assumption.
    destruct (Nat.eqb_spec t (length l)) as [->|Hne].
    + rewrite Nat.sub_diag. reflexivity.
    + destruct (t - length l)%nat as [|[|m]] eqn:E; [lia|reflexivity|reflexivity].
Qed.

Lemma firstn_seq_le n : forall start len,
  (n <= len)%nat -> firstn n (seq start len) = seq start n.
Proof.
  induction n as [|n IH]; intros start len H; [reflexivity|].
  destruct len as [|len]; [lia|]. cbn. f_equal. apply IH. lia.
Qed.

Lemma slice_seq total a n :
  (a + n <= total)%nat -> slice (seq 0 total) a (a + n) = seq a n.
Proof.
  intro H. unfold slice.
  replace (a + n - a)%nat with n by lia.
  rewrite skipn_seq, firstn_seq_le by lia. reflexivity.
Qed.

Lemma find_from_bounds {A} (pred : A -> bool) (l : list A) start default :
  (start + length l <= default)%nat ->
  (start <= find_from pred l start default <= default)%nat.
Proof.
  revert start. induction l as [|a rest IH]; intros start H; cbn in *.
  - lia.
  - destruct (pred a); [lia|].
    specialize (IH (S start)). lia.
Qed.

(* ------------------------------------------------------------------ *)
(** ** The judgment of a key-down and of a key-up *)





(* ------------------------------------------------------------------ *)
(** ** The score aggregator *)


(** Claim C9.  Each [on_play_result] with a graded result adds exactly 1 to
    the result count; the combo becomes exactly 0 on BREAK and grows by
    exactly 1 on any other grade; the counter of the result's grade grows by
    exactly 1 and the counters of the other grades stay.  The statement holds
    in every state of the aggregator, hence at every call of a sequence. *)
Theorem on_play_result_counts
    (self : GamePatternPlayer.t) (play_result : GameNotePlayResult)
    (grade : GameNotePlayResultType) :
  result_type play_result = Some grade ->
  exists self',
    GamePatternPlayer.on_play_result self play_result = Ok self' /\
    GamePatternPlayer._play_result_count self'
    = S (GamePatternPlayer._play_result_count self) /\
    GamePatternPlayer._combo_count self'
    = (match grade with
       | BREAK => 0
       | _ => S (GamePatternPlayer._combo_count self)
       end)%nat /\
    dict_get_default (GamePatternPlayer._result_type_counts self')
      (result_type_key grade)
    = S (dict_get_default (GamePatternPlayer._result_type_counts self)
           (result_type_key grade)) /\
    (forall other, other <> grade ->
       dict_get_default (GamePatternPlayer._result_type_counts self')
         (result_type_key other)
       = dict_get_default (GamePatternPlayer._result_type_counts self)
           (result_type_key other)).
Proof.
  intro Hrt. unfold GamePatternPlayer.on_play_result. rewrite Hrt.
  replace (GamePatternPlayer._play_result_count self + 1)%nat
    with (S (GamePatternPlayer._play_result_count self)) by lia.
  rewrite !truediv_ok by apply QofNat_S_nonzero.
  cbn [bind]. eexists. split; [reflexivity|]. cbn.
  split; [reflexivity|]. split; [|split].
  - destruct grade; cbn; lia.
  - unfold dict_get_default at 1. rewrite dict_get_set_same. lia.
  - intros other Hne. unfold dict_get_default at 1.
    rewrite dict_get_set_other; [reflexivity|].
    destruct other, grade; cbn; congruence.
Qed.

Lemma on_play_result_counts_witness :
  exists self',
    GamePatternPlayer.on_play_result GamePatternPlayer.init
      (mkGameNotePlayResult (Some BREAK) (Some 200) (Some TOO_LATE_TO_START))
    = Ok self' /\
    GamePatternPlayer._play_result_count self' = 1%nat /\
    GamePatternPlayer._combo_count self' = 0%nat.
Proof.
  destruct (on_play_result_counts GamePatternPlayer.init
              (mkGameNotePlayResult (Some BREAK) (Some 200) (Some TOO_LATE_TO_START))
              BREAK eq_refl) as (self' & H & Hcount & Hcombo & _).
  exists self'. split; [exact H|]. split; [exact Hcount|exact Hcombo].
Defined.

(* ------------------------------------------------------------------ *)
(** ** The judgment cursor of a track *)

Lemma find_note_index_bounds (self : GameTrack.t) pred start :
  (start <= GameTrack._notes_len self)%nat ->
  (start <= GameTrack.find_note_index self pred start <= GameTrack._notes_len self)%nat.
Proof.
  intro H. unfold GameTrack.find_note_index. apply find_from_bounds.
  unfold GameTrack._notes_len in *. rewrite length_skipn. lia.
Qed.

Lemma get_play_head_note_Some (track : GameTrack.t) note :
  GameTrack.get_play_head_note track = Some note ->
  (GameTrack._current_play_index track < GameTrack._notes_len track)%nat /\
  nth_error (GameTrack._notes track) (GameTrack._current_play_index track) = Some note.
Proof.
  unfold GameTrack.get_play_head_note.
  destruct (Nat.ltb_spec (GameTrack._current_play_index track)
              (GameTrack._notes_len track));
    [auto|discriminate].
Qed.




Lemma increment_play_index_advances (track : GameTrack.t) :
  (GameTrack._current_play_index track < GameTrack._notes_len track)%nat ->
  (GameTrack._current_play_index track
   < GameTrack._current_play_index (GameTrack.increment_play_index track)
   <= GameTrack._notes_len track)%nat.
Proof.
  intro H. unfold GameTrack.increment_play_index, GameTrack.set_play_index,
    GameTrack.get_play_index. cbn.
  pose proof (find_note_index_bounds track GameNote.is_playable
                (GameTrack._current_play_index track + 1)) as B.
  lia.
Qed.

(* ------------------------------------------------------------------ *)
(** ** A late key-down that gets no grade *)

Lemma start_play_ungraded (note : GameNote.t) (current_millis position_millis : Q)
    (duration : N) :
  GameNote.get_duration note = Ok duration -> (duration <= 6)%N ->
  GameNote._result_type note = None ->
  GameNote.get_position_millis note = Ok position_millis ->
  ~ 3 * GameNote._unit_judge_millis note < position_millis - current_millis ->
  3 * GameNote._unit_judge_millis note <= Qabs (position_millis - current_millis) ->
  let r := mkGameNotePlayResult None (Some (current_millis - position_millis)) None in
  GameNote.start_play note current_millis
  = Ok (GameNote.with_play_status note (GameNote._is_playing note) true None
          (Some r),
        Some r).
Proof.
  intros Hd Hshort Hrt Hp Hnot Hout.
  set (u := GameNote._unit_judge_millis note) in *.
  set (diff := position_millis - current_millis) in *.
  unfold GameNote.start_play. rewrite Hp. cbn [bind]. fold u. fold diff.
  rewrite (Qltb_false (3 * u) diff) by lra.
  pose proof (Qabs_nonneg diff) as Habs.
  rewrite (Qltb_false (Qabs diff) u) by lra.
  rewrite (Qltb_false (Qabs diff) (2 * u)) by lra.
  rewrite (Qltb_false (Qabs diff) (3 * u)) by lra.
  rewrite Hrt.
  unfold GameNote.is_short, GameNote.is_long, GameNote.get_position_millis,
    GameNote.get_position, GameNote.get_duration in *.
  cbn in *.
  destruct (params (GameNote._note note)) eqn:Ep; try discriminate.
  injection Hd as ->.
  assert (E : (6 <? duration)%N = false) by (apply N.ltb_ge; exact Hshort).
  rewrite E. cbn. rewrite Hp. reflexivity.
Qed.

Lemma process_general_shape (self self1 : GameSequencePlayer.t) track_index note
    duration :
  GameNote.get_duration note = Ok duration ->
  GameSequencePlayer.process self track_index note = Ok self1 ->
  exists track channel,
    dict_get (GameSequencePlayer._game_tracks_dict self) track_index = Some track /\
    self1
    = GameSequencePlayer.put_track self track_index
        (GameTrack.set_channel track channel).
Proof.
  unfold GameNote.get_duration, GameSequencePlayer.process, GameNote.on_process.
  destruct (params (GameNote._note note)); try discriminate. intros _.
  destruct (GameNote._sound note); [|discriminate]. cbn [bind].
  unfold dict_getitem.
  destruct (dict_get (GameSequencePlayer._game_tracks_dict self) track_index)
    as [track|]; [|discriminate].
  cbn [bind].
  destruct (GameTrack._channel track) as [channel|]; [|discriminate].
  destruct (GameTrackChannel.play_sound channel _ _) as [channel'|];
    cbn [bind]; [|discriminate].
  intro H. injection H as <-. eauto.
Qed.

(** Claim C10.  A key-down on a track whose head note is a short GENERAL note
    that has no grade yet, at an elapsed time with
    [|position_millis - elapsed_millis| >= 3 * u] that is not too early
    ([position_millis - elapsed_millis <= 3 * u]): [start_play] marks the note
    played and returns a result whose result type is None, and [play_button]
    leaves the score aggregator exactly as it was, while the judgment cursor
    of the track moves past the note. *)
Theorem play_button_late_short_note_ungraded
    (self self1 : GameSequencePlayer.t) (pattern_player : GamePatternPlayer.t)
    (button : GameTrackButtonType) (track : GameTrack.t) (note : GameNote.t)
    (position_millis : Q) (duration : N) :
  let track_index := get_track_index button in
  let elapsed_millis := GameSequencePlayer.get_elapsed_millis self in
  let u := GameNote._unit_judge_millis note in
  let diff := position_millis - elapsed_millis in
  let r :=
    mkGameNotePlayResult None (Some (elapsed_millis - position_millis)) None in
  let played :=
    GameNote.with_play_status note (GameNote._is_playing note) true None
      (Some r) in
  GameSequencePlayer.get_track self track_index = Some track ->
  GameTrack._is_playing track = false ->
  GameTrack.get_play_head_note track = Some note ->
  GameNote.get_duration note = Ok duration -> (duration <= 6)%N ->
  GameNote._result_type note = None ->
  GameNote.get_position_millis note = Ok position_millis ->
  ~ 3 * u < diff -> 3 * u <= Qabs diff ->
  GameSequencePlayer.process
    (GameSequencePlayer.put_track self track_index
       (GameTrack.with_is_playing track true))
    track_index note = Ok self1 ->
  GameNote.start_play note elapsed_millis = Ok (played, Some r) /\
  exists self' track',
    GameSequencePlayer.play_button self pattern_player button KEYDOWN
    = Ok (self', pattern_player) /\
    GameSequencePlayer.get_track self' track_index = Some track' /\
    nth_error (GameTrack._notes track') (GameTrack.get_play_index track)
    = Some played /\
    (GameTrack.get_play_index track < GameTrack.get_play_index track')%nat.
Proof.
  intros track_index elapsed_millis u diff r played
    Htrack Hidle Hhead Hd Hshort Hrt Hp Hnot Hout Hproc.
  assert (Hstart : GameNote.start_play note elapsed_millis = Ok (played, Some r)).
  { exact (start_play_ungraded note elapsed_millis position_millis duration
             Hd Hshort Hrt Hp Hnot Hout). }
  split; [exact Hstart|].
  destruct (process_general_shape _ _ _ _ _ Hd Hproc) as (track0 & channel & Ht0 & ->).
  unfold GameSequencePlayer.put_track in Ht0. cbn in Ht0.
  rewrite dict_get_set_same in Ht0.
  injection Ht0 as <-.
  destruct (get_play_head_note_Some _ _ Hhead) as [Hlt Hnth].
  unfold GameSequencePlayer.play_button. fold track_index.
  unfold GameSequencePlayer.get_track in Htrack |- *.
  rewrite Htrack. fold elapsed_millis.
  unfold GameSequencePlayer.track_start_play, dict_getitem. rewrite Htrack. cbn [bind].
  rewrite Hidle.
  replace (GameTrack.get_play_head_note (GameTrack.with_is_playing track true))
    with (Some note) by (symmetry; exact Hhead).
  rewrite Hproc. cbn [bind].
  unfold GameSequencePlayer.put_track at 1.
  cbn [GameSequencePlayer._game_tracks_dict GameSequencePlayer.with_tracks].
  rewrite dict_get_set_same. cbn [bind].
  rewrite Hstart. cbn [bind].
  change (GameNote._is_played played) with true. cbv iota.
  cbn [GamePatternPlayer.report result_type r bind].
  do 2 eexists. split; [reflexivity|].
  unfold GameSequencePlayer.put_track.
  cbn [GameSequencePlayer._game_tracks_dict GameSequencePlayer.with_tracks].
  rewrite dict_get_set_same. split; [reflexivity|].
  split.
  - cbn. apply list_set_nth_error. exact Hlt.
  - set (t1 := GameTrack.put_play_head_note _ _).
    assert (Hidx : GameTrack._current_play_index t1 = GameTrack._current_play_index track)
      by reflexivity.
    assert (Hlen : GameTrack._notes_len t1 = GameTrack._notes_len track).
    { unfold t1, GameTrack._notes_len. cbn. apply list_set_length. }
    pose proof (increment_play_index_advances t1) as A.
    unfold GameTrack.get_play_index. lia.
Qed.

Lemma play_button_late_short_note_ungraded_witness :
  exists sp pp sp',
    Sample.two_frames = Ok (sp, pp) /\
    GameSequencePlayer.get_elapsed_millis sp = 126 /\
    GameSequencePlayer.play_button sp pp BUTTON1 KEYDOWN = Ok (sp', pp).
Proof.
  destruct Sample.two_frames as [[sp pp]|e] eqn:H.
  2:{ exfalso. vm_compute in H. discriminate. }
  vm_compute in H. injection H as <- <-.
  do 2 eexists.
  match goal with |- exists sp', Ok (?sp, ?pp) = _ /\ _ =>
    destruct (GameSequencePlayer.process
                (GameSequencePlayer.put_track sp 3
                   (GameTrack.with_is_playing
                      (match GameSequencePlayer.get_track sp 3 with
                       | Some t => t | None => Sample.track_of Sample.short_note end)
                      true))
                3 (match GameSequencePlayer.get_track sp 3 with
                   | Some t => match GameTrack.get_play_head_note t with
                               | Some n => n | None => Sample.short_note end
                   | None => Sample.short_note end)) as [sp1|e] eqn:Hp;
    [|exfalso; vm_compute in Hp; discriminate];
    pose proof (play_button_late_short_note_ungraded sp sp1 pp BUTTON1 _ _ 0 4
                  eq_refl eq_refl eq_refl eq_refl) as T
  end.
  cbv zeta in T.
  destruct T as [_ (sp' & track' & Hb & _)].
  - vm_compute. discriminate.
  - reflexivity.
  - reflexivity.
  - vm_compute. discriminate.
  - vm_compute. discriminate.
  - exact Hp.
  - exists sp'. split; [reflexivity|]. split; [reflexivity|]. exact Hb.
Defined.

(* ------------------------------------------------------------------ *)
(** ** The auto-fail sweep *)




(* ------------------------------------------------------------------ *)
(** ** The tick advance of a frame *)







(* ------------------------------------------------------------------ *)
(** ** The timeline sweep *)

Lemma notes_effect_refl tpm s : notes_effect tpm s s.
Proof. unfold notes_effect. tauto. Qed.

Lemma notes_effect_trans tpm s1 s2 s3 :
  notes_effect tpm s1 s2 -> notes_effect tpm s2 s3 -> notes_effect tpm s1 s3.
Proof.
  unfold notes_effect. intros (A1 & A2 & A3 & A4 & A5) (B1 & B2 & B3 & B4 & B5).
  repeat split; try congruence. auto.
Qed.

Lemma on_general_effect tpm track_index note s s' :
  Timeline.on_general track_index note s = Ok s' -> notes_effect tpm s s'.
Proof.
  unfold Timeline.on_general. intro H. inv_bind H.
  injection H as <-. unfold notes_effect. cbn. tauto.
Qed.

Lemma on_bpm_change_effect tpm note s s' :
  Timeline.on_bpm_change tpm note s = Ok s' -> notes_effect tpm s s'.
Proof.
  unfold Timeline.on_bpm_change.
  destruct (params (GameNote._note note)); try discriminate.
  intro H. inv_bind H. injection H as <-.
  unfold notes_effect. cbn. repeat split; try reflexivity.
  intros _. right. exact Hx.
Qed.

Lemma drain_effect tpm cursor_tick track_index rest :
  forall s k s',
    Timeline.drain tpm cursor_tick track_index rest s = Ok (k, s') ->
    notes_effect tpm s s'.
Proof.
  induction rest as [|note rest IH]; intros s k s' H; cbn in H.
  - injection H as _ <-. apply notes_effect_refl.
  - destruct (GameNote.get_position note <=? cursor_tick)%N.
    + inv_bind H. inv_bind H. inv_bind H. destruct x1 as [k1 s3].
      injection H as _ <-.
      eapply notes_effect_trans; [|eapply notes_effect_trans; [|eapply IH; eassumption]].
      * destruct (GameNote.is_general note).
        -- eapply on_general_effect; eassumption.
        -- injection Hx as <-. apply notes_effect_refl.
      * destruct (GameNote.is_bpm_change note).
        -- eapply on_bpm_change_effect; eassumption.
        -- injection Hx0 as <-. apply notes_effect_refl.
    + injection H as _ <-. apply notes_effect_refl.
Qed.

Lemma sweep_tracks_effect tpm cursor_tick tracks :
  forall done s done' s',
    for_each tracks (Timeline.sweep_track tpm cursor_tick) (done, s) = Ok (done', s') ->
    notes_effect tpm s s'.
Proof.
  induction tracks as [|[track_index track] tracks IH];
    intros done s done' s' H; cbn in H.
  - injection H as _ <-. apply notes_effect_refl.
  - inv_bind H. destruct x as [done1 s1].
    unfold Timeline.sweep_track in Hx. inv_bind Hx. destruct x as [k s2].
    injection Hx as <- <-.
    eapply notes_effect_trans; [eapply drain_effect; eassumption|].
    eapply IH; eassumption.
Qed.

Lemma tick_inv tpm n tracks s cursor_tick tracks' s' :
  timeline_inv tpm n s ->
  Timeline.tick tpm (tracks, s) cursor_tick = Ok (tracks', s') ->
  timeline_inv tpm (S n) s'.
Proof.
  intros I H. unfold Timeline.tick in H. inv_bind H. destruct x as [tracks1 s1].
  injection H as _ <-.
  apply sweep_tracks_effect in Hx. unfold notes_effect in Hx. cbn in Hx.
  destruct Hx as (E1 & E2 & E3 & E4 & E5).
  specialize (E5 (inv_locals I)).
  destruct I as [L1 L2 L3 Hloc Hpairs Hsteps Hfirst Hlast].
  constructor;
    cbn [Timeline._tempos_per_tick Timeline._played_millis_per_tick
         Timeline._tick_interval_millis_per_tick Timeline.tempo
         Timeline.played_millis Timeline.tick_interval_millis].
  - rewrite length_app, E1. cbn. lia.
  - rewrite length_app, E2. cbn. lia.
  - rewrite length_app, E3. cbn. lia.
  - exact E5.
  - intros t a b. rewrite !nth_error_snoc, E1, E3, L1, L3.
    destruct (Nat.ltb_spec t n).
    + apply Hpairs.
    + destruct (Nat.eqb_spec t n); [|discriminate].
      intros [= <-] [= <-]. exact E5.
  - intros t p q i. rewrite !nth_error_snoc, E2, E3, L2, L3.
    destruct (Nat.ltb_spec t n) as [Ht|Ht].
    + destruct (Nat.ltb_spec (S t) n) as [Hst|Hst].
      * apply Hsteps.
      * destruct (Nat.eqb_spec (S t) n) as [Hn|Hn]; [|discriminate].
        rewrite <- Hn in Hlast. intros Hp [= <-] Hi. rewrite E4.
        destruct Hlast as [Hl1 Hl2]. rewrite Hp in Hl1. rewrite Hi in Hl2.
        injection Hl1 as <-. injection Hl2 as <-. reflexivity.
    + destruct (Nat.eqb_spec t n); [|discriminate].
      destruct (Nat.ltb_spec (S t) n); [lia|].
      destruct (Nat.eqb_spec (S t) n); [lia|discriminate].
  - intros p. rewrite nth_error_snoc, E2, L2.
    destruct n as [|m]; cbn [Nat.ltb Nat.leb Nat.eqb].
    + intros [= <-]. rewrite E4. destruct Hlast as [-> ->]. reflexivity.
    + apply Hfirst.
  - rewrite !nth_error_snoc, E2, E3, L2, L3.
    rewrite Nat.ltb_irrefl, Nat.eqb_refl. split; reflexivity.
Qed.

Lemma ticks_inv tpm ticks :
  forall n tracks s tracks' s',
    timeline_inv tpm n s ->
    for_each ticks (Timeline.tick tpm) (tracks, s) = Ok (tracks', s') ->
    timeline_inv tpm (n + length ticks) s'.
Proof.
  induction ticks as [|cursor_tick ticks IH]; intros n tracks s tracks' s' I H; cbn in H.
  - injection H as _ <-. cbn. rewrite Nat.add_0_r. exact I.
  - inv_bind H. destruct x as [tracks1 s1].
    cbn [length]. rewrite Nat.add_succ_r.
    apply (IH (S n) tracks1 s1 tracks' s'); [|exact H].
    eapply tick_inv; eassumption.
Qed.

Lemma start_inv tpm : timeline_inv tpm 0 Timeline.start.
Proof.
  constructor; cbn; try reflexivity.
  - left. split; reflexivity.
  - intros [|t]; discriminate.
  - intros [|t]; discriminate.
  - discriminate.
  - split; reflexivity.
Qed.

Lemma build_inv tpm total tracks tracks' s :
  Timeline.build tpm total tracks = Ok (tracks', s) ->
  timeline_inv tpm (N.to_nat total) s.
Proof.
  unfold Timeline.build. intro H.
  pose proof (ticks_inv tpm _ 0 _ _ _ _ (start_inv tpm) H) as I.
  rewrite length_seq in I. exact I.
Qed.






(* ------------------------------------------------------------------ *)
(** ** The channel allocator *)

Lemma map_values_keys {V W} (f : V -> W) (dct : list (nat * V)) :
  dict_keys (GameSequencePlayer.map_values f dct) = dict_keys dct.
Proof.
  unfold dict_keys, GameSequencePlayer.map_values. rewrite map_map. reflexivity.
Qed.

Lemma map_values_nth {V W} (f : V -> W) (dct : list (nat * V)) k key v :
  nth_error dct k = Some (key, v) ->
  nth_error (GameSequencePlayer.map_values f dct) k = Some (key, f v).
Proof.
  intro H. unfold GameSequencePlayer.map_values.
  rewrite nth_error_map, H. reflexivity.
Qed.

Lemma effective_tracks_keys_bound i (tracks : list (PTFileTrack Q)) key :
  In key (dict_keys (effective_tracks_from i tracks)) -> (i <= key)%nat.
Proof.
  revert i. induction tracks as [|track rest IH]; intros i H; cbn in H.
  - contradiction.
  - destruct (notes track); cbn in H.
    + apply IH in H. lia.
    + destruct H as [<-|H]; [lia|]. apply IH in H. lia.
Qed.

Lemma effective_tracks_keys_NoDup i (tracks : list (PTFileTrack Q)) :
  NoDup (dict_keys (effective_tracks_from i tracks)).
Proof.
  revert i. induction tracks as [|track rest IH]; intros i; cbn.
  - constructor.
  - destruct (notes track); cbn; [apply IH|].
    constructor; [|apply IH].
    intro H. apply effective_tracks_keys_bound in H. lia.
Qed.

Lemma init_tracks_keys effective sound_table game_tracks :
  GameSequencePlayer.init_tracks effective sound_table = Ok game_tracks ->
  dict_keys game_tracks = dict_keys effective.
Proof.
  revert game_tracks. induction effective as [|[i track] rest IH]; intros gts H; cbn in H.
  - injection H as <-. reflexivity.
  - inv_bind H. inv_bind H. injection H as <-. cbn. f_equal. apply IH. exact Hx0.
Qed.

Lemma sweep_tracks_keys tpm cursor_tick tracks :
  forall done s done' s',
    for_each tracks (Timeline.sweep_track tpm cursor_tick) (done, s) = Ok (done', s') ->
    dict_keys done' = dict_keys done ++ dict_keys tracks.
Proof.
  induction tracks as [|[track_index track] tracks IH];
    intros done s done' s' H; cbn in H.
  - injection H as <- _. cbn. rewrite app_nil_r. reflexivity.
  - inv_bind H. destruct x as [done1 s1].
    unfold Timeline.sweep_track in Hx. inv_bind Hx. destruct x as [k s2].
    injection Hx as <- <-.
    apply IH in H. rewrite H. unfold dict_keys. rewrite map_app. cbn.
    rewrite <- app_assoc. reflexivity.
Qed.

Lemma build_keys tpm ticks :
  forall tracks s tracks' s',
    for_each ticks (Timeline.tick tpm) (tracks, s) = Ok (tracks', s') ->
    dict_keys tracks' = dict_keys tracks.
Proof.
  induction ticks as [|cursor_tick ticks IH]; intros tracks s tracks' s' H; cbn in H.
  - injection H as <- _. reflexivity.
  - inv_bind H. destruct x as [tracks1 s1].
    apply IH in H. rewrite H.
    unfold Timeline.tick in Hx. inv_bind Hx. destruct x as [tracks2 s2].
    injection Hx as <- _.
    apply sweep_tracks_keys in Hx0. exact Hx0.
Qed.

Lemma sum_values_cons key n (sizes : list (nat * nat)) :
  ChannelAllocator.sum_values ((key, n) :: sizes)
  = (n + ChannelAllocator.sum_values sizes)%nat.
Proof.
  unfold ChannelAllocator.sum_values, dict_values. cbn.
  generalize (map snd sizes) as l. intro l.
  assert (G : forall a, fold_left Nat.add l a = (a + fold_left Nat.add l 0)%nat).
  { induction l as [|x l IH]; intro a; cbn; [lia|].
    rewrite (IH (a + x)%nat), (IH x). lia. }
  apply G.
Qed.

Lemma sum_values_firstn_le k (sizes : list (nat * nat)) :
  (ChannelAllocator.sum_values (firstn k sizes) <= ChannelAllocator.sum_values sizes)%nat.
Proof.
  revert k. induction sizes as [|[key n] rest IH]; intros [|k]; cbn [firstn];
    try (unfold ChannelAllocator.sum_values; cbn; lia).
  rewrite !sum_values_cons. specialize (IH k). lia.
Qed.

Lemma sum_values_prefix k (sizes : list (nat * nat)) key n :
  nth_error sizes k = Some (key, n) ->
  (ChannelAllocator.sum_values (firstn k sizes) + n
   <= ChannelAllocator.sum_values sizes)%nat.
Proof.
  revert k. induction sizes as [|[key0 n0] rest IH]; intros [|k] H;
    try discriminate; cbn [firstn nth_error] in *.
  - injection H as -> ->. rewrite sum_values_cons.
    change (ChannelAllocator.sum_values []) with 0%nat. lia.
  - rewrite !sum_values_cons. specialize (IH k H). lia.
Qed.

Lemma partition_from_nth {A} (lst : list A) sizes :
  forall stop k key n,
    nth_error sizes k = Some (key, n) ->
    nth_error (ChannelAllocator.partition_from lst sizes stop) k
    = Some (key,
            slice lst (stop + ChannelAllocator.sum_values (firstn k sizes))
              (stop + ChannelAllocator.sum_values (firstn k sizes) + n)).
Proof.
  induction sizes as [|[key0 n0] rest IH]; intros stop k key n H.
  - destruct k; discriminate.
  - destruct k as [|k]; cbn [nth_error ChannelAllocator.partition_from firstn] in H |- *.
    + injection H as -> ->. change (ChannelAllocator.sum_values []) with 0%nat.
      rewrite Nat.add_0_r. reflexivity.
    + rewrite (IH _ _ _ _ H). rewrite sum_values_cons.
      do 3 f_equal; lia.
Qed.

Lemma partition_from_keys {A} (lst : list A) sizes stop :
  dict_keys (ChannelAllocator.partition_from lst sizes stop) = dict_keys sizes.
Proof.
  revert stop. induction sizes as [|[key n] rest IH]; intro stop; cbn.
  - reflexivity.
  - f_equal. apply IH.
Qed.

Lemma give_channels_nth channel_per_track tracks :
  forall done result,
    for_each tracks (GameSequencePlayer.give_channel channel_per_track) done
    = Ok result ->
    forall k key track,
      nth_error tracks k = Some (key, track) ->
      exists channel,
        dict_get channel_per_track key = Some channel /\
        nth_error result (length done + k)
        = Some (key, GameTrack.set_channel track channel).
Proof.
  induction tracks as [|[key0 track0] rest IH]; intros done result H k key track Hk.
  - destruct k; discriminate.
  - cbn in H. inv_bind H. unfold GameSequencePlayer.give_channel in Hx. inv_bind Hx.
    injection Hx as <-. cbn [fst snd] in *.
    unfold dict_getitem in Hx0.
    destruct (dict_get channel_per_track key0) as [channel0|] eqn:E; [|discriminate].
    injection Hx0 as <-.
    destruct k as [|k]; cbn in Hk.
    + injection Hk as <- <-. exists channel0. split; [exact E|].
      assert (G : forall rest' done' result',
                 for_each rest' (GameSequencePlayer.give_channel channel_per_track)
                   done' = Ok result' ->
                 forall j x, nth_error done' j = Some x -> nth_error result' j = Some x).
      { clear. induction rest' as [|e rest' IH']; intros done' result' H j x Hj; cbn in H.
        - injection H as <-. exact Hj.
        - inv_bind H. unfold GameSequencePlayer.give_channel in Hx. inv_bind Hx.
          injection Hx as <-.
          eapply IH'; [exact H|]. rewrite nth_error_app1; [exact Hj|].
          apply nth_error_Some. congruence. }
      eapply G; [exact H|].
      rewrite Nat.add_0_r, nth_error_app2 by lia. rewrite Nat.sub_diag. reflexivity.
    + destruct (IH _ _ H k key track Hk) as (channel & Hc & Hn).
      exists channel. split; [exact Hc|].
      rewrite length_app in Hn. cbn in Hn.
      replace (length done + S k)%nat with (length done + 1 + k)%nat by lia.
      exact Hn.
Qed.

(** Claim C7.  After [open_ptfile], in the order of the effective tracks: the
    channel count of a track is 0 without a GENERAL note, else 2 when the
    track was flagged as overlapping or is a foreground (FG1) track, else 1;
    the pool has the sum of the counts as its size; and the track at place
    [k] holds the [n] channels that start at the sum of the counts of the
    tracks before it, so the ranges are contiguous and disjoint. *)
Theorem channel_allocation
    (cfg : GameSequencePlayer.settings) (ptfile : PTFile Q)
    (sound_table : GameSoundTable) (sp : GameSequencePlayer.t) :
  GameSequencePlayer.open_ptfile cfg ptfile sound_table = Ok sp ->
  let effective := effective_tracks_from 0 (tracks ptfile) in
  let counts := GameSequencePlayer._number_of_channels_per_track sp in
  let flagged i :=
    match dict_get (GameSequencePlayer._track_has_any_overlap sp) i with
    | Some b => b
    | None => false
    end in
  (forall k i track,
     nth_error effective k = Some (i, track) ->
     nth_error counts k
     = Some (i,
             if negb (ChannelAllocator.any_general_note (notes track)) then 0
             else if flagged i || GameTrackType_eqb (get_track_type i) FG1 then 2
             else 1)%nat) /\
  length counts = length effective /\
  GameSequencePlayer._total_number_of_channels sp = ChannelAllocator.sum_values counts /\
  GameSequencePlayer._pygame_channels sp = seq 0 (ChannelAllocator.sum_values counts) /\
  (forall k i n,
     nth_error counts k = Some (i, n) ->
     exists track channel,
       nth_error (GameSequencePlayer._game_tracks_dict sp) k = Some (i, track) /\
       GameTrack._channel track = Some channel /\
       GameTrackChannel._channels channel
       = seq (ChannelAllocator.sum_values (firstn k counts)) n).
Proof.
  intros H effective counts flagged.
  unfold GameSequencePlayer.open_ptfile in H. fold effective in H.
  inv_bind H. rename x into tracks0, Hx into Hinit.
  inv_bind H. destruct x as [tracks1 timeline]. rename Hx into Hbuild.
  inv_bind H. rename x into tracks2, Hx into Hgive.
  inv_bind H. rename x into interval, Hx into Htempo.
  injection H as <-.
  unfold counts, flagged.
  cbn [GameSequencePlayer._number_of_channels_per_track
       GameSequencePlayer._track_has_any_overlap
       GameSequencePlayer._total_number_of_channels
       GameSequencePlayer._pygame_channels
       GameSequencePlayer._game_tracks_dict].
  set (sizes := map _ (GameSequencePlayer.map_values _ effective)) in *.
  assert (Hsizes_keys : dict_keys sizes = dict_keys effective).
  { unfold sizes, dict_keys, GameSequencePlayer.map_values.
    rewrite !map_map. reflexivity. }
  assert (Hnd : NoDup (dict_keys effective)) by apply effective_tracks_keys_NoDup.
  split; [|split; [|split; [reflexivity|split; [reflexivity|]]]].
  - intros k i track Hk. unfold sizes, GameSequencePlayer.map_values.
    rewrite !nth_error_map, Hk. reflexivity.
  - unfold sizes, GameSequencePlayer.map_values. rewrite !length_map. reflexivity.
  - intros k i n Hk.
    set (tracks1' := GameSequencePlayer.map_values _ tracks1) in *.
    assert (Hkeys1 : dict_keys tracks1' = dict_keys sizes).
    { unfold tracks1'. rewrite map_values_keys.
      unfold Timeline.build in Hbuild. apply build_keys in Hbuild.
      rewrite Hbuild, map_values_keys, Hsizes_keys.
      eapply init_tracks_keys. exact Hinit. }
    destruct (same_keys_nth tracks1' sizes k i n Hkeys1 Hk) as [track Htrack].
    change (for_each tracks1' (GameSequencePlayer.give_channel
              (GameSequencePlayer.map_values GameTrackChannel.init
                 (ChannelAllocator.partition_list_by_size
                    (seq 0 (ChannelAllocator.sum_values sizes)) sizes))) []
            = Ok tracks2) in Hgive.
    destruct (give_channels_nth _ _ _ _ Hgive k i track Htrack) as (channel & Hc & Hn).
    exists (GameTrack.set_channel track channel), channel.
    split; [exact Hn|]. split; [reflexivity|].
    assert (Hcpt : dict_get
              (GameSequencePlayer.map_values GameTrackChannel.init
                 (ChannelAllocator.partition_list_by_size
                    (seq 0 (ChannelAllocator.sum_values sizes)) sizes)) i
            = Some (GameTrackChannel.init
                      (seq (ChannelAllocator.sum_values (firstn k sizes)) n))).
    { eapply dict_get_nth with (k := k).
      - rewrite map_values_keys. unfold ChannelAllocator.partition_list_by_size.
        rewrite partition_from_keys, Hsizes_keys. exact Hnd.
      - erewrite map_values_nth;
          [|unfold ChannelAllocator.partition_list_by_size;
            apply partition_from_nth; exact Hk].
        cbn [Nat.add]. rewrite slice_seq; [reflexivity|].
        eapply sum_values_prefix. exact Hk. }
    rewrite Hcpt in Hc. injection Hc as <-. reflexivity.
Qed.

Lemma channel_allocation_witness :
  exists sp,
    GameSequencePlayer.open_ptfile GameSequencePlayer.default_settings
      Sample.chart_overlap Sample.sound_table = Ok sp /\
    dict_get (GameSequencePlayer._track_has_any_overlap sp) 23 = Some true /\
    nth_error (GameSequencePlayer._number_of_channels_per_track sp) 1
    = Some (23, 2)%nat /\
    exists track channel,
      nth_error (GameSequencePlayer._game_tracks_dict sp) 1 = Some (23%nat, track) /\
      GameTrack._channel track = Some channel /\
      GameTrackChannel._channels channel = [0; 1]%nat.
Proof.
  destruct (GameSequencePlayer.open_ptfile GameSequencePlayer.default_settings
              Sample.chart_overlap Sample.sound_table) as [sp|e] eqn:H.
  2:{ exfalso. vm_compute in H. discriminate. }
  exists sp. split; [reflexivity|].
  pose proof (channel_allocation _ _ _ _ H) as T. cbv zeta in T.
  destruct T as (Hcount & _ & _ & _ & Hrange).
  assert (Hflag : dict_get (GameSequencePlayer._track_has_any_overlap sp) 23 = Some true).
  { vm_compute in H. injection H as <-. reflexivity. }
  split; [exact Hflag|].
  assert (Hc : nth_error (GameSequencePlayer._number_of_channels_per_track sp) 1
               = Some (23, 2)%nat).
  { rewrite (Hcount 1%nat 23%nat Sample.key_track eq_refl), Hflag. reflexivity. }
  split; [exact Hc|].
  destruct (Hrange 1%nat 23%nat 2%nat Hc) as (track & channel & Ht & Hch & Hr).
  exists track, channel. split; [exact Ht|]. split; [exact Hch|].
  rewrite Hr. vm_compute in H. injection H as <-. reflexivity.
Defined.

(* ------------------------------------------------------------------ *)
(** ** The chart decoder *)

Section DecoderProperties.
Import Decoder.

Lemma read_Ok buffer offset size record :
  read buffer offset size = Ok record ->
  (offset + size <= length buffer)%nat /\ record = firstn size (skipn offset buffer).
Proof.
  unfold read. destruct (Nat.leb_spec (offset + size) (length buffer)); [|discriminate].
  intros [= <-]. auto.
Qed.


Lemma field_of_record buffer offset size record start len :
  read buffer offset size = Ok record ->
  (start + len <= size)%nat ->
  field record start len = field buffer (offset + start) len.
Proof.
  intros H Hle. apply read_Ok in H. destruct H as [_ ->].
  unfold field. rewrite skipn_firstn_comm, firstn_firstn, skipn_skipn.
  f_equal; [lia|f_equal; lia].
Qed.

Lemma bytes_eqb_true a b : bytes_eqb a b = true <-> a = b.
Proof.
  unfold bytes_eqb. destruct (list_eq_dec Byte.byte_eq_dec a b); split; congruence.
Qed.



























(** Claim C4.  [parse] reads the 16-bit field at offset 0x18 of the raw
    buffer, [first_song_index] being its little-endian value.  If the value
    is not 1, the whole buffer is handed to the gateway, once, before any
    structural parsing, and what the gateway returns is parsed; if it is 1
    the buffer itself is parsed and the gateway is not called: the gateway
    is called if and only if the value is not 1.  A buffer too short to hold
    the field raises [struct.error] with no gateway call. *)
Theorem parse_obfuscation_check
    (decrypt_ptfile : bytes -> result bytes) (buffer : bytes) :
  let first_song_index := uint_field buffer 24 2 in
  ((length buffer < 26)%nat ->
     parse decrypt_ptfile buffer = ([], Err StructError)) /\
  ((26 <= length buffer)%nat ->
     (first_song_index <> 1%N ->
        parse decrypt_ptfile buffer
        = ([buffer],
           let* plain := decrypt_ptfile buffer in parse_plain plain)) /\
     (first_song_index = 1%N ->
        parse decrypt_ptfile buffer = ([], parse_plain buffer)) /\
     (fst (parse decrypt_ptfile buffer) <> [] <-> first_song_index <> 1%N)).
Proof.
  intros v. split.
  - intro Hlen. unfold parse, is_encrypted, read.
    destruct (Nat.leb_spec (24 + 2) (length buffer)); [lia|reflexivity].
  - intro Hlen.
    assert (Hr : is_encrypted buffer = Ok (negb (v =? 1)%N)).
    { unfold is_encrypted, read.
      destruct (Nat.leb_spec (24 + 2) (length buffer)); [reflexivity|lia]. }
    unfold parse. rewrite Hr.
    destruct (N.eqb_spec v 1) as [E|E]; cbn [negb fst].
    + split; [tauto|]. split; [reflexivity|]. tauto.
    + split; [reflexivity|]. split; [tauto|]. split; [tauto|discriminate].
Qed.

Lemma parse_obfuscation_check_witness :
  Decoder.parse (fun _ => Err (GatewayError 401)) (Sample.patched 24 Byte.x02)
  = ([Sample.patched 24 Byte.x02], Err (GatewayError 401)) /\
  Decoder.parse (fun _ => Err (GatewayError 401)) Sample.buffer
  = ([], Decoder.parse_plain Sample.buffer) /\
  Decoder.parse (fun _ => Err (GatewayError 401)) Sample.header_bytes
  = ([], Err StructError).
Proof.
  split; [|split].
  - destruct (parse_obfuscation_check (fun _ => Err (GatewayError 401))
                (Sample.patched 24 Byte.x02)) as (_ & H).
    destruct H as (H & _ & _).
    + vm_compute. lia.
    + apply H. vm_compute. discriminate.
  - destruct (parse_obfuscation_check (fun _ => Err (GatewayError 401))
                Sample.buffer) as (_ & H).
    destruct H as (_ & H & _).
    + vm_compute. lia.
    + apply H. vm_compute. reflexivity.
  - destruct (parse_obfuscation_check (fun _ => Err (GatewayError 401))
                Sample.header_bytes) as (H & _).
    apply H. vm_compute. lia.
Defined.

End DecoderProperties.


(** ** The decoder: what it reads of the buffer *)

Section DecoderReads.
Import Decoder.

Lemma read_bound buffer offset size record :
  read buffer offset size = Ok record -> (offset + size <= length buffer)%nat.
Proof. intro H. apply read_Ok in H. tauto. Qed.

(** A read depends on the bytes before its end only. *)
Lemma read_same_prefix buffer buffer' offset size record k :
  read buffer offset size = Ok record ->
  (offset + size <= k)%nat ->
  firstn k buffer' = firstn k buffer ->
  read buffer' offset size = Ok record.
Proof.
  intros H Hk Hp. apply read_Ok in H. destruct H as [Hlen ->].
  assert (Hlen' : (offset + size <= length buffer')%nat).
  { assert (E : length (firstn k buffer') = length (firstn k buffer))
      by (rewrite Hp; reflexivity).
    rewrite !length_firstn in E. lia. }
  unfold read. destruct (Nat.leb_spec (offset + size) (length buffer')); [|lia].
  f_equal.
  assert (E : forall b : bytes,
             firstn size (skipn offset b) = firstn size (skipn offset (firstn k b))).
  { intro b. rewrite skipn_firstn_comm, firstn_firstn. f_equal. lia. }
  rewrite (E buffer'), (E buffer), Hp. reflexivity.
Qed.

Ltac bind_inv H :=
  match type of H with
  | bind ?c _ = Ok _ =>
      let E := fresh "E" in
      destruct c as [[? ?]|?] eqn:E; cbn [bind] in H; [|discriminate H]
  end.

Ltac bind_inv1 H :=
  match type of H with
  | bind ?c _ = Ok _ =>
      let E := fresh "E" in
      destruct c eqn:E; cbn [bind] in H; [|discriminate H]
  end.

Lemma parse_header_reads buffer hdr offset' :
  parse_header buffer 0 = Ok (hdr, offset') ->
  offset' = 24%nat /\ (24 <= length buffer)%nat /\
  forall buffer' k, (24 <= k)%nat -> firstn k buffer' = firstn k buffer ->
    parse_header buffer' 0 = Ok (hdr, offset').
Proof.
  unfold parse_header. intro H. bind_inv1 H.
  destruct (negb (bytes_eqb (field a 0 4) PTFF)) eqn:M; [discriminate|].
  injection H as <- <-. split; [reflexivity|]. split.
  - apply read_bound in E. lia.
  - intros buffer' k Hk Hp.
    rewrite (read_same_prefix _ _ _ _ _ k E); [|lia|exact Hp].
    cbn [bind]. rewrite M. reflexivity.
Qed.

Lemma parse_sound_reads buffer offset sound offset' :
  parse_sound buffer offset = Ok (sound, offset') ->
  offset' = (offset + 68)%nat /\ (offset' <= length buffer)%nat /\
  forall buffer' k, (offset' <= k)%nat -> firstn k buffer' = firstn k buffer ->
    parse_sound buffer' offset = Ok (sound, offset').
Proof.
  unfold parse_sound. intro H. bind_inv1 H. bind_inv1 H.
  injection H as <- <-. split; [reflexivity|]. split.
  - apply read_bound in E. lia.
  - intros buffer' k Hk Hp.
    rewrite (read_same_prefix _ _ _ _ _ k E); [|lia|exact Hp].
    cbn [bind]. rewrite E0. reflexivity.
Qed.

Lemma parse_sounds_reads buffer count : forall offset sound_entries offset',
  (offset <= length buffer)%nat ->
  parse_sounds buffer count offset = Ok (sound_entries, offset') ->
  length sound_entries = count /\
  offset' = (offset + 68 * count)%nat /\ (offset' <= length buffer)%nat /\
  forall buffer' k, (offset' <= k)%nat -> firstn k buffer' = firstn k buffer ->
    parse_sounds buffer' count offset = Ok (sound_entries, offset').
Proof.
  induction count as [|count IH]; intros offset sound_entries offset' Ho H.
  - cbn in H. injection H as <- <-. cbn. repeat split; try lia.
  - cbn [parse_sounds] in H. bind_inv H. bind_inv H. injection H as <- <-.
    apply parse_sound_reads in E. destruct E as (-> & Hb & Hs).
    apply IH in E0; [|exact Hb]. destruct E0 as (Hl & -> & Hb' & Hs').
    cbn [length]. repeat split; try lia.
    intros buffer' k Hk Hp. cbn [parse_sounds].
    rewrite (Hs buffer' k); [|lia|exact Hp]. cbn [bind].
    rewrite (Hs' buffer' k); [|lia|exact Hp]. reflexivity.
Qed.

Lemma parse_note_reads buffer offset note offset' :
  parse_note buffer offset = Ok (note, offset') ->
  offset' = (offset + 16)%nat /\ (offset' <= length buffer)%nat /\
  forall buffer' k, (offset' <= k)%nat -> firstn k buffer' = firstn k buffer ->
    parse_note buffer' offset = Ok (note, offset').
Proof.
  unfold parse_note. intro H. bind_inv1 H. bind_inv1 H.
  injection H as <- <-. split; [reflexivity|]. split.
  - apply read_bound in E. lia.
  - intros buffer' k Hk Hp.
    rewrite (read_same_prefix _ _ _ _ _ k E); [|lia|exact Hp].
    cbn [bind]. rewrite E0. reflexivity.
Qed.

Lemma parse_notes_reads buffer count : forall offset note_entries offset',
  (offset <= length buffer)%nat ->
  parse_notes buffer count offset = Ok (note_entries, offset') ->
  length note_entries = count /\
  offset' = (offset + 16 * count)%nat /\ (offset' <= length buffer)%nat /\
  forall buffer' k, (offset' <= k)%nat -> firstn k buffer' = firstn k buffer ->
    parse_notes buffer' count offset = Ok (note_entries, offset').
Proof.
  induction count as [|count IH]; intros offset note_entries offset' Ho H.
  - cbn in H. injection H as <- <-. cbn. repeat split; try lia.
  - cbn [parse_notes] in H. bind_inv H. bind_inv H. injection H as <- <-.
    apply parse_note_reads in E. destruct E as (-> & Hb & Hs).
    apply IH in E0; [|exact Hb]. destruct E0 as (Hl & -> & Hb' & Hs').
    cbn [length]. repeat split; try lia.
    intros buffer' k Hk Hp. cbn [parse_notes].
    rewrite (Hs buffer' k); [|lia|exact Hp]. cbn [bind].
    rewrite (Hs' buffer' k); [|lia|exact Hp]. reflexivity.
Qed.

Lemma parse_track_reads buffer offset track offset' :
  parse_track buffer offset = Ok (track, offset') ->
  offset' = (offset + track_size track)%nat /\ (offset' <= length buffer)%nat /\
  forall buffer' k, (offset' <= k)%nat -> firstn k buffer' = firstn k buffer ->
    parse_track buffer' offset = Ok (track, offset').
Proof.
  unfold parse_track. intro H. bind_inv1 H.
  destruct (negb (bytes_eqb (field a 0 4) EZTR)) eqn:M; [discriminate|].
  bind_inv1 H. bind_inv H. injection H as <- <-.
  pose proof (read_bound _ _ _ _ E) as Hb.
  apply parse_notes_reads in E1; [|lia].
  destruct E1 as (Hl & -> & Hb' & Hs').
  unfold track_size. cbn [notes]. rewrite Hl.
  repeat split; try lia.
  intros buffer' k Hk Hp.
  rewrite (read_same_prefix _ _ _ _ _ k E); [|lia|exact Hp].
  cbn [bind]. rewrite M, E0. cbn [bind].
  rewrite (Hs' buffer' k); [|lia|exact Hp]. reflexivity.
Qed.

Lemma parse_tracks_reads buffer count : forall offset track_entries offset',
  (offset <= length buffer)%nat ->
  parse_tracks buffer count offset = Ok (track_entries, offset') ->
  length track_entries = count /\
  offset' = (offset + tracks_size track_entries)%nat /\
  (offset' <= length buffer)%nat /\
  forall buffer' k, (offset' <= k)%nat -> firstn k buffer' = firstn k buffer ->
    parse_tracks buffer' count offset = Ok (track_entries, offset').
Proof.
  induction count as [|count IH]; intros offset track_entries offset' Ho H.
  - cbn in H. injection H as <- <-. cbn. repeat split; try lia.
  - cbn [parse_tracks] in H. bind_inv H. bind_inv H. injection H as <- <-.
    apply parse_track_reads in E. destruct E as (-> & Hb & Hs).
    apply IH in E0; [|exact Hb]. destruct E0 as (Hl & -> & Hb' & Hs').
    unfold tracks_size in *. cbn [length map].
    change (list_sum (track_size p :: map track_size l))
      with (track_size p + list_sum (map track_size l))%nat.
    repeat split; try lia.
    intros buffer' k Hk Hp. cbn [parse_tracks].
    rewrite (Hs buffer' k); [|lia|exact Hp]. cbn [bind].
    rewrite (Hs' buffer' k); [|lia|exact Hp]. reflexivity.
Qed.

(** The structural parse, with the offset it ends at. *)
Lemma parse_plain_reads buffer ptfile :
  parse_plain buffer = Ok ptfile ->
  length (sounds ptfile) = N.to_nat (number_of_sounds (header ptfile)) /\
  length (tracks ptfile) = N.to_nat (number_of_tracks (header ptfile)) /\
  (file_size ptfile <= length buffer)%nat /\
  forall buffer',
    firstn (file_size ptfile) buffer' = firstn (file_size ptfile) buffer ->
    parse_plain buffer' = Ok ptfile.
Proof.
  unfold parse_plain. intro H. bind_inv H. bind_inv H. bind_inv H.
  injection H as <-.
  apply parse_header_reads in E. destruct E as (-> & Hb & Hs).
  apply parse_sounds_reads in E0; [|exact Hb].
  destruct E0 as (Hl1 & -> & Hb1 & Hs1).
  apply parse_tracks_reads in E1; [|exact Hb1].
  destruct E1 as (Hl2 & -> & Hb2 & Hs2).
  unfold file_size. cbn [header sounds tracks]. rewrite Hl1.
  repeat split; try lia.
  intros buffer' Hp.
  match type of Hp with
  | firstn ?k _ = _ =>
      rewrite (Hs buffer' k) by (exact Hp || lia); cbn [bind];
      rewrite (Hs1 buffer' k) by (exact Hp || lia); cbn [bind];
      rewrite (Hs2 buffer' k) by (exact Hp || lia)
  end.
  reflexivity.
Qed.

(** Property X1.  A chart that parses has as many sounds and tracks as its
    header counts, and its records lie inside the buffer: 24 bytes of header,
    68 for every sound, 80 for every track and 16 for every note. *)
Theorem parse_plain_counts_and_size (buffer : bytes) (ptfile : PTFile f32) :
  parse_plain buffer = Ok ptfile ->
  length (sounds ptfile) = N.to_nat (number_of_sounds (header ptfile)) /\
  length (tracks ptfile) = N.to_nat (number_of_tracks (header ptfile)) /\
  (file_size ptfile <= length buffer)%nat.
Proof.
  intro H. apply parse_plain_reads in H. tauto.
Qed.

Lemma parse_plain_counts_and_size_witness :
  exists ptfile,
    parse_plain Sample.buffer = Ok ptfile /\
    length (sounds ptfile) = N.to_nat (number_of_sounds (header ptfile)) /\
    length (tracks ptfile) = N.to_nat (number_of_tracks (header ptfile)) /\
    (file_size ptfile <= length Sample.buffer)%nat.
Proof.
  destruct (parse_plain Sample.buffer) as [ptfile|e] eqn:H;
    [|vm_compute in H; discriminate].
  exists ptfile. split; [reflexivity|].
  exact (parse_plain_counts_and_size _ _ H).
Defined.

(** Property X2.  The parse reads the records of the chart and nothing else:
    any buffer that agrees with a parsed one on the first [file_size] bytes
    parses to the same chart, whatever follows them. *)
Theorem parse_plain_prefix_only (buffer buffer' : bytes) (ptfile : PTFile f32) :
  parse_plain buffer = Ok ptfile ->
  firstn (file_size ptfile) buffer' = firstn (file_size ptfile) buffer ->
  parse_plain buffer' = Ok ptfile.
Proof.
  intros H Hp. apply parse_plain_reads in H. destruct H as (_ & _ & _ & H).
  apply H. exact Hp.
Qed.

Lemma parse_plain_prefix_only_witness :
  parse_plain (Sample.buffer ++ [Byte.xff; Byte.x00])
  = parse_plain Sample.buffer.
Proof.
  destruct (parse_plain Sample.buffer) as [ptfile|e] eqn:H;
    [|vm_compute in H; discriminate].
  apply (parse_plain_prefix_only Sample.buffer _ ptfile H).
  assert (E : file_size ptfile = 204%nat).
  { vm_compute in H. injection H as <-. reflexivity. }
  rewrite E. vm_compute. reflexivity.
Defined.

(** *** The obfuscation check and the first record after the header *)

Lemma is_encrypted_field buffer :
  (26 <= length buffer)%nat ->
  is_encrypted buffer = Ok (negb (uint_field buffer 24 2 =? 1)%N).
Proof.
  intro Hlen. unfold is_encrypted, read.
  destruct (Nat.leb_spec (24 + 2) (length buffer)); [reflexivity|lia].
Qed.

Lemma parse_sound_inv buffer offset sound offset' :
  parse_sound buffer offset = Ok (sound, offset') ->
  exists record, read buffer offset 68 = Ok record /\
    index sound = uint_field record 0 2.
Proof.
  unfold parse_sound. intro H.
  destruct (read buffer offset 68) as [record|] eqn:R; cbn [bind] in H;
    [|discriminate].
  destruct (decode (before_nul (field record 4 64))); cbn [bind] in H;
    [|discriminate].
  injection H as <- _. exists record. split; reflexivity.
Qed.

Lemma parse_track_inv buffer offset track offset' :
  parse_track buffer offset = Ok (track, offset') ->
  exists record, read buffer offset 80 = Ok record /\ field record 0 4 = EZTR.
Proof.
  unfold parse_track. intro H.
  destruct (read buffer offset 80) as [record|] eqn:R; cbn [bind] in H;
    [|discriminate].
  destruct (negb (bytes_eqb (field record 0 4) EZTR)) eqn:M; [discriminate|].
  apply negb_false_iff, bytes_eqb_true in M.
  exists record. split; [reflexivity|exact M].
Qed.

Lemma parse_plain_inv buffer ptfile :
  parse_plain buffer = Ok ptfile ->
  exists offset1 offset2 offset3,
    parse_header buffer 0 = Ok (header ptfile, offset1) /\
    parse_sounds buffer (N.to_nat (number_of_sounds (header ptfile))) offset1
    = Ok (sounds ptfile, offset2) /\
    parse_tracks buffer (N.to_nat (number_of_tracks (header ptfile))) offset2
    = Ok (tracks ptfile, offset3).
Proof.
  unfold parse_plain. intro H.
  destruct (parse_header buffer 0) as [[hdr offset1]|] eqn:E1; cbn [bind] in H;
    [|discriminate].
  destruct (parse_sounds buffer (N.to_nat (number_of_sounds hdr)) offset1)
    as [[sound_entries offset2]|] eqn:E2; cbn [bind] in H; [|discriminate].
  destruct (parse_tracks buffer (N.to_nat (number_of_tracks hdr)) offset2)
    as [[track_entries offset3]|] eqn:E3; cbn [bind] in H; [|discriminate].
  injection H as <-. cbn [header sounds tracks].
  exists offset1, offset2, offset3. auto.
Qed.

Lemma parse_sounds_cons buffer count offset sound rest offset' :
  parse_sounds buffer count offset = Ok (sound :: rest, offset') ->
  exists offset1, parse_sound buffer offset = Ok (sound, offset1).
Proof.
  destruct count as [|count]; [discriminate|]. cbn [parse_sounds]. intro H.
  destruct (parse_sound buffer offset) as [[sound0 offset1]|]; cbn [bind] in H;
    [|discriminate].
  destruct (parse_sounds buffer count offset1) as [[rest0 offset2]|];
    cbn [bind] in H; [|discriminate].
  injection H as -> _ _. eauto.
Qed.

Lemma parse_tracks_cons buffer count offset track rest offset' :
  parse_tracks buffer count offset = Ok (track :: rest, offset') ->
  exists offset1, parse_track buffer offset = Ok (track, offset1).
Proof.
  destruct count as [|count]; [discriminate|]. cbn [parse_tracks]. intro H.
  destruct (parse_track buffer offset) as [[track0 offset1]|]; cbn [bind] in H;
    [|discriminate].
  destruct (parse_tracks buffer count offset1) as [[rest0 offset2]|];
    cbn [bind] in H; [|discriminate].
  injection H as -> _ _. eauto.
Qed.

(** Property X3.  The value that the obfuscation check reads at 0x18 is the
    index of the first sound entry of a plain chart: such a chart is parsed
    without the gateway exactly when its first sound has the index 1.  A
    plain chart with no sound and at least one track has the track magic at
    0x18 and is always handed to the gateway. *)
Theorem parse_first_sound_index
    (decrypt_ptfile : bytes -> result bytes) (buffer : bytes)
    (ptfile : PTFile f32) :
  parse_plain buffer = Ok ptfile ->
  (forall sound rest, sounds ptfile = sound :: rest ->
     uint_field buffer 24 2 = index sound /\
     (fst (parse decrypt_ptfile buffer) = [] <-> index sound = 1%N)) /\
  (sounds ptfile = [] -> tracks ptfile <> [] ->
     uint_field buffer 24 2 = 23109%N /\
     fst (parse decrypt_ptfile buffer) = [buffer]).
Proof.
  intro H. apply parse_plain_inv in H.
  destruct H as (offset1 & offset2 & offset3 & Hh & Hs & Ht).
  apply parse_header_reads in Hh. destruct Hh as (-> & Hb & _).
  split.
  - intros sound rest Es. rewrite Es in Hs.
    apply parse_sounds_cons in Hs. destruct Hs as (o & Hs).
    apply parse_sound_inv in Hs. destruct Hs as (record & R & ->).
    assert (F : uint_field record 0 2 = uint_field buffer 24 2).
    { unfold uint_field. rewrite (field_of_record _ _ _ _ 0 2 R); [|lia].
      reflexivity. }
    split; [symmetry; exact F|].
    apply read_bound in R.
    unfold parse. rewrite is_encrypted_field by lia. rewrite <- F.
    destruct (N.eqb_spec (uint_field record 0 2) 1) as [Q|Q]; cbn [negb fst].
    + tauto.
    + split; [discriminate|tauto].
  - intros Es Hne.
    pose proof (parse_sounds_reads _ _ _ _ _ Hb Hs) as (Hl & -> & _).
    rewrite Es in Hl. cbn [length] in Hl. rewrite <- Hl in Ht.
    destruct (tracks ptfile) as [|track rest]; [congruence|].
    apply parse_tracks_cons in Ht. destruct Ht as (o & Ht).
    apply parse_track_inv in Ht. destruct Ht as (record & R & M).
    replace (24 + 68 * 0)%nat with 24%nat in R by lia.
    pose proof (read_bound _ _ _ _ R) as Hlen.
    assert (F : field buffer 24 2 = [Byte.x45; Byte.x5a]).
    { rewrite (field_of_record _ _ _ _ 0 4 R) in M; [|lia].
      unfold field in *. cbn [Nat.add] in M.
      replace (firstn 2 (skipn 24 buffer))
        with (firstn 2 (firstn 4 (skipn 24 buffer)))
        by (rewrite firstn_firstn; reflexivity).
      rewrite M. reflexivity. }
    assert (V : uint_field buffer 24 2 = 23109%N).
    { unfold uint_field. rewrite F. reflexivity. }
    split; [exact V|].
    unfold parse. rewrite is_encrypted_field by lia. rewrite V. reflexivity.
Qed.

Lemma parse_first_sound_index_witness :
  fst (parse (fun _ => Err (GatewayError 401)) Sample.buffer) = [] <-> 1%N = 1%N.
Proof.
  destruct (parse_plain Sample.buffer) as [ptfile|e] eqn:H;
    [|vm_compute in H; discriminate].
  destruct (parse_first_sound_index (fun _ => Err (GatewayError 401)) _ _ H)
    as (H1 & _).
  apply (H1 (mkPTFileSound 1 0 [97%N]) []).
  vm_compute in H. injection H as <-. reflexivity.
Defined.

(** *** Names *)

Lemma before_nul_length bs : (length (before_nul bs) <= length bs)%nat.
Proof.
  induction bs as [|b rest IH]; cbn; [lia|].
  destruct (Byte.eqb b Byte.x00); cbn; lia.
Qed.

Lemma before_nul_no_nul bs : ~ In Byte.x00 (before_nul bs).
Proof.
  induction bs as [|b rest IH]; cbn; [tauto|].
  destruct (Byte.eqb b Byte.x00) eqn:E; cbn; [tauto|].
  intros [->|H]; [|tauto].
  rewrite Byte.byte_dec_lb in E; [discriminate|reflexivity].
Qed.

Lemma to_N_zero b : Byte.to_N b = 0%N -> b = Byte.x00.
Proof.
  intro H. pose proof (Byte.of_to_N b) as E. rewrite H in E. cbn in E.
  congruence.
Qed.

(** A decoded name is no longer than its bytes, and holds U+0000 only for a
    zero byte. *)
Lemma decode_Ok_aux n : forall bs s,
  (length bs <= n)%nat -> decode bs = Ok s ->
  (length s <= length bs)%nat /\ (~ In Byte.x00 bs -> ~ In 0%N s).
Proof.
  induction n as [|n IH]; intros bs s Hlen H.
  - destruct bs; [|cbn in Hlen; lia]. cbn in H. injection H as <-.
    cbn. split; [lia|tauto].
  - destruct bs as [|c0 rest0].
    { cbn in H. injection H as <-. cbn. split; [lia|tauto]. }
    cbn [decode] in H. cbn [length] in Hlen |- *.
    destruct (N.ltb_spec (Byte.to_N c0) 128) as [L0|L0].
    { destruct (decode rest0) as [s0|] eqn:E; cbn in H; [|discriminate].
      injection H as <-. destruct (IH rest0 s0) as [I1 I2]; [lia|exact E|].
      cbn [length]. split; [lia|].
      intros Hn [Hz|Hin].
      - apply Hn. left. apply to_N_zero. exact Hz.
      - apply I2; [|exact Hin]. intro. apply Hn. right. assumption. }
    destruct rest0 as [|c1 rest1]; [discriminate|]. cbn [length] in Hlen |- *.
    destruct (within 194 (Byte.to_N c0) 223) eqn:W2.
    { destruct (continuation (Byte.to_N c1)) eqn:C1; [|discriminate].
      destruct (decode rest1) as [s0|] eqn:E; cbn in H; [|discriminate].
      injection H as <-. destruct (IH rest1 s0) as [I1 I2]; [lia|exact E|].
      cbn [length]. split; [lia|].
      unfold within, continuation in *.
      apply andb_true_iff in W2, C1. rewrite !N.leb_le in W2, C1.
      intros Hn [Hz|Hin]; [lia|].
      apply I2; [|exact Hin]. intro. apply Hn. right. right. assumption. }
    destruct rest1 as [|c2 rest2]; [discriminate|]. cbn [length] in Hlen |- *.
    destruct (within 224 (Byte.to_N c0) 239) eqn:W3.
    { match type of H with (if ?c then _ else _) = _ => destruct c eqn:C end;
        [|discriminate].
      destruct (decode rest2) as [s0|] eqn:E; cbn in H; [|discriminate].
      injection H as <-. destruct (IH rest2 s0) as [I1 I2]; [lia|exact E|].
      cbn [length]. split; [lia|].
      intros Hn [Hz|Hin].
      - exfalso. unfold within, continuation in *.
        apply andb_true_iff in W3, C. destruct C as [C C2].
        apply andb_true_iff in C2. rewrite !N.leb_le in W3, C2.
        destruct (N.eqb_spec (Byte.to_N c0) 224) as [Q|Q].
        + apply andb_true_iff in C. rewrite !N.leb_le in C. lia.
        + lia.
      - apply I2; [|exact Hin]. intro. apply Hn. right. right. right.
        assumption. }
    destruct rest2 as [|c3 rest3]; [discriminate|]. cbn [length] in Hlen |- *.
    match type of H with (if ?c then _ else _) = _ => destruct c eqn:C end;
      [|discriminate].
    destruct (decode rest3) as [s0|] eqn:E; cbn in H; [|discriminate].
    injection H as <-. destruct (IH rest3 s0) as [I1 I2]; [lia|exact E|].
    cbn [length]. split; [lia|].
    intros Hn [Hz|Hin].
    + exfalso.
      rewrite !andb_true_iff in C. destruct C as [[[C0 C1] C2] C3].
      unfold within, continuation in *.
      apply andb_true_iff in C0, C2, C3. rewrite !N.leb_le in C0, C2, C3.
      destruct (N.eqb_spec (Byte.to_N c0) 240) as [Q|Q].
      * apply andb_true_iff in C1. rewrite !N.leb_le in C1. lia.
      * lia.
    + apply I2; [|exact Hin]. intro. apply Hn. do 4 right. assumption.
Qed.

Lemma decoded_name record start s :
  decode (before_nul (field record start 64)) = Ok s ->
  (length s <= 64)%nat /\ ~ In 0%N s.
Proof.
  intro H. apply (decode_Ok_aux _ _ _ (Nat.le_refl _)) in H.
  destruct H as [H1 H2]. split.
  - pose proof (before_nul_length (field record start 64)) as L.
    unfold field in L. rewrite length_firstn in L. unfold field in H1. lia.
  - apply H2. apply before_nul_no_nul.
Qed.

Lemma parse_sounds_names buffer count : forall offset sound_entries offset',
  parse_sounds buffer count offset = Ok (sound_entries, offset') ->
  Forall (fun sound => well_formed_name (filename sound)) sound_entries.
Proof.
  induction count as [|count IH]; intros offset sound_entries offset' H.
  - cbn in H. injection H as <- _. constructor.
  - cbn [parse_sounds] in H. bind_inv H. bind_inv H. injection H as <- _.
    constructor; [|eapply IH; eassumption].
    unfold parse_sound in E. bind_inv1 E. bind_inv1 E. injection E as <- _.
    cbn [filename]. eapply decoded_name. eassumption.
Qed.

Lemma parse_tracks_names buffer count : forall offset track_entries offset',
  parse_tracks buffer count offset = Ok (track_entries, offset') ->
  Forall (fun track => well_formed_name (name track)) track_entries.
Proof.
  induction count as [|count IH]; intros offset track_entries offset' H.
  - cbn in H. injection H as <- _. constructor.
  - cbn [parse_tracks] in H. bind_inv H. bind_inv H. injection H as <- _.
    constructor; [|eapply IH; eassumption].
    unfold parse_track in E. bind_inv1 E.
    destruct (negb (bytes_eqb (field a 0 4) EZTR)); [discriminate|].
    bind_inv1 E. bind_inv E. injection E as <- _.
    cbn [name]. eapply decoded_name. eassumption.
Qed.

(** Property X4.  The names of a parsed chart (sound file names and track
    names) come from 64-byte fields cut at the first zero byte: each has at
    most 64 characters and none is U+0000. *)
Theorem parse_plain_names (buffer : bytes) (ptfile : PTFile f32) :
  parse_plain buffer = Ok ptfile ->
  Forall (fun sound => well_formed_name (filename sound)) (sounds ptfile) /\
  Forall (fun track => well_formed_name (name track)) (tracks ptfile).
Proof.
  unfold parse_plain. intro H. bind_inv H. bind_inv H. bind_inv H.
  injection H as <-. cbn [sounds tracks]. split.
  - eapply parse_sounds_names. eassumption.
  - eapply parse_tracks_names. eassumption.
Qed.

Lemma parse_plain_names_witness :
  exists ptfile,
    parse_plain Sample.buffer = Ok ptfile /\
    Forall (fun sound => well_formed_name (filename sound)) (sounds ptfile) /\
    Forall (fun track => well_formed_name (name track)) (tracks ptfile).
Proof.
  destruct (parse_plain Sample.buffer) as [ptfile|e] eqn:H;
    [|vm_compute in H; discriminate].
  exists ptfile. split; [reflexivity|]. exact (parse_plain_names _ _ H).
Defined.

End DecoderReads.


(** ** Buttons, modes and the columns of the track area *)

(** Property X5.  The two button tables are inverse to each other: a button's
    track index maps back to the button, only the track indices 2 to 11 have
    a button, and every button track is a foreground (FG1) track. *)
Theorem button_track_round_trip :
  (forall button, get_button_type (get_track_index button) = Some button) /\
  (forall track_index button,
     get_button_type track_index = Some button ->
     get_track_index button = track_index) /\
  (forall track_index,
     get_button_type track_index = None <->
     (track_index < 2 \/ 11 < track_index)%nat) /\
  (forall button, get_track_type (get_track_index button) = FG1).
Proof.
  split; [|split; [|split]].
  - intros []; reflexivity.
  - intros track_index button.
    do 12 (destruct track_index as [|track_index];
           [cbn; intro H; first [discriminate H|injection H as <-; reflexivity]|]).
    discriminate.
  - intro track_index.
    do 12 (destruct track_index as [|track_index];
           [cbn; split; [try discriminate; lia|try reflexivity; lia]|]).
    cbn. split; [lia|reflexivity].
  - intros []; reflexivity.
Qed.

Lemma button_track_round_trip_witness :
  get_button_type 3 = Some BUTTON1 /\ get_track_index BUTTON1 = 3%nat.
Proof.
  destruct button_track_round_trip as (H1 & H2 & _).
  split; [exact (H1 BUTTON1)|exact (H2 3%nat BUTTON1 (H1 BUTTON1))].
Defined.







(** ** The round-robin picker *)

Lemma find_free_channel_next (self : GameTrackChannel.t) :
  (GameTrackChannel._channel_index self < GameTrackChannel._channels_len self)%nat ->
  GameTrackChannel.find_free_channel self
  = Ok (GameTrackChannel.mk (GameTrackChannel._channels self)
          (GameTrackChannel._volume self)
          ((GameTrackChannel._channel_index self + 1)
           mod GameTrackChannel._channels_len self)
          (GameTrackChannel.mixer_calls self),
        round_robin self 0).
Proof.
  intro Hi. unfold GameTrackChannel.find_free_channel, getitem, round_robin.
  unfold GameTrackChannel._channels_len in *.
  rewrite Nat.add_0_r, (Nat.mod_small _ _ Hi).
  destruct (nth_error (GameTrackChannel._channels self)
              (GameTrackChannel._channel_index self)) as [c|] eqn:E.
  2:{ apply nth_error_None in E. lia. }
  cbn [bind]. rewrite (nth_error_nth _ _ 0%nat E).
  do 2 f_equal. f_equal.
  destruct (Nat.leb_spec (length (GameTrackChannel._channels self))
              (GameTrackChannel._channel_index self + 1)) as [L|L].
  - replace (GameTrackChannel._channel_index self + 1)%nat
      with (length (GameTrackChannel._channels self)) by lia.
    rewrite Nat.sub_diag, Nat.Div0.mod_same. reflexivity.
  - rewrite Nat.mod_small by lia. reflexivity.
Qed.

Lemma play_sound_next (self : GameTrackChannel.t) sound sound_volume :
  (GameTrackChannel._channel_index self < GameTrackChannel._channels_len self)%nat ->
  exists self',
    GameTrackChannel.play_sound self sound sound_volume = Ok self' /\
    GameTrackChannel._channels self' = GameTrackChannel._channels self /\
    GameTrackChannel._volume self' = GameTrackChannel._volume self /\
    GameTrackChannel._channel_index self'
    = ((GameTrackChannel._channel_index self + 1)
       mod GameTrackChannel._channels_len self)%nat /\
    exists call,
      GameTrackChannel.mixer_calls self'
      = call :: GameTrackChannel.mixer_calls self /\
      GameTrackChannel.mixer_channel call = round_robin self 0 /\
      GameTrackChannel.mixer_sound call = sound.
Proof.
  intro Hi. unfold GameTrackChannel.play_sound.
  rewrite (find_free_channel_next self Hi). cbn [bind].
  eexists. split; [reflexivity|]. cbn.
  repeat split. eexists. repeat split.
Qed.

(** Property X7.  The channels of a track are used in turn: from any state
    whose index lies inside the channel list, every [play_sound] succeeds,
    the [k]-th sound goes to the channel [(index + k) mod n] places into the
    list, and the index ends [k] sounds further round the list.  On a track
    without channels [play_sound] raises [IndexError]. *)
Theorem play_sounds_round_robin (self : GameTrackChannel.t)
    (sounds : list (Sound * option SoundVolume)) :
  (GameTrackChannel._channels self = [] ->
   forall sound sound_volume,
     GameTrackChannel.play_sound self sound sound_volume = Err IndexError) /\
  ((GameTrackChannel._channel_index self < GameTrackChannel._channels_len self)%nat ->
   exists self',
     play_sounds sounds self = Ok self' /\
     GameTrackChannel._channels self' = GameTrackChannel._channels self /\
     GameTrackChannel._channel_index self'
     = ((GameTrackChannel._channel_index self + length sounds)
        mod GameTrackChannel._channels_len self)%nat /\
     map GameTrackChannel.mixer_channel (GameTrackChannel.mixer_calls self')
     = rev (map (round_robin self) (seq 0 (length sounds)))
       ++ map GameTrackChannel.mixer_channel (GameTrackChannel.mixer_calls self) /\
     map GameTrackChannel.mixer_sound (GameTrackChannel.mixer_calls self')
     = rev (map fst sounds)
       ++ map GameTrackChannel.mixer_sound (GameTrackChannel.mixer_calls self)).
Proof.
  split.
  - intros E sound sound_volume.
    unfold GameTrackChannel.play_sound, GameTrackChannel.find_free_channel, getitem.
    rewrite E. destruct (GameTrackChannel._channel_index self); reflexivity.
  - revert self. unfold play_sounds.
    induction sounds as [|[sound sound_volume] rest IH]; intros self Hi.
    + exists self. cbn. rewrite Nat.add_0_r, Nat.mod_small by exact Hi.
      repeat split.
    + cbn [for_each fst snd].
      destruct (play_sound_next self sound sound_volume Hi)
        as (self1 & -> & Hc & _ & Hx & call & Hm & Hmc & Hms).
      cbn [bind].
      assert (Hlen : GameTrackChannel._channels_len self1
                     = GameTrackChannel._channels_len self)
        by (unfold GameTrackChannel._channels_len; rewrite Hc; reflexivity).
      assert (Hi1 : (GameTrackChannel._channel_index self1
                     < GameTrackChannel._channels_len self1)%nat).
      { rewrite Hx, Hlen. apply Nat.mod_upper_bound. lia. }
      destruct (IH self1 Hi1) as (self' & -> & Hc' & Hx' & Hm' & Hs').
      exists self'. split; [reflexivity|].
      assert (Hrr : forall k, round_robin self1 k = round_robin self (S k)).
      { intro k. unfold round_robin. rewrite Hc, Hlen, Hx.
        rewrite Nat.Div0.add_mod_idemp_l. do 2 f_equal. lia. }
      split; [congruence|]. split; [|split].
      * rewrite Hx', Hx, Hlen. rewrite Nat.Div0.add_mod_idemp_l.
        cbn [length]. f_equal. lia.
      * rewrite Hm', Hm. cbn [length seq map rev].
        rewrite <- seq_shift, map_map, <- app_assoc. cbn [app].
        rewrite Hmc. f_equal.
        f_equal. apply map_ext. exact Hrr.
      * rewrite Hs', Hm. cbn [map rev fst]. rewrite <- app_assoc. cbn [app].
        rewrite Hms. reflexivity.
Qed.

Lemma play_sounds_round_robin_witness :
  exists self',
    play_sounds [(mkSound 1, None); (mkSound 2, None); (mkSound 3, None)]
      (GameTrackChannel.init [7; 8]%nat) = Ok self' /\
    map GameTrackChannel.mixer_channel (GameTrackChannel.mixer_calls self')
    = [7; 8; 7]%nat.
Proof.
  destruct (play_sounds_round_robin (GameTrackChannel.init [7; 8]%nat)
              [(mkSound 1, None); (mkSound 2, None); (mkSound 3, None)])
    as (_ & H).
  destruct H as (self' & H1 & _ & _ & H2 & _).
  - cbn. lia.
  - exists self'. split; [exact H1|]. rewrite H2. reflexivity.
Defined.


(** ** The volume of a note *)

Lemma QofN_nonneg n : 0 <= QofN n.
Proof.
  unfold QofN. change 0 with (inject_Z 0). rewrite <- Zle_Qle. lia.
Qed.

Lemma QofN_le a b : (a <= b)%N -> QofN a <= QofN b.
Proof. intro H. unfold QofN. rewrite <- Zle_Qle. lia. Qed.

Lemma QofN_lt a b : (a < b)%N -> QofN a < QofN b.
Proof. intro H. unfold QofN. rewrite <- Zlt_Qlt. lia. Qed.

Lemma truediv_const a (b : Q) : ~ b == 0 -> truediv a b = Ok (a / b).
Proof. apply truediv_ok. Qed.

(** Property X8.  The volume that a GENERAL note is played at: with the pan at
    64 the note volume over 127; otherwise a left/right pair, always
    computed without error, in which the louder side is exactly the note
    volume over 127 (the left side for a pan below 64, the right side for a
    pan above) and the other side is not louder.  The quieter side is
    non-negative for a pan up to 127 and negative for a pan above 127 on a
    note of positive volume. *)
Theorem note_sound_volume_sides (volume pan : N) :
  let v := QofN volume / 127 in
  (pan = 64%N -> GameNote.note_sound_volume volume pan = Ok (VolumeFloat v)) /\
  (pan <> 64%N ->
   exists l r,
     GameNote.note_sound_volume volume pan = Ok (VolumeTuple l r) /\
     l <= v /\ r <= v /\
     ((pan < 64)%N -> l == v /\ 0 <= r) /\
     ((64 < pan)%N -> r == v) /\
     ((64 < pan <= 127)%N -> 0 <= l) /\
     ((127 < pan)%N -> (0 < volume)%N -> l < 0)).
Proof.
  intro v. unfold GameNote.note_sound_volume.
  rewrite (truediv_ok (QofN volume) 127) by (intro H; discriminate H).
  cbn [bind]. fold v.
  assert (Hv : 0 <= v).
  { unfold v. apply Qle_shift_div_l; [reflexivity|]. rewrite Qmult_0_l.
    apply QofN_nonneg. }
  split.
  - intros ->. reflexivity.
  - intro Hp. destruct (N.eqb_spec pan 64) as [|_]; [contradiction|].
    rewrite (truediv_ok (QofN pan) 127) by (intro H; discriminate H).
    cbn [bind].
    set (right := QofN pan / 127).
    assert (Hr : 0 <= right).
    { unfold right. apply Qle_shift_div_l; [reflexivity|]. rewrite Qmult_0_l.
      apply QofN_nonneg. }
    assert (E127 : right * 127 == QofN pan).
    { unfold right. field. }
    destruct (Qltb (1 - right) right) eqn:L.
    + (* the right side is the louder one: 64 < pan *)
      apply Qltb_true_iff in L.
      assert (Hr0 : ~ right == 0) by lra.
      rewrite !truediv_ok by exact Hr0. cbn [bind].
      eexists. eexists. split; [reflexivity|].
      assert (Hpan : (64 < pan)%N).
      { apply N.lt_nge. intro Hle.
        assert (Hle' : (pan <= 63)%N) by lia.
        apply QofN_le in Hle'. change (QofN 63) with 63 in Hle'. lra. }
      assert (R1 : right / right == 1) by (field; exact Hr0).
      assert (Q1 : (1 - right) / right <= 1).
      { apply Qle_shift_div_r; lra. }
      split; [|split; [|split; [|split; [|split]]]].
      * setoid_replace v with (1 * v) at 2 by ring.
        apply Qmult_le_compat_r; assumption.
      * rewrite R1. lra.
      * intro. lia.
      * intros _. rewrite R1. ring.
      * intros [_ Hle]. apply QofN_le in Hle. change (QofN 127) with 127 in Hle.
        apply Qmult_le_0_compat; [|exact Hv].
        apply Qle_shift_div_l; lra.
      * intros Hgt Hvol. apply QofN_lt in Hgt, Hvol.
        change (QofN 127) with 127 in Hgt. change (QofN 0) with 0 in Hvol.
        assert (Hv' : 0 < v).
        { unfold v. apply Qlt_shift_div_l; [reflexivity|]. lra. }
        assert (Q2 : (1 - right) / right < 0).
        { apply Qlt_shift_div_r; lra. }
        setoid_replace 0 with (0 * v) by ring.
        apply Qmult_lt_compat_r; assumption.
    + (* the left side is the louder one: pan < 64 *)
      apply Qltb_false_iff in L.
      assert (Hl0 : ~ 1 - right == 0) by lra.
      rewrite !truediv_ok by exact Hl0. cbn [bind].
      eexists. eexists. split; [reflexivity|].
      assert (Hpan : (pan < 64)%N).
      { apply N.lt_nge. intro Hle.
        assert (Hle' : (65 <= pan)%N) by lia.
        apply QofN_le in Hle'. change (QofN 65) with 65 in Hle'. lra. }
      assert (L1 : (1 - right) / (1 - right) == 1) by (field; exact Hl0).
      assert (Q1 : right / (1 - right) <= 1).
      { apply Qle_shift_div_r; lra. }
      assert (Q0 : 0 <= right / (1 - right)).
      { apply Qle_shift_div_l; lra. }
      split; [|split; [|split; [|split; [|split]]]].
      * rewrite L1. lra.
      * setoid_replace v with (1 * v) at 2 by ring.
        apply Qmult_le_compat_r; assumption.
      * intros _. split; [rewrite L1; ring|].
        apply Qmult_le_0_compat; assumption.
      * intro. lia.
      * intro. lia.
      * intro. lia.
Qed.

Lemma note_sound_volume_sides_witness :
  exists l r,
    GameNote.note_sound_volume 127 0 = Ok (VolumeTuple l r) /\ l == 1 /\ 0 <= r.
Proof.
  destruct (note_sound_volume_sides 127 0) as (_ & H).
  destruct H as (l & r & H & _ & _ & Hl & _); [discriminate|].
  exists l, r. split; [exact H|]. destruct Hl as [Hl Hr]; [reflexivity|].
  split; [rewrite Hl; reflexivity|exact Hr].
Defined.


(** ** Loading the notes of a chart *)

Lemma note_sound_volume_total volume pan :
  exists sound_volume, GameNote.note_sound_volume volume pan = Ok sound_volume.
Proof.
  unfold GameNote.note_sound_volume.
  rewrite (truediv_ok (QofN volume) 127) by (intro H; discriminate H).
  cbn [bind]. destruct (pan =? 64)%N; [eauto|].
  rewrite (truediv_ok (QofN pan) 127) by (intro H; discriminate H).
  cbn [bind].
  destruct (Qltb (1 - QofN pan / 127) (QofN pan / 127)) eqn:L.
  - apply Qltb_true_iff in L.
    rewrite !truediv_ok by lra. cbn [bind]. eauto.
  - apply Qltb_false_iff in L.
    rewrite !truediv_ok by lra. cbn [bind]. eauto.
Qed.

Lemma GameTrackType_eqb_eq a b : GameTrackType_eqb a b = true <-> a = b.
Proof. destruct a, b; cbn; split; congruence. Qed.

(** The outcome of [GameNote.__init__]. *)
Lemma GameNote_init_outcome note track_type sound_table :
  (note_loads sound_table track_type note ->
   exists n, GameNote.init note track_type sound_table = Ok n /\
     GameNote._note n = note /\ GameNote._track_type n = track_type) /\
  (forall n, GameNote.init note track_type sound_table = Ok n ->
     note_loads sound_table track_type note).
Proof.
  unfold GameNote.init, note_loads.
  destruct (params note) as [sound_index volume pan attribute duration| | |];
    try (split; [eauto|tauto]).
  destruct (get_sound_by_index sound_table sound_index) as [sound|e]; cbn [bind].
  2:{ split; [intros [[s Hs] _]; discriminate|discriminate]. }
  destruct (note_sound_volume_total volume pan) as (sv & ->). cbn [bind].
  destruct (GameTrackType_eqb track_type MR) eqn:T; cbn [andb].
  - apply GameTrackType_eqb_eq in T.
    destruct (N.eqb_spec pan 64) as [P|P]; cbn [negb].
    + split; [eauto|]. intros _ _. split; [eauto|auto].
    + split; [|discriminate]. intros [_ H]. elim P. auto.
  - split; [eauto|]. intros _ _. split; [eauto|].
    intros ->. discriminate.
Qed.

Lemma init_notes_loads notes track_type sound_table ns :
  GameTrack.init_notes notes track_type sound_table = Ok ns ->
  Forall (note_loads sound_table track_type) notes.
Proof.
  revert ns. induction notes as [|note rest IH]; intros ns H; [constructor|].
  cbn [GameTrack.init_notes] in H. inv_bind H. inv_bind H.
  constructor; [|eapply IH; eassumption].
  eapply GameNote_init_outcome. eassumption.
Qed.

Lemma init_tracks_loads effective sound_table game_tracks :
  GameSequencePlayer.init_tracks effective sound_table = Ok game_tracks ->
  Forall (fun entry =>
            Forall (note_loads sound_table (get_track_type (fst entry)))
              (notes (snd entry)))
    effective.
Proof.
  revert game_tracks.
  induction effective as [|[i track] rest IH]; intros gts H; [constructor|].
  cbn [GameSequencePlayer.init_tracks] in H. inv_bind H. inv_bind H.
  constructor; [|eapply IH; eassumption].
  cbn [fst snd]. unfold GameTrack.init in Hx. inv_bind Hx.
  eapply init_notes_loads. eassumption.
Qed.

Lemma effective_tracks_from_In i (tracks : list (PTFileTrack Q)) k track :
  nth_error tracks k = Some track -> notes track <> [] ->
  In ((i + k)%nat, track) (effective_tracks_from i tracks).
Proof.
  revert i k. induction tracks as [|t rest IH]; intros i k Hk Hn.
  - destruct k; discriminate.
  - destruct k as [|k]; cbn in Hk.
    + injection Hk as ->. cbn. destruct (notes track); [congruence|].
      left. f_equal. lia.
    + cbn. replace (i + S k)%nat with (S i + k)%nat by lia.
      destruct (notes t); [|right]; apply IH; assumption.
Qed.

(** Property X9.  A chart loads only if every GENERAL note refers to a sound of
    the sound table, and every GENERAL note of track 22 (the background
    music) has the pan 64: a missing sound raises [KeyError] and another pan
    there fails an [assert] while the notes are built. *)
Theorem open_ptfile_notes_load
    (cfg : GameSequencePlayer.settings) (ptfile : PTFile Q)
    (sound_table : GameSoundTable) (sp : GameSequencePlayer.t) :
  GameSequencePlayer.open_ptfile cfg ptfile sound_table = Ok sp ->
  forall track_index track note sound_index volume pan attribute duration,
    nth_error (tracks ptfile) track_index = Some track ->
    In note (notes track) ->
    params note = PTFileGeneralNoteParams sound_index volume pan attribute duration ->
    (exists sound, get_sound_by_index sound_table sound_index = Ok sound) /\
    (track_index = 22%nat -> pan = 64%N).
Proof.
  intros H track_index track note sound_index volume pan attribute duration
    Ht Hin Hp.
  unfold GameSequencePlayer.open_ptfile in H. inv_bind H. clear H.
  apply init_tracks_loads in Hx. rewrite Forall_forall in Hx.
  assert (Hn : notes track <> []) by (intro E; rewrite E in Hin; contradiction).
  specialize (Hx _ (effective_tracks_from_In 0 _ _ _ Ht Hn)).
  cbn [fst snd Nat.add] in Hx. rewrite Forall_forall in Hx.
  specialize (Hx note Hin). unfold note_loads in Hx. rewrite Hp in Hx.
  destruct Hx as [Hs Hm]. split; [exact Hs|].
  intros ->. apply Hm. reflexivity.
Qed.

Lemma open_ptfile_notes_load_witness :
  exists sound, get_sound_by_index Sample.sound_table 1 = Ok sound.
Proof.
  destruct (GameSequencePlayer.open_ptfile GameSequencePlayer.default_settings
              Sample.chart Sample.sound_table) as [sp|e] eqn:H;
    [|vm_compute in H; discriminate].
  apply (open_ptfile_notes_load _ _ _ _ H 3%nat Sample.key_track
           (mkPTFileNote 0 (PTFileGeneralNoteParams 1 127 64 0 4)) 1 127 64 0 4%N).
  - reflexivity.
  - left. reflexivity.
  - reflexivity.
Defined.

(** ** Judgments and the end of the timeline *)

Lemma getitem_Ok_iff {A} (l : list A) i :
  (exists a, getitem l i = Ok a) <-> (i < length l)%nat.
Proof.
  unfold getitem. destruct (nth_error l i) eqn:E.
  - split; [intros _; apply nth_error_Some; congruence|eauto].
  - apply nth_error_None in E. split; [intros [a Ha]; discriminate|lia].
Qed.

Lemma getitem_Err_iff {A} (l : list A) i e :
  getitem l i = Err e <-> e = IndexError /\ (length l <= i)%nat.
Proof.
  unfold getitem. destruct (nth_error l i) eqn:E.
  - assert (i < length l)%nat by (apply nth_error_Some; congruence).
    split; [discriminate|lia].
  - apply nth_error_None in E. split; [intros [= <-]; auto|intros [-> _]; reflexivity].
Qed.

Lemma is_long_params note :
  GameNote.is_long note = true ->
  exists sound_index volume pan attribute duration,
    params (GameNote._note note)
    = PTFileGeneralNoteParams sound_index volume pan attribute duration /\
    (6 < duration)%N.
Proof.
  unfold GameNote.is_long.
  destruct (params (GameNote._note note)) as [s v p a d| | |]; try discriminate.
  intro H. apply N.ltb_lt in H. eauto 10.
Qed.

(** Property X10.  The judgments look the note up in the played-milliseconds
    table and fail exactly when it lies outside: a key-down raises
    [IndexError] if and only if the position of the note is not a tick of
    the table, and raises nothing else, and so does the per-frame test of a
    note that is not held; a key-up on a long note that is being held raises
    [IndexError] if and only if its end position (position plus duration) is
    not a tick of the table; on any other note a key-up changes nothing and
    returns the stored result. *)
Theorem judgment_index_errors (note : GameNote.t) (current_millis : Q) :
  let table := GameNote._played_millis_per_tick note in
  (forall e, GameNote.start_play note current_millis = Err e <->
             e = IndexError /\
             (length table <= N.to_nat (GameNote.get_position note))%nat) /\
  (GameNote._is_playing note = false ->
   forall e, GameNote.should_fail_to_play note current_millis = Err e <->
             e = IndexError /\
             (length table <= N.to_nat (GameNote.get_position note))%nat) /\
  (GameNote.is_long note && GameNote._is_playing note = false ->
   GameNote.finish_play note current_millis
   = Ok (note, GameNote._play_result note)) /\
  (GameNote.is_long note && GameNote._is_playing note = true ->
   exists end_position,
     GameNote.get_end_position note = Ok end_position /\
     forall e, GameNote.finish_play note current_millis = Err e <->
               e = IndexError /\ (length table <= N.to_nat end_position)%nat).
Proof.
  intro table. split; [|split; [|split]].
  - intro e. unfold GameNote.start_play, GameNote.get_position_millis.
    destruct (getitem (GameNote._played_millis_per_tick note)
                (N.to_nat (GameNote.get_position note))) as [p|e0] eqn:G.
    + cbn [bind].
      assert (Hlt : (N.to_nat (GameNote.get_position note) < length table)%nat).
      { apply getitem_Ok_iff. eauto. }
      split; [|lia].
      destruct (Qltb (3 * GameNote._unit_judge_millis note) (p - current_millis));
        [discriminate|].
      match goal with
      | |- (if GameNote.is_short ?n then _ else _) = _ -> _ =>
          destruct (GameNote.is_short n);
          [|destruct (GameNote.is_long n); discriminate]
      end.
      unfold GameNote.with_play_status, GameNote.get_position.
      cbn [GameNote._played_millis_per_tick GameNote._note].
      fold (GameNote.get_position note). rewrite G. discriminate.
    + cbn [bind]. rewrite <- (getitem_Err_iff table _ e).
      fold table in G. rewrite G. split; congruence.
  - intros Hp e. unfold GameNote.should_fail_to_play, GameNote.is_too_late_to_start.
    rewrite Hp. unfold GameNote.get_position_millis.
    destruct (getitem (GameNote._played_millis_per_tick note)
                (N.to_nat (GameNote.get_position note))) as [p|e0] eqn:G.
    + cbn [bind].
      assert (Hlt : (N.to_nat (GameNote.get_position note) < length table)%nat).
      { apply getitem_Ok_iff. eauto. }
      split; [|lia].
      destruct (Qltb _ _); discriminate.
    + cbn [bind]. rewrite <- (getitem_Err_iff table _ e).
      fold table in G. rewrite G. split; congruence.
  - intro H. unfold GameNote.finish_play. rewrite H. reflexivity.
  - intro H. apply andb_true_iff in H. destruct H as [Hl Hp].
    destruct (is_long_params note Hl) as (s & v & p & a & d & Ep & Hd).
    exists (GameNote.get_position note + d)%N.
    assert (Eend : GameNote.get_end_position note
                   = Ok (GameNote.get_position note + d)%N).
    { unfold GameNote.get_end_position, GameNote.get_duration. rewrite Ep.
      reflexivity. }
    split; [exact Eend|].
    intro e. unfold GameNote.finish_play. rewrite Hl, Hp. cbn [andb].
    unfold GameNote.is_too_early_to_finish, GameNote.get_end_position_millis.
    unfold GameNote.get_end_position, GameNote.get_duration, GameNote.get_position,
      GameNote.with_play_status.
    cbn [GameNote._played_millis_per_tick GameNote._note]. rewrite Ep.
    cbn [bind]. fold table.
    destruct (getitem table (N.to_nat (position (GameNote._note note) + d)))
      as [q|e0] eqn:G.
    + cbn [bind].
      assert (Hlt : (N.to_nat (position (GameNote._note note) + d)
                     < length table)%nat).
      { apply getitem_Ok_iff. eauto. }
      split; [|unfold GameNote.get_position; lia].
      destruct (Qltb _ _); discriminate.
    + cbn [bind]. unfold GameNote.get_position.
      rewrite <- (getitem_Err_iff table _ e). rewrite G. split; congruence.
Qed.

Lemma judgment_index_errors_witness :
  GameNote.finish_play Sample.short_note 150
  = Ok (Sample.short_note, GameNote._play_result Sample.short_note).
Proof.
  destruct (judgment_index_errors Sample.short_note 150) as (_ & _ & H & _).
  apply H. reflexivity.
Defined.


(** ** The score aggregator over a whole play *)

Lemma for_each_app {A S} (body : S -> A -> result S) (a b : list A) (s : S) :
  for_each (a ++ b) body s = let* s := for_each a body s in for_each b body s.
Proof.
  revert s. induction a as [|x a IH]; intro s; [reflexivity|].
  cbn [app for_each]. destruct (body s x); cbn [bind]; [apply IH|reflexivity].
Qed.

Lemma on_play_result_step (self : GamePatternPlayer.t)
    (play_result : GameNotePlayResult) (grade : GameNotePlayResultType) :
  result_type play_result = Some grade ->
  let count := GamePatternPlayer._play_result_count self in
  GamePatternPlayer.on_play_result self play_result
  = Ok (GamePatternPlayer.mk (GamePatternPlayer._unit_judge_millis self)
          (S count)
          (if GameNotePlayResultType_eqb grade BREAK then 0%nat
           else S (GamePatternPlayer._combo_count self))
          (GamePatternPlayer._average_accuracy self * QofNat count
           / QofNat (S count)
           + GameNotePlayResultType_value grade / QofNat (S count))
          (dict_set (GamePatternPlayer._result_type_counts self)
             (result_type_key grade)
             (S (dict_get_default (GamePatternPlayer._result_type_counts self)
                   (result_type_key grade))))).
Proof.
  intros Hrt count. unfold GamePatternPlayer.on_play_result. rewrite Hrt.
  fold count.
  replace (count + 1)%nat with (S count) by lia.
  replace (S count - 1)%nat with count by lia.
  rewrite !truediv_ok by apply QofNat_S_nonzero.
  cbn [bind]. do 2 f_equal.
  - destruct (GameNotePlayResultType_eqb grade BREAK); [reflexivity|lia].
  - f_equal. lia.
Qed.



Lemma QofNat_plus a b : QofNat (a + b) == QofNat a + QofNat b.
Proof.
  unfold QofNat. rewrite Nat2Z.inj_add, inject_Z_plus. reflexivity.
Qed.





Lemma dict_set_keys_present {V} (dct : list (nat * V)) key v :
  In key (dict_keys dct) -> dict_keys (dict_set dct key v) = dict_keys dct.
Proof.
  induction dct as [|[k w] rest IH]; cbn; [contradiction|].
  destruct (Nat.eqb_spec k key) as [->|Hne]; [reflexivity|].
  intros [E|Hin]; [congruence|]. cbn. f_equal. apply IH. exact Hin.
Qed.

Lemma result_type_key_inj a b : result_type_key a = result_type_key b -> a = b.
Proof. destruct a, b; cbn; congruence. Qed.

Lemma GameNotePlayResultType_eqb_eq a b :
  GameNotePlayResultType_eqb a b = true <-> a = b.
Proof. destruct a, b; cbn; split; congruence. Qed.

(** Property X12.  After a reset, any sequence of graded results leaves the
    aggregator with a result count equal to the number of results, the
    counter of every grade equal to the number of results of that grade
    (the table keeps its four keys in the order MAX100, MAX90, MAX1, BREAK),
    and a combo equal to the number of results after the last BREAK. *)
Theorem play_stats_after_reset
    (self : GamePatternPlayer.t) (results : list GameNotePlayResult) :
  all_graded results ->
  exists self',
    feed results (GamePatternPlayer.reset_play_stats self) = Ok self' /\
    GamePatternPlayer._play_result_count self' = length results /\
    dict_keys (GamePatternPlayer._result_type_counts self')
    = [100; 90; 1; 0]%nat /\
    (forall grade,
       dict_get_default (GamePatternPlayer._result_type_counts self')
         (result_type_key grade)
       = length (filter (has_grade grade) results)) /\
    exists before after,
      results = before ++ after /\
      Forall (fun r => has_grade BREAK r = false) after /\
      (before = [] \/
       exists earlier r, before = earlier ++ [r] /\ has_grade BREAK r = true) /\
      GamePatternPlayer._combo_count self' = length after.
Proof.
  induction results as [|r results IH] using rev_ind; intro Hg.
  - eexists. split; [reflexivity|]. cbn. split; [reflexivity|].
    split; [reflexivity|]. split; [intros []; reflexivity|].
    exists [], []. cbn. repeat split; auto.
  - unfold all_graded in Hg. apply Forall_app in Hg. destruct Hg as [Hg Hr].
    destruct (IH Hg) as (self1 & Hf & Hc & Hk & Hn & before & after & Hs & Ha & Hb & Hcombo).
    apply Forall_inv in Hr.
    destruct (result_type r) as [grade|] eqn:Hrt; [clear Hr|congruence].
    unfold feed in *. rewrite for_each_app, Hf. cbn [bind for_each].
    rewrite (on_play_result_step self1 r grade Hrt). cbn [bind].
    eexists. split; [reflexivity|].
    cbn [GamePatternPlayer._play_result_count
         GamePatternPlayer._result_type_counts GamePatternPlayer._combo_count].
    split; [rewrite length_app; cbn; lia|].
    split.
    { rewrite dict_set_keys_present; [exact Hk|].
      rewrite Hk. destruct grade; cbn; tauto. }
    split.
    { intro g. rewrite filter_app, length_app. cbn [filter].
      unfold has_grade at 2. rewrite Hrt.
      unfold dict_get_default at 1.
      destruct (GameNotePlayResultType_eqb grade g) eqn:E.
      - apply GameNotePlayResultType_eqb_eq in E. subst g.
        rewrite dict_get_set_same. rewrite Hn. cbn. lia.
      - rewrite dict_get_set_other.
        + fold (dict_get_default (GamePatternPlayer._result_type_counts self1)
                  (result_type_key g)).
          rewrite Hn. cbn. lia.
        + intro K. apply result_type_key_inj in K. subst g.
          destruct grade; discriminate. }
    destruct (GameNotePlayResultType_eqb grade BREAK) eqn:B.
    + exists (results ++ [r]), []. rewrite app_nil_r.
      split; [reflexivity|]. split; [constructor|].
      split; [|reflexivity]. right. exists results, r.
      split; [reflexivity|]. unfold has_grade. rewrite Hrt. exact B.
    + exists before, (after ++ [r]).
      split; [rewrite Hs, app_assoc; reflexivity|].
      split; [apply Forall_app; split; [exact Ha|]|].
      { constructor; [|constructor]. unfold has_grade. rewrite Hrt. exact B. }
      split; [exact Hb|]. rewrite length_app, Hcombo. cbn. lia.
Qed.

Lemma play_stats_after_reset_witness :
  exists self',
    feed [mkGameNotePlayResult (Some MAX100) None None;
          mkGameNotePlayResult (Some BREAK) None (Some TOO_LATE_TO_START);
          mkGameNotePlayResult (Some MAX90) None None]
      (GamePatternPlayer.reset_play_stats GamePatternPlayer.init)
    = Ok self' /\
    GamePatternPlayer._play_result_count self' = 3%nat /\
    dict_get_default (GamePatternPlayer._result_type_counts self')
      (result_type_key BREAK) = 1%nat.
Proof.
  destruct (play_stats_after_reset GamePatternPlayer.init
              [mkGameNotePlayResult (Some MAX100) None None;
               mkGameNotePlayResult (Some BREAK) None (Some TOO_LATE_TO_START);
               mkGameNotePlayResult (Some MAX90) None None])
    as (self' & Hf & Hc & _ & Hn & _).
  - repeat constructor; discriminate.
  - exists self'. split; [exact Hf|]. split; [exact Hc|].
    rewrite Hn. reflexivity.
Defined.


(** ** The clock of the sequence player *)







(** ** The replay of a seek against the timeline of the load *)

Lemma replay_drain_chart tpm cursor_tick rest : forall rest' acc,
  map GameNote._note rest = map GameNote._note rest' ->
  GameSequencePlayer.replay_drain tpm cursor_tick rest acc
  = GameSequencePlayer.replay_drain tpm cursor_tick rest' acc.
Proof.
  induction rest as [|note rest IH]; intros [|note' rest'] acc H;
    try discriminate; [reflexivity|].
  cbn [map] in H. injection H as Hn Hr.
  cbn [GameSequencePlayer.replay_drain]. unfold GameNote.get_position.
  rewrite Hn. destruct (position (GameNote._note note') <=? cursor_tick)%N;
    [|reflexivity].
  destruct (match params (GameNote._note note') with
            | PTFileBPMChangeNoteParams tempo =>
                let* tick_interval_millis := tick_interval_of tpm tempo in
                Ok (tempo, tick_interval_millis)
            | _ => Ok acc
            end) as [acc1|e]; cbn [bind]; [|reflexivity].
  rewrite (IH rest' acc1 Hr). reflexivity.
Qed.

Lemma drain_replay tpm cursor_tick track_index rest : forall s k s',
  Timeline.drain tpm cursor_tick track_index rest s = Ok (k, s') ->
  GameSequencePlayer.replay_drain tpm cursor_tick rest
    (Timeline.tempo s, Timeline.tick_interval_millis s)
  = Ok (k, (Timeline.tempo s', Timeline.tick_interval_millis s')) /\
  Timeline.played_millis s' = Timeline.played_millis s.
Proof.
  induction rest as [|note rest IH]; intros s k s' H.
  - cbn in H. injection H as <- <-. split; reflexivity.
  - cbn [Timeline.drain] in H. cbn [GameSequencePlayer.replay_drain].
    destruct (GameNote.get_position note <=? cursor_tick)%N.
    2:{ injection H as <- <-. split; reflexivity. }
    inv_bind H. inv_bind H. inv_bind H. destruct x1 as [k1 s3].
    injection H as <- <-.
    unfold GameNote.is_general, GameNote.is_bpm_change, command_type in Hx, Hx0.
    destruct (params (GameNote._note note)) as [si v p a d|v|tempo|beat] eqn:Ep;
      cbn [get_command_type] in Hx, Hx0.
    + (* GENERAL *)
      injection Hx0 as <-.
      unfold Timeline.on_general in Hx. inv_bind Hx. injection Hx as <-.
      cbn [bind]. apply IH in Hx1. cbn in Hx1. destruct Hx1 as [-> ->].
      split; reflexivity.
    + injection Hx as <-. injection Hx0 as <-. cbn [bind].
      apply IH in Hx1. destruct Hx1 as [-> ->]. split; reflexivity.
    + (* BPM *)
      injection Hx as <-.
      unfold Timeline.on_bpm_change in Hx0. rewrite Ep in Hx0.
      inv_bind Hx0. injection Hx0 as <-. rewrite Hx. cbn [bind].
      apply IH in Hx1. cbn in Hx1. destruct Hx1 as [-> ->].
      split; reflexivity.
    + injection Hx as <-. injection Hx0 as <-. cbn [bind].
      apply IH in Hx1. destruct Hx1 as [-> ->]. split; reflexivity.
Qed.

Lemma replay_tick_unfold tpm tracks tempo played interval cursor_tick :
  GameSequencePlayer.replay_tick tpm (tracks, (tempo, played, interval)) cursor_tick
  = let* (game_tracks_dict, tempo_interval) :=
      for_each tracks (replay_track tpm cursor_tick) ([], (tempo, interval)) in
    Ok (game_tracks_dict,
        (fst tempo_interval, played + interval, snd tempo_interval)).
Proof. reflexivity. Qed.

Lemma skipn_map {A B} (f : A -> B) n (l : list A) :
  skipn n (map f l) = map f (skipn n l).
Proof.
  revert l. induction n as [|n IH]; intros [|x l]; cbn; auto.
Qed.

Lemma sweep_replay tpm cursor_tick tT : forall tR doneT doneR s doneT' s',
  for_each tT (Timeline.sweep_track tpm (N.of_nat cursor_tick)) (doneT, s)
  = Ok (doneT', s') ->
  replays tT tR -> replays doneT doneR ->
  exists doneR',
    for_each tR (replay_track tpm cursor_tick)
      (doneR, (Timeline.tempo s, Timeline.tick_interval_millis s))
    = Ok (doneR', (Timeline.tempo s', Timeline.tick_interval_millis s')) /\
    replays doneT' doneR' /\
    Timeline.played_millis s' = Timeline.played_millis s.
Proof.
  induction tT as [|[i track] tT IH]; intros tR doneT doneR s doneT' s' H Ht Hd.
  - inversion Ht; subst. cbn in H. injection H as <- <-.
    exists doneR. cbn. auto.
  - inversion Ht as [|a [j track'] tT0 tR0 Hab Hrest]; subst.
    cbn [fst snd] in Hab. destruct Hab as (<- & Hc & Hi).
    cbn [for_each] in H. inv_bind H. destruct x as [done1 s1].
    unfold Timeline.sweep_track in Hx. inv_bind Hx. destruct x as [k s2].
    injection Hx as <- <-.
    apply drain_replay in Hx0. destruct Hx0 as [Hr Hp].
    cbn [for_each]. unfold replay_track at 1. cbn [fst snd].
    rewrite <- Hi.
    rewrite (replay_drain_chart tpm (N.of_nat cursor_tick)
               (skipn (GameTrack.get_index track) (GameTrack._notes track'))
               (skipn (GameTrack.get_index track) (GameTrack._notes track))).
    2:{ rewrite <- !skipn_map. unfold chart_notes in Hc. rewrite Hc. reflexivity. }
    rewrite Hr. cbn [bind].
    destruct (IH tR0 _ (doneR ++ [(i, GameTrack.set_index track'
                                        (GameTrack.get_index track + k))])
                _ _ _ H Hrest) as (doneR' & Hf & Hrel & Hp').
    { apply Forall2_app; [exact Hd|]. constructor; [|constructor].
      cbn. auto. }
    exists doneR'. split; [exact Hf|]. split; [exact Hrel|]. congruence.
Qed.

Lemma tick_replay tpm tT tR s cursor_tick tT' s' :
  Timeline.tick tpm (tT, s) cursor_tick = Ok (tT', s') ->
  replays tT tR ->
  exists tR',
    GameSequencePlayer.replay_tick tpm (tR, locals s) cursor_tick
    = Ok (tR', locals s') /\
    replays tT' tR'.
Proof.
  intros H Hrel. unfold Timeline.tick in H. inv_bind H.
  destruct x as [tracks1 s1]. injection H as <- <-.
  destruct (sweep_replay _ _ _ tR [] [] _ _ _ Hx Hrel (Forall2_nil _))
    as (tR' & Hf & Hrel' & Hp).
  cbn [Timeline.tempo Timeline.tick_interval_millis Timeline.played_millis]
    in Hf, Hp.
  exists tR'. split; [|exact Hrel'].
  unfold locals. rewrite replay_tick_unfold, Hf. cbn [bind fst snd].
  cbn [Timeline.tempo Timeline.tick_interval_millis Timeline.played_millis].
  rewrite Hp. reflexivity.
Qed.

Lemma ticks_replay tpm ticks : forall tT tR s tT' s',
  for_each ticks (Timeline.tick tpm) (tT, s) = Ok (tT', s') ->
  replays tT tR ->
  exists tR',
    for_each ticks (GameSequencePlayer.replay_tick tpm) (tR, locals s)
    = Ok (tR', locals s') /\
    replays tT' tR'.
Proof.
  induction ticks as [|c ticks IH]; intros tT tR s tT' s' H Hrel.
  - cbn in H. injection H as <- <-. exists tR. cbn. auto.
  - cbn [for_each] in H. inv_bind H. destruct x as [tT1 s1].
    destruct (tick_replay _ _ _ _ _ _ _ Hx Hrel) as (tR1 & Hf & Hrel1).
    cbn [for_each]. rewrite Hf. cbn [bind]. eapply IH; eassumption.
Qed.

(** *** What a tick records *)

Lemma tick_records tpm tT s cursor_tick tT' s' :
  Timeline.tick tpm (tT, s) cursor_tick = Ok (tT', s') ->
  Timeline._tempos_per_tick s'
  = Timeline._tempos_per_tick s ++ [Timeline.tempo s'] /\
  Timeline._played_millis_per_tick s'
  = Timeline._played_millis_per_tick s ++ [Timeline.played_millis s'] /\
  Timeline._tick_interval_millis_per_tick s'
  = Timeline._tick_interval_millis_per_tick s
    ++ [Timeline.tick_interval_millis s'].
Proof.
  intro H. unfold Timeline.tick in H. inv_bind H. destruct x as [tracks1 s1].
  injection H as _ <-.
  apply sweep_tracks_effect in Hx. unfold notes_effect in Hx. cbn in Hx.
  destruct Hx as (E1 & E2 & E3 & _). cbn. rewrite E1, E2, E3. auto.
Qed.

Lemma nth_snoc {A} (l : list A) (x d : A) : nth (length l) (l ++ [x]) d = x.
Proof. rewrite app_nth2 by lia. rewrite Nat.sub_diag. reflexivity. Qed.

Lemma ticks_recorded tpm ticks : forall n tT s tT' s',
  recorded n s ->
  for_each ticks (Timeline.tick tpm) (tT, s) = Ok (tT', s') ->
  recorded (n + length ticks) s'.
Proof.
  induction ticks as [|c ticks IH]; intros n tT s tT' s' R H.
  - cbn in H. injection H as _ <-. rewrite Nat.add_0_r. exact R.
  - cbn [for_each] in H. inv_bind H. destruct x as [tT1 s1].
    cbn [length]. rewrite Nat.add_succ_r.
    apply (IH (S n) tT1 s1 tT' s'); [|exact H].
    apply tick_records in Hx. destruct Hx as (E1 & E2 & E3).
    destruct R as (L1 & L2 & L3 & _).
    unfold recorded. rewrite E1, E2, E3, !length_app, L1, L2, L3. cbn [length].
    repeat split; try lia.
    + rewrite <- L1 at 1. apply nth_snoc.
    + rewrite <- L2 at 1. apply nth_snoc.
    + rewrite <- L3 at 1. apply nth_snoc.
Qed.

Lemma ticks_extend tpm ticks : forall tT s tT' s',
  for_each ticks (Timeline.tick tpm) (tT, s) = Ok (tT', s') ->
  forall m d,
    (m < length (Timeline._tempos_per_tick s) ->
     nth m (Timeline._tempos_per_tick s') d
     = nth m (Timeline._tempos_per_tick s) d)%nat /\
    (m < length (Timeline._played_millis_per_tick s) ->
     nth m (Timeline._played_millis_per_tick s') d
     = nth m (Timeline._played_millis_per_tick s) d)%nat /\
    (m < length (Timeline._tick_interval_millis_per_tick s) ->
     nth m (Timeline._tick_interval_millis_per_tick s') d
     = nth m (Timeline._tick_interval_millis_per_tick s) d)%nat.
Proof.
  induction ticks as [|c ticks IH]; intros tT s tT' s' H m d.
  - cbn in H. injection H as _ <-. auto.
  - cbn [for_each] in H. inv_bind H. destruct x as [tT1 s1].
    destruct (IH _ _ _ _ H m d) as (I1 & I2 & I3).
    apply tick_records in Hx. destruct Hx as (E1 & E2 & E3).
    rewrite E1 in I1. rewrite E2 in I2. rewrite E3 in I3.
    rewrite !length_app in *. cbn [length] in *.
    repeat split; intro Hm.
    + rewrite I1 by lia. apply app_nth1. exact Hm.
    + rewrite I2 by lia. apply app_nth1. exact Hm.
    + rewrite I3 by lia. apply app_nth1. exact Hm.
Qed.

(** *** The chart notes that the tracks hold *)

Lemma chart_of_app a b : chart_of (a ++ b) = chart_of a ++ chart_of b.
Proof. unfold chart_of, GameSequencePlayer.map_values. apply map_app. Qed.

Lemma sweep_tracks_chart tpm cursor_tick tracks :
  forall done s done' s',
    for_each tracks (Timeline.sweep_track tpm cursor_tick) (done, s) = Ok (done', s') ->
    chart_of done' = chart_of done ++ chart_of tracks.
Proof.
  induction tracks as [|[track_index track] tracks IH];
    intros done s done' s' H; cbn in H.
  - injection H as <- _. cbn. rewrite app_nil_r. reflexivity.
  - inv_bind H. destruct x as [done1 s1].
    unfold Timeline.sweep_track in Hx. inv_bind Hx. destruct x as [k s2].
    injection Hx as <- <-.
    apply IH in H. rewrite H, chart_of_app, <- app_assoc. reflexivity.
Qed.

Lemma ticks_chart tpm ticks :
  forall tracks s tracks' s',
    for_each ticks (Timeline.tick tpm) (tracks, s) = Ok (tracks', s') ->
    chart_of tracks' = chart_of tracks.
Proof.
  induction ticks as [|cursor_tick ticks IH]; intros tracks s tracks' s' H; cbn in H.
  - injection H as <- _. reflexivity.
  - inv_bind H. destruct x as [tracks1 s1].
    apply IH in H. rewrite H.
    unfold Timeline.tick in Hx. inv_bind Hx. destruct x as [tracks2 s2].
    injection Hx as <- _.
    apply sweep_tracks_chart in Hx0. exact Hx0.
Qed.

Lemma give_channels_chart channel_per_track tracks :
  forall done result,
    for_each tracks (GameSequencePlayer.give_channel channel_per_track) done
    = Ok result ->
    chart_of result = chart_of done ++ chart_of tracks.
Proof.
  induction tracks as [|[key track] tracks IH]; intros done result H; cbn in H.
  - injection H as <-. cbn. rewrite app_nil_r. reflexivity.
  - inv_bind H. unfold GameSequencePlayer.give_channel in Hx. inv_bind Hx.
    injection Hx as <-. apply IH in H.
    rewrite H, chart_of_app, <- app_assoc. reflexivity.
Qed.

Lemma chart_of_map_values (f : GameTrack.t -> GameTrack.t) tracks :
  (forall track, chart_notes (f track) = chart_notes track) ->
  chart_of (GameSequencePlayer.map_values f tracks) = chart_of tracks.
Proof.
  intro Hf. unfold chart_of, GameSequencePlayer.map_values. rewrite map_map.
  apply map_ext. intros [k t]. cbn. rewrite Hf. reflexivity.
Qed.

Lemma chart_notes_set_played track l :
  chart_notes (GameTrack.set_played_millis_per_tick track l) = chart_notes track.
Proof.
  unfold chart_notes. cbn. rewrite map_map. apply map_ext. reflexivity.
Qed.

Lemma chart_notes_set_unit track u :
  chart_notes (GameTrack.set_unit_judge_millis track u) = chart_notes track.
Proof.
  unfold chart_notes. cbn. rewrite map_map. apply map_ext. reflexivity.
Qed.

Lemma init_tracks_index effective sound_table game_tracks :
  GameSequencePlayer.init_tracks effective sound_table = Ok game_tracks ->
  Forall (fun entry => GameTrack.get_index (snd entry) = 0%nat) game_tracks.
Proof.
  revert game_tracks.
  induction effective as [|[i track] rest IH]; intros gts H; cbn in H.
  - injection H as <-. constructor.
  - inv_bind H. inv_bind H. injection H as <-.
    constructor; [|eapply IH; eassumption].
    unfold GameTrack.init in Hx. inv_bind Hx. injection Hx as <-. reflexivity.
Qed.

(** What [open_ptfile] keeps of the timeline build. *)
Lemma open_ptfile_build cfg ptfile sound_table sp :
  GameSequencePlayer.open_ptfile cfg ptfile sound_table = Ok sp ->
  exists tracks0 tracks1 s,
    Timeline.build (GameSequencePlayer._ticks_per_measure sp)
      (total_ticks (header ptfile)) tracks0 = Ok (tracks1, s) /\
    GameSequencePlayer._tempos_per_tick sp = Timeline._tempos_per_tick s /\
    GameSequencePlayer._played_millis_per_tick sp
    = Timeline._played_millis_per_tick s /\
    GameSequencePlayer._tick_interval_millis_per_tick sp
    = Timeline._tick_interval_millis_per_tick s /\
    chart_of (GameSequencePlayer._game_tracks_dict sp) = chart_of tracks0 /\
    Forall (fun entry => GameTrack.get_index (snd entry) = 0%nat) tracks0.
Proof.
  unfold GameSequencePlayer.open_ptfile. intro H.
  inv_bind H. inv_bind H. destruct x0 as [tracks1 s].
  inv_bind H. inv_bind H. injection H as <-.
  do 3 eexists. split; [exact Hx0|].
  cbn [GameSequencePlayer._tempos_per_tick
       GameSequencePlayer._played_millis_per_tick
       GameSequencePlayer._tick_interval_millis_per_tick
       GameSequencePlayer._game_tracks_dict].
  repeat split.
  - apply give_channels_chart in Hx1. rewrite Hx1.
    change (chart_of []) with (@nil (nat * list (PTFileNote Q))). cbn [app].
    rewrite chart_of_map_values.
    2:{ intro t. rewrite chart_notes_set_played. reflexivity. }
    unfold Timeline.build in Hx0. apply ticks_chart in Hx0. exact Hx0.
  - apply init_tracks_index in Hx.
    unfold GameSequencePlayer.map_values. rewrite Forall_map.
    eapply Forall_impl; [|exact Hx]. intros [k t] E. exact E.
Qed.

Lemma replays_of_chart a : forall b,
  chart_of a = chart_of b ->
  Forall (fun entry => GameTrack.get_index (snd entry) = 0%nat) a ->
  Forall (fun entry => GameTrack.get_index (snd entry) = 0%nat) b ->
  replays a b.
Proof.
  induction a as [|[i t] a IH]; intros [|[j u] b] H Ha Hb; try discriminate.
  - constructor.
  - cbn in H. injection H as <- Hc Hr.
    inversion Ha; subst. inversion Hb; subst.
    constructor; [cbn in *; repeat split; congruence|].
    apply IH; assumption.
Qed.

Lemma chart_notes_set_index track i :
  chart_notes (GameTrack.set_index track i) = chart_notes track.
Proof. reflexivity. Qed.

Lemma chart_notes_set_play_index_for_tick track tick :
  chart_notes (GameTrack.set_play_index_for_tick track tick) = chart_notes track.
Proof. reflexivity. Qed.

Lemma chart_of_update_playable self f :
  (forall track, chart_notes (f track) = chart_notes track) ->
  chart_of (GameSequencePlayer._game_tracks_dict
              (GameSequencePlayer.update_playable_tracks self f))
  = chart_of (GameSequencePlayer._game_tracks_dict self).
Proof.
  intro Hf. unfold GameSequencePlayer.update_playable_tracks.
  cbn [GameSequencePlayer.with_tracks GameSequencePlayer._game_tracks_dict].
  unfold chart_of, GameSequencePlayer.map_values. rewrite map_map.
  apply map_ext. intros [k t]. cbn [fst snd].
  destruct (GameSequencePlayer.is_playable_key self k); cbn [fst snd];
    [rewrite Hf|]; reflexivity.
Qed.

Lemma recorded_start : recorded 0 Timeline.start.
Proof. unfold recorded. cbn. auto. Qed.

(** Property X15.  A resume after a seek replays the chart up to the current
    tick and lands on the timeline that the load recorded: for a player
    that holds the loaded chart and whose current tick [T] lies between 0
    and [total_ticks], [sync_with_current_tick] succeeds and sets the played
    milliseconds, the tempo and the tick interval to the entries of the
    per-tick lists at [T - 1] (to 0 at the first tick), and the start of the
    clock to -1. *)
Theorem sync_with_current_tick_replays_timeline
    (cfg : GameSequencePlayer.settings) (ptfile : PTFile Q)
    (sound_table : GameSoundTable) (sp self : GameSequencePlayer.t) :
  GameSequencePlayer.open_ptfile cfg ptfile sound_table = Ok sp ->
  same_chart sp self ->
  (0 <= GameSequencePlayer._current_tick self
   <= Z.of_N (total_ticks (header ptfile)))%Z ->
  exists self',
    GameSequencePlayer.sync_with_current_tick self = Ok self' /\
    GameSequencePlayer._played_millis self'
    = recorded_before (GameSequencePlayer._played_millis_per_tick sp)
        (GameSequencePlayer._current_tick self) /\
    GameSequencePlayer._tempo self'
    = recorded_before (GameSequencePlayer._tempos_per_tick sp)
        (GameSequencePlayer._current_tick self) /\
    GameSequencePlayer._tick_interval_millis self'
    = recorded_before (GameSequencePlayer._tick_interval_millis_per_tick sp)
        (GameSequencePlayer._current_tick self) /\
    GameSequencePlayer._started_millis self' = -1 /\
    GameSequencePlayer._current_tick self'
    = GameSequencePlayer._current_tick self.
Proof.
  intros Hopen [Htpm Hchart] HT.
  destruct (open_ptfile_build _ _ _ _ Hopen)
    as (tracks0 & tracks1 & s & Hb & E1 & E2 & E3 & Hc0 & Hi0).
  set (T := Z.to_nat (GameSequencePlayer._current_tick self)).
  assert (HTn : (T <= N.to_nat (total_ticks (header ptfile)))%nat)
    by (unfold T; lia).
  unfold Timeline.build in Hb.
  replace (N.to_nat (total_ticks (header ptfile)))
    with (T + (N.to_nat (total_ticks (header ptfile)) - T))%nat in Hb by lia.
  rewrite seq_app, for_each_app in Hb. inv_bind Hb.
  destruct x as [tracks_mid s_mid].
  pose proof (ticks_recorded _ _ 0 _ _ _ _ recorded_start Hx) as Hrec.
  rewrite length_seq in Hrec. cbn [Nat.add] in Hrec.
  pose proof (ticks_extend _ _ _ _ _ _ Hb) as Hext.
  unfold GameSequencePlayer.sync_with_current_tick.
  set (self1 := GameSequencePlayer.update_playable_tracks self _).
  set (tR0 := GameSequencePlayer.map_values _
                (GameSequencePlayer._game_tracks_dict self1)).
  assert (Hrel : replays tracks0 tR0).
  { apply replays_of_chart.
    - unfold tR0. rewrite chart_of_map_values by (intro; reflexivity).
      unfold self1. rewrite chart_of_update_playable by (intro; reflexivity).
      congruence.
    - exact Hi0.
    - unfold tR0, GameSequencePlayer.map_values. rewrite Forall_map.
      apply Forall_forall. intros [k t] _. reflexivity. }
  destruct (ticks_replay _ _ _ tR0 _ _ _ Hx Hrel) as (tR' & Hf & _).
  change (GameSequencePlayer._ticks_per_measure self1)
    with (GameSequencePlayer._ticks_per_measure self).
  change (GameSequencePlayer._current_tick self1)
    with (GameSequencePlayer._current_tick self).
  rewrite Htpm. fold T.
  change (locals Timeline.start) with (0, 0, 0) in Hf.
  rewrite Hf. cbn [bind]. unfold locals.
  eexists. split; [reflexivity|].
  cbn [GameSequencePlayer.with_clock GameSequencePlayer.with_tempo
       GameSequencePlayer.with_tracks GameSequencePlayer._played_millis
       GameSequencePlayer._tempo GameSequencePlayer._tick_interval_millis
       GameSequencePlayer._started_millis GameSequencePlayer._current_tick].
  unfold recorded_before. fold T. rewrite E1, E2, E3.
  destruct Hrec as (L1 & L2 & L3 & Hlast).
  destruct T as [|m].
  - unfold locals in Hlast. injection Hlast as -> -> ->. repeat split.
  - destruct Hlast as (N1 & N2 & N3).
    destruct (Hext m 0) as (X1 & X2 & X3).
    rewrite X1, X2, X3 by lia. rewrite N1, N2, N3. repeat split.
Qed.

Lemma sync_with_current_tick_replays_timeline_witness :
  exists self',
    GameSequencePlayer.sync_with_current_tick
      (GameSequencePlayer.set_current_tick Sample.loaded 5) = Ok self' /\
    GameSequencePlayer._played_millis self' == 40.
Proof.
  destruct (sync_with_current_tick_replays_timeline
              GameSequencePlayer.default_settings Sample.chart
              Sample.sound_table Sample.loaded
              (GameSequencePlayer.set_current_tick Sample.loaded 5))
    as (self' & H1 & H2 & _).
  - vm_compute. reflexivity.
  - split; vm_compute; reflexivity.
  - vm_compute. split; discriminate.
  - exists self'. split; [exact H1|]. rewrite H2. vm_compute. reflexivity.
Defined.


(** ** The cursors of a track *)

Lemma find_from_spec {A} (pred : A -> bool) (l : list A) :
  forall start default,
    (exists k x,
       find_from pred l start default = (start + k)%nat /\
       nth_error l k = Some x /\ pred x = true /\
       forall j y, (j < k)%nat -> nth_error l j = Some y -> pred y = false) \/
    (find_from pred l start default = default /\
     Forall (fun y => pred y = false) l).
Proof.
  induction l as [|a rest IH]; intros start default; cbn [find_from].
  - right. split; [reflexivity|constructor].
  - destruct (pred a) eqn:Pa.
    + left. exists 0%nat, a. rewrite Nat.add_0_r.
      repeat split; auto. intros j y Hj. lia.
    + destruct (IH (S start) default) as [(k & x & E & Hk & Px & Hb)|[E Hall]].
      * left. exists (S k), x. rewrite E. split; [lia|].
        split; [exact Hk|]. split; [exact Px|].
        intros [|j] y Hj Hy; cbn in Hy.
        -- injection Hy as <-. exact Pa.
        -- eapply Hb; [|exact Hy]. lia.
      * right. split; [exact E|]. constructor; assumption.
Qed.

(** [find_note_index]: the first note from [start_index] on that satisfies
    the predicate, or the number of notes. *)
Lemma find_note_index_spec (self : GameTrack.t) pred start_index :
  let r := GameTrack.find_note_index self pred start_index in
  (r <= GameTrack._notes_len self)%nat /\
  ((r < GameTrack._notes_len self)%nat ->
   (start_index <= r)%nat /\
   exists note, nth_error (GameTrack._notes self) r = Some note /\
                pred note = true) /\
  (forall j note, (start_index <= j < r)%nat ->
     nth_error (GameTrack._notes self) j = Some note -> pred note = false).
Proof.
  intro r. unfold r, GameTrack.find_note_index, GameTrack._notes_len.
  set (notes := GameTrack._notes self).
  destruct (find_from_spec pred (skipn start_index notes) start_index
              (length notes)) as [(k & x & E & Hk & Px & Hb)|[E Hall]];
    rewrite E.
  - rewrite nth_error_skipn in Hk.
    assert (Hlt : (start_index + k < length notes)%nat)
      by (apply nth_error_Some; congruence).
    split; [lia|]. split.
    + intros _. split; [lia|]. exists x. auto.
    + intros j note [Hj1 Hj2] Hn.
      apply (Hb (j - start_index)%nat note); [lia|].
      rewrite nth_error_skipn. replace (start_index + (j - start_index))%nat with j by lia.
      exact Hn.
  - split; [lia|]. split; [lia|].
    intros j note [Hj1 Hj2] Hn. rewrite Forall_forall in Hall.
    apply Hall. apply (nth_error_In _ (j - start_index)).
    rewrite nth_error_skipn. replace (start_index + (j - start_index))%nat with j by lia.
    exact Hn.
Qed.

(** Property X16.  The judgment cursor rests on a note that can still be
    played: after [set_play_index(play_index)] the cursor is at most the
    number of notes, the head note, if there is one, is GENERAL and neither
    played nor held and sits at or after [play_index], and no note from
    [play_index] up to the cursor can be played. *)
Theorem set_play_index_rests_on_playable (track : GameTrack.t) (play_index : nat) :
  let track' := GameTrack.set_play_index track play_index in
  let cursor := GameTrack.get_play_index track' in
  (cursor <= GameTrack._notes_len track)%nat /\
  (match GameTrack.get_play_head_note track' with
   | Some note =>
       (play_index <= cursor)%nat /\
       GameNote.is_general note = true /\
       GameNote._is_played note = false /\ GameNote._is_playing note = false
   | None => cursor = GameTrack._notes_len track
   end) /\
  (forall j note,
     (play_index <= j < cursor)%nat ->
     nth_error (GameTrack._notes track) j = Some note ->
     GameNote.is_playable note = false).
Proof.
  intros track' cursor.
  pose proof (find_note_index_spec track GameNote.is_playable play_index)
    as (H1 & H2 & H3).
  change (GameTrack.find_note_index track GameNote.is_playable play_index)
    with cursor in H1, H2, H3.
  split; [exact H1|]. split; [|exact H3].
  unfold GameTrack.get_play_head_note.
  change (GameTrack._current_play_index track') with cursor.
  change (GameTrack._notes_len track') with (GameTrack._notes_len track).
  change (GameTrack._notes track') with (GameTrack._notes track).
  destruct (Nat.ltb_spec cursor (GameTrack._notes_len track)) as [L|L]; [|lia].
  destruct (H2 L) as (Hle & note & Hn & Hp). rewrite Hn.
  split; [exact Hle|].
  unfold GameNote.is_playable in Hp. apply andb_true_iff in Hp.
  destruct Hp as [Hg Hp]. apply negb_true_iff, orb_false_iff in Hp. tauto.
Qed.

Lemma set_play_index_rests_on_playable_witness :
  GameTrack.get_play_index
    (GameTrack.set_play_index (Sample.track_of Sample.held_long_note) 0)
  = 1%nat.
Proof.
  destruct (set_play_index_rests_on_playable
              (Sample.track_of Sample.held_long_note) 0) as (H1 & H2 & _).
  destruct (GameTrack.get_play_head_note
              (GameTrack.set_play_index (Sample.track_of Sample.held_long_note) 0))
    as [note|] eqn:E.
  - vm_compute in E. discriminate.
  - exact H2.
Defined.

(** ** The notes to display *)




(** ** The judgment cursor after a seek *)

Lemma map_values_app {V W} (f : V -> W) a b :
  GameSequencePlayer.map_values f (a ++ b)
  = GameSequencePlayer.map_values f a ++ GameSequencePlayer.map_values f b.
Proof. unfold GameSequencePlayer.map_values. apply map_app. Qed.

Lemma replay_tracks_forget tpm cursor_tick tR : forall done acc done' acc',
  for_each tR (replay_track tpm cursor_tick) (done, acc) = Ok (done', acc') ->
  GameSequencePlayer.map_values forget_index done'
  = GameSequencePlayer.map_values forget_index done
    ++ GameSequencePlayer.map_values forget_index tR.
Proof.
  induction tR as [|[k t] tR IH]; intros done acc done' acc' H; cbn in H.
  - injection H as <- _. cbn. rewrite app_nil_r. reflexivity.
  - inv_bind H. destruct x as [done1 acc1]. inv_bind Hx. destruct x as [n acc2].
    injection Hx as <- <-. apply IH in H.
    rewrite H, map_values_app, <- app_assoc. reflexivity.
Qed.

Lemma replay_ticks_forget tpm ticks : forall tR loc tR' loc',
  for_each ticks (GameSequencePlayer.replay_tick tpm) (tR, loc) = Ok (tR', loc') ->
  GameSequencePlayer.map_values forget_index tR'
  = GameSequencePlayer.map_values forget_index tR.
Proof.
  induction ticks as [|c ticks IH]; intros tR loc tR' loc' H; cbn [for_each] in H.
  - injection H as <- _. reflexivity.
  - inv_bind H. destruct x as [tR1 loc1]. apply IH in H. rewrite H.
    destruct loc as [[tempo played] interval].
    rewrite replay_tick_unfold in Hx. inv_bind Hx. destruct x as [tR2 ti].
    injection Hx as <- _.
    apply replay_tracks_forget in Hx0. exact Hx0.
Qed.

Lemma dict_get_map_values {V W} (f : V -> W) (dct : list (nat * V)) key :
  dict_get (GameSequencePlayer.map_values f dct) key
  = option_map f (dict_get dct key).
Proof.
  induction dct as [|[k v] rest IH]; cbn; [reflexivity|].
  destruct (Nat.eqb k key); [reflexivity|exact IH].
Qed.

Lemma dict_get_update_playable self f key :
  dict_get (GameSequencePlayer._game_tracks_dict
              (GameSequencePlayer.update_playable_tracks self f)) key
  = option_map (fun track =>
                  if GameSequencePlayer.is_playable_key self key then f track
                  else track)
      (dict_get (GameSequencePlayer._game_tracks_dict self) key).
Proof.
  unfold GameSequencePlayer.update_playable_tracks.
  cbn [GameSequencePlayer.with_tracks GameSequencePlayer._game_tracks_dict].
  induction (GameSequencePlayer._game_tracks_dict self) as [|[k t] rest IH];
    cbn [map dict_get fst snd]; [reflexivity|].
  destruct (GameSequencePlayer.is_playable_key self k) eqn:P; cbn [dict_get];
    destruct (Nat.eqb_spec k key) as [->|Hne]; try exact IH;
    cbn [option_map]; rewrite P; reflexivity.
Qed.

Lemma reset_notes_playable notes j note :
  nth_error (map GameNote.reset_play_status notes) j = Some note ->
  GameNote._is_played note = false /\ GameNote._is_playing note = false /\
  GameNote.is_playable note = GameNote.is_general note.
Proof.
  rewrite nth_error_map. destruct (nth_error notes j) as [n|]; [|discriminate].
  intros [= <-]. unfold GameNote.is_playable. cbn.
  rewrite andb_true_r. auto.
Qed.

(** Property X18.  A seek followed by a resume puts the judgment cursor of
    every playable track behind the notes before the new tick.  With no
    pause time of exactly 0 stored, after
    [resume_play(offset_current_tick(delta))]: the current tick is
    [max(0, tick + delta)], the player runs if a chart is loaded, every
    note of the track is unplayed and unheld again, the note under the
    cursor, if any, is a GENERAL note, and every GENERAL note before the
    cursor has a position before the new tick. *)
Theorem seek_and_resume_play_cursor
    (self self' : GameSequencePlayer.t) (delta_tick : Z)
    (track_index : nat) (track : GameTrack.t) :
  ~ GameSequencePlayer._paused_millis self == 0 ->
  GameSequencePlayer.resume_play
    (GameSequencePlayer.offset_current_tick self delta_tick) = Ok self' ->
  GameSequencePlayer.is_playable_key self track_index = true ->
  GameSequencePlayer.get_track self track_index = Some track ->
  let current_tick :=
    Z.max 0 (GameSequencePlayer._current_tick self + delta_tick) in
  GameSequencePlayer._current_tick self' = current_tick /\
  GameSequencePlayer._is_playing self' = GameSequencePlayer._is_playable self /\
  exists track',
    GameSequencePlayer.get_track self' track_index = Some track' /\
    GameTrack._notes track'
    = map GameNote.reset_play_status (GameTrack._notes track) /\
    (GameTrack.get_play_index track' <= GameTrack._notes_len track')%nat /\
    (forall note, GameTrack.get_play_head_note track' = Some note ->
       GameNote.is_general note = true) /\
    (forall j note,
       (j < GameTrack.get_play_index track')%nat ->
       nth_error (GameTrack._notes track') j = Some note ->
       GameNote.is_general note = true ->
       (GameNote.get_position note < Z.to_N current_tick)%N).
Proof.
  intros Hpaused Hres Hkey Hget current_tick.
  unfold GameSequencePlayer.offset_current_tick in Hres. fold current_tick in Hres.
  unfold GameSequencePlayer.resume_play in Hres.
  set (s1 := GameSequencePlayer.set_current_tick self current_tick) in Hres.
  assert (Hs1 : GameSequencePlayer._is_playing s1 = false) by reflexivity.
  rewrite Hs1 in Hres. cbn [negb] in Hres.
  assert (Hp1 : Qltb (GameSequencePlayer._paused_millis s1) 0 = true).
  { unfold s1, GameSequencePlayer.set_current_tick,
      GameSequencePlayer.reset_play_status,
      GameSequencePlayer.update_playable_tracks.
    cbn [GameSequencePlayer.with_tracks GameSequencePlayer.with_clock
         GameSequencePlayer._paused_millis].
    destruct (Qltb 0 (GameSequencePlayer._paused_millis self)) eqn:P.
    - reflexivity.
    - apply Qltb_false_iff in P. apply Qltb_true_iff.
      destruct (Qlt_le_dec (GameSequencePlayer._paused_millis self) 0) as [L|L];
        [exact L|].
      exfalso. apply Hpaused. apply Qle_antisym; assumption. }
  rewrite Hp1 in Hres. inv_bind Hres. injection Hres as <-.
  rename x into s2. rename Hx into Hsync.
  unfold GameSequencePlayer.sync_with_current_tick in Hsync.
  set (s1' := GameSequencePlayer.update_playable_tracks s1 _) in Hsync.
  inv_bind Hsync. destruct x as [tR' [[tempo played] interval]].
  injection Hsync as <-.
  apply replay_ticks_forget in Hx.
  cbn [GameSequencePlayer.with_clock GameSequencePlayer.with_tempo
       GameSequencePlayer.with_tracks GameSequencePlayer._current_tick
       GameSequencePlayer._is_playing GameSequencePlayer._is_playable
       GameSequencePlayer.get_track GameSequencePlayer._game_tracks_dict].
  split; [reflexivity|]. split; [reflexivity|].
  (* the track at [track_index], through the three passes *)
  set (t1 := GameTrack.reset_play_status track).
  set (t2 := GameTrack.set_play_index_for_tick t1 (Z.to_N current_tick)).
  assert (H1 : dict_get (GameSequencePlayer._game_tracks_dict s1') track_index
               = Some t2).
  { unfold s1'. rewrite dict_get_update_playable.
    change (GameSequencePlayer.is_playable_key s1 track_index)
      with (GameSequencePlayer.is_playable_key self track_index).
    rewrite Hkey.
    unfold s1, GameSequencePlayer.set_current_tick,
      GameSequencePlayer.reset_play_status.
    rewrite dict_get_update_playable.
    match goal with
    | |- context [GameSequencePlayer.is_playable_key ?s track_index] =>
        change (GameSequencePlayer.is_playable_key s track_index)
          with (GameSequencePlayer.is_playable_key self track_index)
    end.
    rewrite Hkey.
    cbn [GameSequencePlayer.with_clock GameSequencePlayer._game_tracks_dict].
    unfold GameSequencePlayer.get_track in Hget. rewrite Hget.
    reflexivity. }
  assert (H2 : option_map forget_index (dict_get tR' track_index)
               = Some (forget_index t2)).
  { rewrite <- dict_get_map_values, Hx, dict_get_map_values,
      dict_get_map_values, H1. reflexivity. }
  destruct (dict_get tR' track_index) as [track'|] eqn:Hget'; [|discriminate].
  cbn [option_map] in H2.
  exists track'. split; [exact Hget'|].
  assert (En : GameTrack._notes track' = GameTrack._notes t2).
  { apply (f_equal (option_map GameTrack._notes)) in H2.
    cbn [option_map] in H2. injection H2 as H2. exact H2. }
  assert (Ep : GameTrack._current_play_index track'
               = GameTrack._current_play_index t2).
  { apply (f_equal (option_map GameTrack._current_play_index)) in H2.
    cbn [option_map] in H2. injection H2 as H2. exact H2. }
  assert (Enotes : GameTrack._notes t2
                   = map GameNote.reset_play_status (GameTrack._notes track))
    by reflexivity.
  split; [congruence|].
  unfold GameTrack.get_play_index, GameTrack.get_play_head_note,
    GameTrack._notes_len.
  rewrite En, Ep.
  set (c0 := GameTrack.find_note_index t1
               (fun note => (Z.to_N current_tick <=? GameNote.get_position note)%N) 0).
  pose proof (find_note_index_spec t1
                (fun note => (Z.to_N current_tick <=? GameNote.get_position note)%N) 0)
    as (A1 & A2 & A3).
  fold c0 in A1, A2, A3.
  pose proof (find_note_index_spec t1 GameNote.is_playable c0) as (B1 & B2 & B3).
  change (GameTrack.find_note_index t1 GameNote.is_playable c0)
    with (GameTrack._current_play_index t2) in B1, B2, B3.
  change (GameTrack._notes_len t1) with (length (GameTrack._notes t2))
    in A1, A2, B1, B2.
  change (GameTrack._notes t1) with (GameTrack._notes t2) in A3, B2, B3.
  split; [exact B1|]. split.
  - intros note Hhead.
    destruct (Nat.ltb_spec (GameTrack._current_play_index t2)
                (length (GameTrack._notes t2))) as [L|L]; [|discriminate].
    destruct (B2 L) as (_ & note' & Hn & Hp).
    rewrite Hhead in Hn. injection Hn as <-.
    unfold GameNote.is_playable in Hp. apply andb_true_iff in Hp. tauto.
  - intros j note Hj Hn Hg.
    destruct (Nat.ltb_spec j c0) as [L|L].
    + specialize (A3 j note ltac:(lia) Hn). cbn beta in A3.
      apply N.leb_gt in A3. exact A3.
    + specialize (B3 j note ltac:(lia) Hn).
      rewrite Enotes in Hn. apply reset_notes_playable in Hn.
      destruct Hn as (_ & _ & E). congruence.
Qed.

Lemma seek_and_resume_play_cursor_witness :
  exists self',
    GameSequencePlayer.resume_play
      (GameSequencePlayer.offset_current_tick Sample.loaded 5) = Ok self' /\
    GameSequencePlayer._current_tick self' = 5%Z.
Proof.
  destruct (GameSequencePlayer.resume_play
              (GameSequencePlayer.offset_current_tick Sample.loaded 5))
    as [self'|e] eqn:H; [|vm_compute in H; discriminate].
  destruct (GameSequencePlayer.get_track Sample.loaded 3) as [track|] eqn:Hg;
    [|vm_compute in Hg; discriminate].
  exists self'. split; [reflexivity|].
  destruct (seek_and_resume_play_cursor Sample.loaded self' 5 3 track)
    as (H1 & _).
  - vm_compute. discriminate.
  - exact H.
  - vm_compute. reflexivity.
  - exact Hg.
  - rewrite H1. vm_compute. reflexivity.
Defined.


(** ** The player after a load *)

Lemma sweep_tracks_Forall (P : GameTrack.t -> Prop) tpm cursor_tick tracks :
  (forall track i, P track -> P (GameTrack.set_index track i)) ->
  forall done s done' s',
    for_each tracks (Timeline.sweep_track tpm cursor_tick) (done, s) = Ok (done', s') ->
    Forall (fun entry => P (snd entry)) done ->
    Forall (fun entry => P (snd entry)) tracks ->
    Forall (fun entry => P (snd entry)) done'.
Proof.
  intro HP.
  induction tracks as [|[track_index track] tracks IH];
    intros done s done' s' H Hd Ht; cbn in H.
  - injection H as <- _. exact Hd.
  - inv_bind H. destruct x as [done1 s1].
    unfold Timeline.sweep_track in Hx. inv_bind Hx. destruct x as [k s2].
    injection Hx as <- <-. inversion Ht; subst.
    eapply IH; [exact H| |assumption].
    apply Forall_app. split; [exact Hd|].
    constructor; [|constructor]. cbn. apply HP. assumption.
Qed.

Lemma ticks_Forall (P : GameTrack.t -> Prop) tpm ticks :
  (forall track i, P track -> P (GameTrack.set_index track i)) ->
  forall tracks s tracks' s',
    for_each ticks (Timeline.tick tpm) (tracks, s) = Ok (tracks', s') ->
    Forall (fun entry => P (snd entry)) tracks ->
    Forall (fun entry => P (snd entry)) tracks'.
Proof.
  intro HP.
  induction ticks as [|c ticks IH]; intros tracks s tracks' s' H Ht; cbn in H.
  - injection H as <- _. exact Ht.
  - inv_bind H. destruct x as [tracks1 s1].
    eapply IH; [exact H|].
    unfold Timeline.tick in Hx. inv_bind Hx. destruct x as [tracks2 s2].
    injection Hx as <- _.
    eapply sweep_tracks_Forall; [exact HP|exact Hx0|constructor|exact Ht].
Qed.

Lemma give_channels_Forall (P P' : GameTrack.t -> Prop) channel_per_track tracks :
  (forall track channel, P track -> P' (GameTrack.set_channel track channel)) ->
  forall done result,
    for_each tracks (GameSequencePlayer.give_channel channel_per_track) done
    = Ok result ->
    Forall (fun entry => P' (snd entry)) done ->
    Forall (fun entry => P (snd entry)) tracks ->
    Forall (fun entry => P' (snd entry)) result.
Proof.
  intro HP.
  induction tracks as [|[key track] tracks IH]; intros done result H Hd Ht;
    cbn in H.
  - injection H as <-. exact Hd.
  - inv_bind H. unfold GameSequencePlayer.give_channel in Hx. inv_bind Hx.
    injection Hx as <-. inversion Ht; subst.
    eapply IH; [exact H| |assumption].
    apply Forall_app. split; [exact Hd|].
    constructor; [|constructor]. cbn. apply HP. assumption.
Qed.

Lemma GameNote_init_fresh note track_type sound_table n :
  GameNote.init note track_type sound_table = Ok n ->
  GameNote._unit_judge_millis n = 42 /\
  GameNote._is_played n = false /\ GameNote._is_playing n = false /\
  GameNote._result_type n = None /\ GameNote._play_result n = None.
Proof.
  unfold GameNote.init.
  destruct (params note).
  - intro H. inv_bind H. inv_bind H.
    destruct (_ && _); [discriminate|]. injection H as <-. cbn. auto.
  - intros [= <-]. cbn. auto.
  - intros [= <-]. cbn. auto.
  - intros [= <-]. cbn. auto.
Qed.

Lemma init_notes_fresh notes track_type sound_table ns :
  GameTrack.init_notes notes track_type sound_table = Ok ns ->
  Forall (fun n =>
            GameNote._is_played n = false /\ GameNote._is_playing n = false /\
            GameNote._result_type n = None /\ GameNote._play_result n = None) ns.
Proof.
  revert ns. induction notes as [|note rest IH]; intros ns H; cbn in H.
  - injection H as <-. constructor.
  - inv_bind H. inv_bind H. injection H as <-.
    constructor; [|eapply IH; eassumption].
    apply GameNote_init_fresh in Hx. tauto.
Qed.

Lemma init_tracks_fresh effective sound_table game_tracks u :
  GameSequencePlayer.init_tracks effective sound_table = Ok game_tracks ->
  Forall (fun entry => track_fresh u (snd entry))
    (GameSequencePlayer.map_values
       (fun track => GameTrack.set_unit_judge_millis track u) game_tracks).
Proof.
  revert game_tracks.
  induction effective as [|[i track] rest IH]; intros gts H; cbn in H.
  - injection H as <-. constructor.
  - inv_bind H. inv_bind H. injection H as <-.
    cbn [GameSequencePlayer.map_values map fst snd].
    constructor; [|apply IH; assumption].
    unfold GameTrack.init in Hx. inv_bind Hx. injection Hx as <-.
    apply init_notes_fresh in Hx1.
    unfold track_fresh. cbn [snd GameTrack.set_unit_judge_millis
      GameTrack._current_play_index GameTrack._is_playing GameTrack._notes].
    split; [reflexivity|]. split; [reflexivity|].
    rewrite Forall_map. eapply Forall_impl; [|exact Hx1].
    intros n (N1 & N2 & N3 & N4). cbn. auto.
Qed.

(** Property X23.  What a load leaves behind.  After [open_ptfile] the tempo
    is the master tempo of the header and the tick interval is
    [240000 / ticks_per_measure / master_bpm] (so neither divisor is zero),
    the beat is 4, the player is playable and stopped at tick 0, the
    played-milliseconds table has [total_ticks] entries, and every track has
    both cursors at its first note, a channel object, and notes that all
    carry that table and the judge unit of the player and have no play
    status yet. *)
Theorem open_ptfile_ready
    (cfg : GameSequencePlayer.settings) (ptfile : PTFile Q)
    (sound_table : GameSoundTable) (sp : GameSequencePlayer.t) :
  GameSequencePlayer.open_ptfile cfg ptfile sound_table = Ok sp ->
  GameSequencePlayer._tempo sp = master_bpm (header ptfile) /\
  tick_interval_of (ticks_per_measure (header ptfile)) (master_bpm (header ptfile))
  = Ok (GameSequencePlayer._tick_interval_millis sp) /\
  GameSequencePlayer._beat sp = 4%N /\
  GameSequencePlayer._current_tick sp = 0%Z /\
  GameSequencePlayer._is_playing sp = false /\
  GameSequencePlayer._is_playable sp = true /\
  length (GameSequencePlayer._played_millis_per_tick sp)
  = N.to_nat (total_ticks (header ptfile)) /\
  Forall (fun entry =>
            track_ready (GameSequencePlayer._played_millis_per_tick sp)
              (GameSequencePlayer.s_unit_judge_millis cfg) (snd entry))
    (GameSequencePlayer._game_tracks_dict sp).
Proof.
  unfold GameSequencePlayer.open_ptfile. intro H.
  inv_bind H. inv_bind H. destruct x0 as [tracks1 s].
  inv_bind H. inv_bind H. injection H as <-.
  cbn [GameSequencePlayer._tempo GameSequencePlayer._tick_interval_millis
       GameSequencePlayer._beat GameSequencePlayer._current_tick
       GameSequencePlayer._is_playing GameSequencePlayer._is_playable
       GameSequencePlayer._played_millis_per_tick
       GameSequencePlayer._game_tracks_dict].
  split; [reflexivity|]. split; [exact Hx2|]. do 4 (split; [reflexivity|]).
  split.
  { apply build_inv in Hx0. apply (inv_played_len Hx0). }
  set (u := GameSequencePlayer.s_unit_judge_millis cfg) in *.
  set (table := Timeline._played_millis_per_tick s) in *.
  apply (init_tracks_fresh _ _ _ u) in Hx.
  unfold Timeline.build in Hx0.
  apply (ticks_Forall (track_fresh u)) in Hx0; [|auto|exact Hx].
  eapply (give_channels_Forall
            (fun track =>
               GameTrack._current_index track = 0%nat /\
               GameTrack._current_play_index track = 0%nat /\
               GameTrack._is_playing track = false /\
               Forall (note_ready table u) (GameTrack._notes track))
            (track_ready table u));
    [|exact Hx1|constructor|].
  - intros track channel (A & B & C & D). unfold track_ready. cbn.
    repeat split; try assumption. eexists. reflexivity.
  - unfold GameSequencePlayer.map_values. rewrite Forall_map.
    eapply Forall_impl; [|exact Hx0].
    intros [k t] (A & B & C). cbn [fst snd] in *.
    cbn [GameTrack.set_played_millis_per_tick GameTrack.set_index
         GameTrack._current_index GameTrack._current_play_index
         GameTrack._is_playing GameTrack._notes].
    repeat split; try assumption.
    rewrite Forall_map. eapply Forall_impl; [|exact C].
    intros n (N1 & N2 & N3 & N4 & N5). unfold note_ready. cbn. auto 10.
Qed.

Lemma open_ptfile_ready_witness :
  length (GameSequencePlayer._played_millis_per_tick Sample.loaded) = 20%nat /\
  Forall (fun entry =>
            track_ready (GameSequencePlayer._played_millis_per_tick Sample.loaded)
              42 (snd entry))
    (GameSequencePlayer._game_tracks_dict Sample.loaded).
Proof.
  destruct (open_ptfile_ready GameSequencePlayer.default_settings Sample.chart
              Sample.sound_table Sample.loaded)
    as (_ & _ & _ & _ & _ & _ & H1 & H2).
  - vm_compute. reflexivity.
  - split; [exact H1|exact H2].
Defined.


(** ** A new play *)

(** Property X24.  [start_play] on a stopped player begins a new play: the
    current tick is 0, the clocks are unset (-1), the player runs if a chart
    is loaded, the aggregator is reset, and on every playable track all
    notes are unplayed and unheld and both cursors are at index 0.  The
    judgment cursor is put on the first note of the track whatever its kind:
    unlike after a seek, it is not moved on to the first GENERAL note.  On a
    running player [start_play] changes nothing. *)
Theorem start_play_begins_at_first_note
    (self : GameSequencePlayer.t) (pattern_player : GamePatternPlayer.t)
    (track_index : nat) (track : GameTrack.t) :
  (GameSequencePlayer._is_playing self = true ->
   GameSequencePlayer.start_play self pattern_player = (self, pattern_player)) /\
  (GameSequencePlayer._is_playing self = false ->
   GameSequencePlayer.is_playable_key self track_index = true ->
   GameSequencePlayer.get_track self track_index = Some track ->
   let started := fst (GameSequencePlayer.start_play self pattern_player) in
   let pattern_player' := snd (GameSequencePlayer.start_play self pattern_player) in
   GameSequencePlayer._current_tick started = 0%Z /\
   GameSequencePlayer._started_millis started = -1 /\
   GameSequencePlayer._played_millis started = -1 /\
   GameSequencePlayer._paused_millis started = -1 /\
   GameSequencePlayer._is_playing started = GameSequencePlayer._is_playable self /\
   GamePatternPlayer._play_result_count pattern_player' = 0%nat /\
   GamePatternPlayer._combo_count pattern_player' = 0%nat /\
   exists track',
     GameSequencePlayer.get_track started track_index = Some track' /\
     GameTrack._notes track'
     = map GameNote.reset_play_status (GameTrack._notes track) /\
     GameTrack.get_index track' = 0%nat /\
     GameTrack.get_play_index track' = 0%nat /\
     GameTrack.get_play_head_note track'
     = option_map GameNote.reset_play_status (hd_error (GameTrack._notes track))).
Proof.
  split.
  - intro Hp. unfold GameSequencePlayer.start_play. rewrite Hp. reflexivity.
  - intros Hp Hkey Hget started pattern_player'.
    unfold started, pattern_player', GameSequencePlayer.start_play.
    rewrite Hp. cbn [negb].
    unfold GameSequencePlayer.reset_progress, GameSequencePlayer.reset_play_status.
    cbn [fst snd].
    cbn [GameSequencePlayer.with_clock GameSequencePlayer.update_playable_tracks
         GameSequencePlayer.with_tracks GameSequencePlayer._current_tick
         GameSequencePlayer._started_millis GameSequencePlayer._played_millis
         GameSequencePlayer._paused_millis GameSequencePlayer._is_playing
         GameSequencePlayer._is_playable GameSequencePlayer._current_millis
         GameSequencePlayer._elapsed_millis].
    do 7 (split; [reflexivity|]).
    unfold GameSequencePlayer.get_track.
    match goal with
    | |- context [GameSequencePlayer._game_tracks_dict
                    (GameSequencePlayer.with_clock
                       (GameSequencePlayer.update_playable_tracks ?s ?f) _ _ _ _ _ _ _)] =>
        change (GameSequencePlayer._game_tracks_dict
                  (GameSequencePlayer.with_clock
                     (GameSequencePlayer.update_playable_tracks s f)
                     _ _ _ _ _ _ _))
          with (GameSequencePlayer._game_tracks_dict
                  (GameSequencePlayer.update_playable_tracks s f));
        rewrite (dict_get_update_playable s f track_index);
        change (GameSequencePlayer.is_playable_key s track_index)
          with (GameSequencePlayer.is_playable_key self track_index);
        change (GameSequencePlayer._game_tracks_dict s)
          with (GameSequencePlayer.map_values
                  (fun track => GameTrack.set_index track 0)
                  (GameSequencePlayer._game_tracks_dict self))
    end.
    rewrite Hkey, dict_get_map_values.
    unfold GameSequencePlayer.get_track in Hget. rewrite Hget.
    cbn [option_map]. eexists. split; [reflexivity|].
    split; [reflexivity|]. split; [reflexivity|]. split; [reflexivity|].
    unfold GameTrack.get_play_head_note, GameTrack._notes_len.
    cbn [GameTrack.reset_play_status GameTrack.with_notes GameTrack.with_play_index
         GameTrack.set_index GameTrack._notes GameTrack._current_play_index].
    destruct (GameTrack._notes track) as [|first rest]; reflexivity.
Qed.

Lemma start_play_begins_at_first_note_witness :
  GameSequencePlayer._current_tick
    (fst (GameSequencePlayer.start_play Sample.loaded GamePatternPlayer.init))
  = 0%Z.
Proof.
  destruct (GameSequencePlayer.get_track Sample.loaded 3) as [track|] eqn:Hg;
    [|vm_compute in Hg; discriminate].
  destruct (start_play_begins_at_first_note Sample.loaded GamePatternPlayer.init
              3 track) as (_ & H).
  destruct H as (H & _).
  - vm_compute. reflexivity.
  - vm_compute. reflexivity.
  - exact Hg.
  - exact H.
Defined.


(** ** The actions of the window *)

Lemma set_note_speed_in_range pattern_drawer note_speed :
  1 <= note_speed -> note_speed <= 9 ->
  exists pattern_drawer',
    GamePatternDrawer.set_note_speed pattern_drawer note_speed
    = Ok pattern_drawer' /\
    GamePatternDrawer._note_speed pattern_drawer' = note_speed /\
    note_speed_in_range pattern_drawer'.
Proof.
  intros H1 H9. unfold GamePatternDrawer.set_note_speed.
  rewrite truediv_ok by (intro E; rewrite E in H1; lra).
  cbn [bind]. eexists. split; [reflexivity|]. split; [reflexivity|].
  unfold note_speed_in_range.
  cbn [GamePatternDrawer._note_speed GamePatternDrawer._track_drop_duration_millis].
  split; [exact H1|]. split; [exact H9|]. reflexivity.
Qed.

(** Property X19.  The speed keys keep the note speed between 1.0 and 9.0: on
    a drawer whose speed is in that range, [decrease_note_speed] and
    [increase_note_speed] with a non-negative step never fail, move the
    speed by the step but not past 1.0 or 9.0, and leave the drop duration
    equal to 2800 over the speed. *)
Theorem note_speed_stays_in_range
    (pattern_drawer : GamePatternDrawer.t) (step : Q) :
  0 <= step ->
  note_speed_in_range pattern_drawer ->
  let note_speed := GamePatternDrawer._note_speed pattern_drawer in
  (exists slower,
     GameActions.decrease_note_speed pattern_drawer step = Ok slower /\
     note_speed_in_range slower /\
     (1 < note_speed - step ->
      GamePatternDrawer._note_speed slower == note_speed - step) /\
     (note_speed - step <= 1 -> GamePatternDrawer._note_speed slower == 1)) /\
  (exists faster,
     GameActions.increase_note_speed pattern_drawer step = Ok faster /\
     note_speed_in_range faster /\
     (note_speed + step < 9 ->
      GamePatternDrawer._note_speed faster == note_speed + step) /\
     (9 <= note_speed + step -> GamePatternDrawer._note_speed faster == 9)).
Proof.
  intros Hstep Hr note_speed. pose proof Hr as (H1 & H9 & Hd).
  fold note_speed in H1, H9.
  split.
  - unfold GameActions.decrease_note_speed, GamePatternDrawer.get_note_speed.
    fold note_speed.
    destruct (Qltb 1 note_speed) eqn:L.
    + destruct (Qltb 1 (note_speed - step)) eqn:M.
      * apply Qltb_true_iff in M.
        destruct (set_note_speed_in_range pattern_drawer (note_speed - step))
          as (d & -> & E & R); [lra|lra|].
        exists d. split; [reflexivity|]. split; [exact R|]. rewrite E.
        split; intro; lra.
      * apply Qltb_false_iff in M.
        destruct (set_note_speed_in_range pattern_drawer 1)
          as (d & -> & E & R); [lra|lra|].
        exists d. split; [reflexivity|]. split; [exact R|]. rewrite E.
        split; intro; lra.
    + apply Qltb_false_iff in L.
      exists pattern_drawer. split; [reflexivity|]. split; [exact Hr|].
      fold note_speed. split; intro; lra.
  - unfold GameActions.increase_note_speed, GamePatternDrawer.get_note_speed.
    fold note_speed.
    destruct (Qltb note_speed 9) eqn:L.
    + destruct (Qltb (note_speed + step) 9) eqn:M.
      * apply Qltb_true_iff in M.
        destruct (set_note_speed_in_range pattern_drawer (note_speed + step))
          as (d & -> & E & R); [lra|lra|].
        exists d. split; [reflexivity|]. split; [exact R|]. rewrite E.
        split; intro; lra.
      * apply Qltb_false_iff in M.
        destruct (set_note_speed_in_range pattern_drawer 9)
          as (d & -> & E & R); [lra|lra|].
        exists d. split; [reflexivity|]. split; [exact R|]. rewrite E.
        split; intro; lra.
    + apply Qltb_false_iff in L.
      exists pattern_drawer. split; [reflexivity|]. split; [exact Hr|].
      fold note_speed. split; intro; lra.
Qed.

Lemma note_speed_stays_in_range_witness :
  exists faster,
    GameActions.increase_note_speed (GamePatternDrawer.mk 5 560) (1 # 10)
    = Ok faster /\
    GamePatternDrawer._note_speed faster == 51 # 10.
Proof.
  destruct (note_speed_stays_in_range (GamePatternDrawer.mk 5 560) (1 # 10))
    as (_ & faster & H & _ & E & _).
  - discriminate.
  - unfold note_speed_in_range. cbn. repeat split; try discriminate.
  - exists faster. split; [exact H|]. rewrite E; reflexivity.
Defined.




(** ** The cache of decrypted charts *)

(** Property X21.  Decrypted charts are cached under the first seven hex digits
    of the MD5 digest of the buffer.  After a successful [decrypt_ptfile]
    of [file], every cached [decrypt_ptfile] of a buffer with the same seven
    digits, [file] itself or another one, returns the same content and sends
    nothing to the gateway.  With [cached=False] the buffer is always sent
    and the cache entry replaced. *)
Theorem decrypt_ptfile_cached
    (md5hash_hex7 : Decoder.bytes -> nat)
    (create_decrypt_task_and_download : Decoder.bytes -> result Decoder.bytes)
    (self self1 : CachedPTFileDecryptor.t) (file content : Decoder.bytes)
    (cached : bool) :
  CachedPTFileDecryptor.decrypt_ptfile md5hash_hex7
    create_decrypt_task_and_download self file cached = Ok (self1, content) ->
  (forall file',
     md5hash_hex7 file' = md5hash_hex7 file ->
     CachedPTFileDecryptor.decrypt_ptfile md5hash_hex7
       create_decrypt_task_and_download self1 file' true
     = Ok (self1, content)) /\
  (cached = false ->
   create_decrypt_task_and_download file = Ok content /\
   CachedPTFileDecryptor.downloads self1
   = file :: CachedPTFileDecryptor.downloads self).
Proof.
  unfold CachedPTFileDecryptor.decrypt_ptfile. intro H. split.
  - intros file' Hk. rewrite Hk.
    destruct (if cached
              then dict_get (CachedPTFileDecryptor.cache_files self)
                     (md5hash_hex7 file)
              else None) as [c|] eqn:E.
    + injection H as <- <-. destruct cached; [|discriminate].
      rewrite E. reflexivity.
    + inv_bind H. injection H as <- <-. cbn [CachedPTFileDecryptor.cache_files].
      rewrite dict_get_set_same. reflexivity.
  - intros ->. inv_bind H. injection H as <- <-. split; [exact Hx|reflexivity].
Qed.

Lemma decrypt_ptfile_cached_witness :
  CachedPTFileDecryptor.decrypt_ptfile (fun file => length file)
    (fun file => Ok (Byte.x50 :: file))
    (CachedPTFileDecryptor.mk [(2%nat, [Byte.x50; Byte.x01; Byte.x02])]
       [[Byte.x01; Byte.x02]])
    [Byte.x03; Byte.x04] true
  = Ok (CachedPTFileDecryptor.mk [(2%nat, [Byte.x50; Byte.x01; Byte.x02])]
          [[Byte.x01; Byte.x02]],
        [Byte.x50; Byte.x01; Byte.x02]).
Proof.
  destruct (decrypt_ptfile_cached (fun file => length file)
              (fun file => Ok (Byte.x50 :: file))
              CachedPTFileDecryptor.init
              (CachedPTFileDecryptor.mk
                 [(2%nat, [Byte.x50; Byte.x01; Byte.x02])] [[Byte.x01; Byte.x02]])
              [Byte.x01; Byte.x02] [Byte.x50; Byte.x01; Byte.x02] true)
    as (H & _).
  - reflexivity.
  - apply H. reflexivity.
Defined.

(** ** Notes that differ in their duration only *)

(** Property X22.  [is_equal_except_duration] on chart notes never fails; it
    holds exactly when both notes are GENERAL and agree on position, sound
    index, volume, pan and attribute.  It is symmetric and transitive, and a
    note is related to itself exactly when it is GENERAL. *)
Theorem is_equal_except_duration_relation (F : Type) (a b c : PTFileNote F) :
  (PTFileNote_is_equal_except_duration a b = Ok true <->
   exists sound_index volume pan attribute duration duration',
     params a = PTFileGeneralNoteParams sound_index volume pan attribute duration /\
     params b = PTFileGeneralNoteParams sound_index volume pan attribute duration' /\
     position a = position b) /\
  (PTFileNote_is_equal_except_duration a b = Ok true \/
   PTFileNote_is_equal_except_duration a b = Ok false) /\
  PTFileNote_is_equal_except_duration a b
  = PTFileNote_is_equal_except_duration b a /\
  (PTFileNote_is_equal_except_duration a b = Ok true ->
   PTFileNote_is_equal_except_duration b c = Ok true ->
   PTFileNote_is_equal_except_duration a c = Ok true) /\
  PTFileNote_is_equal_except_duration a a = Ok (PTFileNote_is_general a).
Proof.
  assert (Spec : forall x y : PTFileNote F,
    PTFileNote_is_equal_except_duration x y = Ok true <->
    exists sound_index volume pan attribute duration duration',
      params x = PTFileGeneralNoteParams sound_index volume pan attribute duration /\
      params y = PTFileGeneralNoteParams sound_index volume pan attribute duration' /\
      position x = position y).
  { intros [px [s v p t d| | |]] [py [s' v' p' t' d'| | |]];
      unfold PTFileNote_is_equal_except_duration, PTFileNote_is_general,
        command_type; cbn;
      try (split; [discriminate|intros (? & ? & ? & ? & ? & ? & ? & ? & ?); discriminate]).
    split.
    - destruct (N.eqb_spec px py) as [->|Hp]; cbn; [|discriminate].
      intros [= H]. rewrite !andb_true_iff, !N.eqb_eq in H.
      destruct H as [[[-> ->] ->] ->]. do 6 eexists. eauto.
    - intros (? & ? & ? & ? & ? & ? & Ha & Hb & Hp).
      inversion Ha; inversion Hb; subst. rewrite !N.eqb_refl. reflexivity. }
  assert (Total : forall x y : PTFileNote F,
    PTFileNote_is_equal_except_duration x y = Ok true \/
    PTFileNote_is_equal_except_duration x y = Ok false).
  { intros [px [s v p t d| | |]] [py [s' v' p' t' d'| | |]];
      unfold PTFileNote_is_equal_except_duration, PTFileNote_is_general,
        command_type; cbn; auto.
    destruct (px =? py)%N; cbn; auto.
    destruct ((s =? s') && (v =? v') && (p =? p') && (t =? t'))%N; auto. }
  split; [apply Spec|]. split; [apply Total|]. split; [|split].
  - destruct (Total a b) as [E|E], (Total b a) as [E'|E']; try congruence.
    + apply Spec in E. destruct E as (s & v & p & t & d & d' & Ha & Hb & Hp).
      assert (X : PTFileNote_is_equal_except_duration b a = Ok true).
      { apply Spec. do 6 eexists. eauto. }
      congruence.
    + apply Spec in E'. destruct E' as (s & v & p & t & d & d' & Hb & Ha & Hp).
      assert (X : PTFileNote_is_equal_except_duration a b = Ok true).
      { apply Spec. do 6 eexists. eauto. }
      congruence.
  - intros Hab Hbc. apply Spec in Hab, Hbc. apply Spec.
    destruct Hab as (s & v & p & t & d & d' & Ha & Hb & Hp).
    destruct Hbc as (s2 & v2 & p2 & t2 & d2 & d2' & Hb2 & Hc & Hp2).
    rewrite Hb in Hb2. injection Hb2 as <- <- <- <- <-.
    do 6 eexists. split; [exact Ha|]. split; [exact Hc|]. congruence.
  - destruct a as [pa [s v p t d| | |]];
      unfold PTFileNote_is_equal_except_duration, PTFileNote_is_general,
        command_type; cbn; try reflexivity.
    rewrite !N.eqb_refl. reflexivity.
Qed.

Lemma is_equal_except_duration_relation_witness :
  PTFileNote_is_equal_except_duration
    (mkPTFileNote 5 (PTFileGeneralNoteParams 1 127 64 0 4))
    (mkPTFileNote 5 (@PTFileGeneralNoteParams Q 1 127 64 0 48))
  = Ok true.
Proof.
  destruct (is_equal_except_duration_relation Q
              (mkPTFileNote 5 (PTFileGeneralNoteParams 1 127 64 0 4))
              (mkPTFileNote 5 (PTFileGeneralNoteParams 1 127 64 0 48))
              (mkPTFileNote 5 (PTFileGeneralNoteParams 1 127 64 0 48)))
    as (H & _).
  apply H. do 6 eexists. split; [reflexivity|]. split; reflexivity.
Defined.


(** ** The notes by tick of [diff] *)

Lemma in_order_prefix_take {F} (total_ticks : N) (tick_index : nat)
    (rest : list (PTFileNote F)) :
  (N.of_nat tick_index < total_ticks)%N ->
  in_order_prefix total_ticks (N.of_nat tick_index) rest
  = take_at tick_index rest
    ++ in_order_prefix total_ticks (N.of_nat (S tick_index))
         (skipn (length (take_at tick_index rest)) rest).
Proof.
  intro Hlt. induction rest as [|note rest IH]; [reflexivity|].
  cbn [take_at].
  destruct (N.eqb_spec (position note) (N.of_nat tick_index)) as [E|Hne].
  - cbn [in_order_prefix length skipn app]. rewrite E.
    replace ((N.of_nat tick_index <=? N.of_nat tick_index)%N) with true
      by (symmetry; apply N.leb_le; lia).
    replace ((N.of_nat tick_index <? total_ticks)%N) with true
      by (symmetry; apply N.ltb_lt; exact Hlt).
    cbn [andb]. f_equal. exact IH.
  - cbn [length skipn app in_order_prefix].
    replace ((N.of_nat (S tick_index) <=? position note)%N)
      with ((N.of_nat tick_index <=? position note)%N); [reflexivity|].
    destruct (N.leb_spec (N.of_nat tick_index) (position note));
      destruct (N.leb_spec (N.of_nat (S tick_index)) (position note));
      try reflexivity; lia.
Qed.

Lemma in_order_prefix_none {F} (total_ticks : N) (rest : list (PTFileNote F)) :
  in_order_prefix total_ticks total_ticks rest = [].
Proof.
  destruct rest as [|note rest]; [reflexivity|]. cbn [in_order_prefix].
  destruct (N.leb_spec total_ticks (position note));
    destruct (N.ltb_spec (position note) total_ticks);
    try reflexivity; lia.
Qed.

Lemma gather_in_order {F} (n tick_index : nat) (rest : list (PTFileNote F)) :
  gather tick_index n rest
  = in_order_prefix (N.of_nat (tick_index + n)) (N.of_nat tick_index) rest.
Proof.
  revert tick_index rest. induction n as [|n IH]; intros tick_index rest.
  - rewrite Nat.add_0_r. symmetry. apply in_order_prefix_none.
  - cbn [gather]. rewrite in_order_prefix_take by lia.
    f_equal. rewrite IH. f_equal. f_equal. lia.
Qed.

Lemma list_set_twice {A} (l : list A) i a b :
  list_set (list_set l i a) i b = list_set l i b.
Proof.
  revert i. induction l as [|x l IH]; intros [|i]; cbn; try reflexivity.
  f_equal. apply IH.
Qed.

Lemma list_set_same {A} (l : list A) i a :
  nth_error l i = Some a -> list_set l i a = l.
Proof.
  revert i. induction l as [|x l IH]; intros [|i]; cbn; try discriminate.
  - intros [= ->]. reflexivity.
  - intro H. f_equal. apply IH. exact H.
Qed.

Lemma list_set_nth_error_other {A} (l : list A) i j a :
  i <> j -> nth_error (list_set l i a) j = nth_error l j.
Proof.
  revert i j. induction l as [|x l IH]; intros [|i] [|j] Hne; cbn;
    try reflexivity; try contradiction.
  apply IH. congruence.
Qed.

Lemma dict_set_twice {V} (dct : list (nat * V)) key a b :
  dict_set (dict_set dct key a) key b = dict_set dct key b.
Proof.
  induction dct as [|[k w] rest IH]; cbn.
  - rewrite Nat.eqb_refl. reflexivity.
  - destruct (Nat.eqb k key) eqn:E; cbn; rewrite E; [reflexivity|].
    f_equal. exact IH.
Qed.

Lemma dict_get_fresh {V} (dct : list (nat * V)) key :
  ~ In key (dict_keys dct) -> dict_get dct key = None.
Proof.
  induction dct as [|[k w] rest IH]; cbn; [reflexivity|]. intro Hnot.
  destruct (Nat.eqb_spec k key) as [->|Hne]; [tauto|]. apply IH. tauto.
Qed.

Lemma dict_set_fresh {V} (dct : list (nat * V)) key v :
  dict_get dct key = None -> dict_set dct key v = dct ++ [(key, v)].
Proof.
  induction dct as [|[k w] rest IH]; cbn; [reflexivity|].
  destruct (Nat.eqb k key); [discriminate|]. intro H. f_equal. apply IH. exact H.
Qed.

Lemma dict_get_snoc {V} (dct : list (nat * V)) key key' v :
  dict_get (dct ++ [(key, v)]) key'
  = match dict_get dct key' with
    | Some w => Some w
    | None => if Nat.eqb key key' then Some v else None
    end.
Proof.
  induction dct as [|[k w] rest IH]; cbn; [reflexivity|].
  destruct (Nat.eqb k key'); [reflexivity|exact IH].
Qed.

Lemma take_at_positions {F} tick_index (rest : list (PTFileNote F)) :
  Forall (fun note => position note = N.of_nat tick_index) (take_at tick_index rest).
Proof.
  induction rest as [|note rest IH]; cbn [take_at]; [constructor|].
  destruct (N.eqb_spec (position note) (N.of_nat tick_index)); constructor; assumption.
Qed.

(** The [while] loop, as one step on the cursor and on the group of the
    track. *)
Lemma take_notes_spec {F} tick_index track_index (rest : list (PTFileNote F)) :
  forall current_track_indices notes_at_tick c,
    nth_error current_track_indices track_index = Some c ->
    DwaxCli.take_notes tick_index track_index rest
      (current_track_indices, notes_at_tick)
    = Ok (list_set current_track_indices track_index
            (c + length (take_at tick_index rest))%nat,
          match take_at tick_index rest with
          | [] => notes_at_tick
          | _ :: _ =>
              dict_set notes_at_tick track_index
                (group_of notes_at_tick track_index ++ take_at tick_index rest)
          end).
Proof.
  induction rest as [|note rest IH]; intros cur d c Hc.
  - cbn. rewrite Nat.add_0_r, (list_set_same _ _ _ Hc). reflexivity.
  - cbn [DwaxCli.take_notes take_at].
    destruct (N.eqb_spec (position note) (N.of_nat tick_index)) as [E|Hne].
    + unfold getitem. rewrite Hc. cbn [bind].
      assert (Hlt : (track_index < length cur)%nat)
        by (apply nth_error_Some; congruence).
      rewrite (IH _ _ (c + 1)%nat) by (apply list_set_nth_error; exact Hlt).
      rewrite list_set_twice. cbn [length].
      replace (c + 1 + length (take_at tick_index rest))%nat
        with (c + S (length (take_at tick_index rest)))%nat by lia.
      f_equal. f_equal.
      assert (Hd : DwaxCli.setdefault_append d track_index note
                   = dict_set d track_index (group_of d track_index ++ [note])).
      { unfold DwaxCli.setdefault_append, group_of.
        destruct (dict_get d track_index); reflexivity. }
      rewrite Hd.
      destruct (take_at tick_index rest) as [|n0 l0] eqn:Et; [reflexivity|].
      rewrite dict_set_twice. f_equal.
      unfold group_of at 1. rewrite dict_get_set_same.
      rewrite <- app_assoc. reflexivity.
    + cbn. rewrite Nat.add_0_r, (list_set_same _ _ _ Hc). reflexivity.
Qed.

(** The loop over the tracks at one tick, from the track [k] on. *)
Lemma scan_tracks_spec {F} tick_index bound (ts : list (PTFileTrack F)) :
  forall k current_track_indices notes_at_tick,
    (k + length ts <= length current_track_indices)%nat ->
    (k + length ts <= bound)%nat ->
    (forall key, In key (dict_keys notes_at_tick) -> (key < k)%nat) ->
    exists current_track_indices' notes_at_tick',
      for_each (combine (seq k (length ts)) ts) (DwaxCli.scan_track tick_index)
        (current_track_indices, notes_at_tick)
      = Ok (current_track_indices', notes_at_tick') /\
      length current_track_indices' = length current_track_indices /\
      (forall i, (i < k)%nat ->
         nth_error current_track_indices' i = nth_error current_track_indices i /\
         dict_get notes_at_tick' i = dict_get notes_at_tick i) /\
      (forall j track c,
         nth_error ts j = Some track ->
         nth_error current_track_indices (k + j) = Some c ->
         nth_error current_track_indices' (k + j)
         = Some (c + length (take_at tick_index (skipn c (notes track))))%nat /\
         group_of notes_at_tick' (k + j)
         = take_at tick_index (skipn c (notes track))) /\
      (Forall (group_at tick_index bound) notes_at_tick ->
       Forall (group_at tick_index bound) notes_at_tick').
Proof.
  induction ts as [|track ts IH]; intros k cur d Hlen Hbound Hkeys.
  - exists cur, d. cbn. split; [reflexivity|]. split; [reflexivity|].
    split; [intros; split; reflexivity|].
    split; [intros [|j] ? ? H; discriminate H|auto].
  - cbn [length] in Hlen, Hbound. cbn [length seq combine for_each].
    unfold DwaxCli.scan_track at 1. cbn [fst].
    destruct (nth_error cur k) as [c|] eqn:Hc;
      [|apply nth_error_None in Hc; lia].
    unfold getitem. rewrite Hc. cbn [bind].
    rewrite (take_notes_spec _ _ _ _ _ _ Hc). cbn [bind].
    set (taken := take_at tick_index (skipn c (notes track))).
    set (cur1 := list_set cur k (c + length taken)%nat).
    set (d1 := match taken with
               | [] => d
               | _ :: _ => dict_set d k (group_of d k ++ taken)
               end).
    assert (Hfresh : dict_get d k = None).
    { apply dict_get_fresh. intro Hin. apply Hkeys in Hin. lia. }
    assert (Hd1 : d1 = match taken with [] => d | _ :: _ => d ++ [(k, taken)] end).
    { unfold d1. destruct taken; [reflexivity|].
      unfold group_of. rewrite Hfresh. cbn [app].
      apply dict_set_fresh. exact Hfresh. }
    assert (Hlen1 : length cur1 = length cur) by apply list_set_length.
    destruct (IH (S k) cur1 d1) as (cur' & d' & Hrun & Hlen' & Hlow & Hhigh & Hgroups).
    { rewrite Hlen1. lia. }
    { lia. }
    { intros key Hin. rewrite Hd1 in Hin. destruct taken.
      - apply Hkeys in Hin. lia.
      - unfold dict_keys in Hin. rewrite map_app in Hin. cbn [map fst] in Hin.
        apply in_app_or in Hin. destruct Hin as [Hin|[<-|[]]]; [|lia].
        apply Hkeys in Hin. lia. }
    exists cur', d'. split; [exact Hrun|]. split; [congruence|].
    assert (Hk1 : nth_error cur1 k = Some (c + length taken)%nat).
    { apply list_set_nth_error. apply nth_error_Some. congruence. }
    assert (Hg1 : group_of d1 k = taken).
    { unfold group_of. rewrite Hd1. destruct taken as [|n0 l0] eqn:Et.
      - rewrite Hfresh. reflexivity.
      - rewrite dict_get_snoc, Hfresh, Nat.eqb_refl. reflexivity. }
    split; [|split].
    + intros i Hi. destruct (Hlow i ltac:(lia)) as [-> ->]. split.
      * apply list_set_nth_error_other. lia.
      * rewrite Hd1. destruct taken; [reflexivity|].
        rewrite dict_get_snoc. destruct (dict_get d i); [reflexivity|].
        destruct (Nat.eqb_spec k i); [lia|reflexivity].
    + intros [|j] track' c' Hj Hc'.
      * cbn in Hj. injection Hj as <-. rewrite Nat.add_0_r in *.
        rewrite Hc in Hc'. injection Hc' as <-.
        destruct (Hlow k ltac:(lia)) as [-> Hg]. split; [exact Hk1|].
        unfold group_of. rewrite Hg. exact Hg1.
      * cbn in Hj. replace (k + S j)%nat with (S k + j)%nat in * by lia.
        apply (Hhigh j track' c' Hj).
        unfold cur1. rewrite list_set_nth_error_other by lia. exact Hc'.
    + intro HG. apply Hgroups. rewrite Hd1.
      destruct taken as [|n0 l0] eqn:Et; [exact HG|].
      apply Forall_app. split; [exact HG|]. apply Forall_cons; [|apply Forall_nil].
      split; [discriminate|]. split; [|cbn [fst]; lia].
      cbn [snd]. rewrite <- Et. apply take_at_positions.
Qed.

(** The loop over the tracks raises [IndexError] at the first track that has
    no cursor. *)
Lemma scan_tracks_fail {F} tick_index (ts : list (PTFileTrack F)) :
  forall k current_track_indices notes_at_tick,
    (k <= length current_track_indices < k + length ts)%nat ->
    (forall key, In key (dict_keys notes_at_tick) -> (key < k)%nat) ->
    for_each (combine (seq k (length ts)) ts) (DwaxCli.scan_track tick_index)
      (current_track_indices, notes_at_tick)
    = Err IndexError.
Proof.
  induction ts as [|track ts IH]; intros k cur d Hlen Hkeys.
  - cbn [length] in Hlen. lia.
  - cbn [length] in Hlen. cbn [length seq combine for_each].
    unfold DwaxCli.scan_track at 1. cbn [fst]. unfold getitem.
    destruct (nth_error cur k) as [c|] eqn:Hc; [|reflexivity].
    cbn [bind]. rewrite (take_notes_spec _ _ _ _ _ _ Hc). cbn [bind].
    assert (Hk : (k < length cur)%nat) by (apply nth_error_Some; congruence).
    apply IH.
    + rewrite list_set_length. lia.
    + assert (Hfresh : dict_get d k = None).
      { apply dict_get_fresh. intro Hin. apply Hkeys in Hin. lia. }
      intros key Hin.
      destruct (take_at tick_index (skipn c (notes track))).
      * apply Hkeys in Hin. lia.
      * rewrite (dict_set_fresh _ _ _ Hfresh) in Hin.
        unfold dict_keys in Hin. rewrite map_app in Hin. cbn [map fst] in Hin.
        apply in_app_or in Hin. destruct Hin as [Hin|[<-|[]]]; [|lia].
        apply Hkeys in Hin. lia.
Qed.

Lemma StronglySorted_snoc (l : list nat) (t : nat) :
  StronglySorted lt l -> (forall key, In key l -> (key < t)%nat) ->
  StronglySorted lt (l ++ [t]).
Proof.
  induction l as [|x l IH]; intros Hs Hlt; cbn.
  - constructor; constructor.
  - inversion Hs as [|? ? Hs' Hall]; subst. constructor.
    + apply IH; [exact Hs'|]. intros key Hin. apply Hlt. right. exact Hin.
    + apply Forall_app. split; [exact Hall|].
      constructor; [|constructor]. apply Hlt. left. reflexivity.
Qed.

Lemma dict_get_In {V} (dct : list (nat * V)) key v :
  dict_get dct key = Some v -> In (key, v) dct.
Proof.
  induction dct as [|[k w] rest IH]; cbn; [discriminate|].
  destruct (Nat.eqb_spec k key) as [->|Hne].
  - intros [= ->]. left. reflexivity.
  - intro H. right. apply IH. exact H.
Qed.

(** One tick of [parse_notes]. *)
Lemma scan_tick_inv {F} (track_entries : list (PTFileTrack F)) tick_index state :
  grouped_up_to track_entries tick_index state ->
  exists state',
    DwaxCli.scan_tick track_entries state tick_index = Ok state' /\
    grouped_up_to track_entries (S tick_index) state'.
Proof.
  destruct state as [cur notes_per_tick].
  intros (Hlen & Hkeys & Hsorted & Hgroups & Htracks & Hfirst).
  destruct (scan_tracks_spec tick_index (length track_entries) track_entries
              0 cur [])
    as (cur' & notes_at_tick & Hrun & Hlen' & _ & Hstep & Hgroup);
    [cbn; lia|cbn; lia|intros key []|].
  specialize (Hgroup (Forall_nil _)).
  unfold DwaxCli.scan_tick, DwaxCli.enumerate. rewrite Hrun. cbn [bind].
  eexists. split; [reflexivity|].
  set (notes' := match notes_at_tick with
                 | [] => notes_per_tick
                 | _ :: _ => dict_set notes_per_tick tick_index notes_at_tick
                 end).
  assert (Hfresh : dict_get notes_per_tick tick_index = None).
  { apply dict_get_fresh. intro Hin. apply Hkeys in Hin. lia. }
  assert (Hnotes' : notes' = match notes_at_tick with
                            | [] => notes_per_tick
                            | _ :: _ => notes_per_tick ++ [(tick_index, notes_at_tick)]
                            end).
  { unfold notes'. destruct notes_at_tick; [reflexivity|].
    apply dict_set_fresh. exact Hfresh. }
  clearbody notes'.
  assert (Hgathered : forall i,
            gathered notes' i = gathered notes_per_tick i ++ group_of notes_at_tick i).
  { intro i. rewrite Hnotes'. destruct notes_at_tick as [|g gs] eqn:Eg.
    - unfold group_of. cbn. rewrite app_nil_r. reflexivity.
    - unfold gathered. rewrite flat_map_app. cbn [flat_map snd].
      rewrite app_nil_r. reflexivity. }
  unfold grouped_up_to. split; [lia|]. split; [|split; [|split; [|split]]].
  - intros key Hin. rewrite Hnotes' in Hin. destruct notes_at_tick.
    + apply Hkeys in Hin. lia.
    + unfold dict_keys in Hin. rewrite map_app in Hin. cbn [map fst] in Hin.
      apply in_app_or in Hin. destruct Hin as [Hin|[<-|[]]]; [|lia].
      apply Hkeys in Hin. lia.
  - rewrite Hnotes'. destruct notes_at_tick; [exact Hsorted|].
    unfold dict_keys. rewrite map_app. cbn [map fst].
    apply StronglySorted_snoc; assumption.
  - rewrite Hnotes'. destruct notes_at_tick as [|g gs] eqn:Eg; [exact Hgroups|].
    apply Forall_app. split; [exact Hgroups|].
    apply Forall_cons; [|apply Forall_nil].
    split; [discriminate|exact Hgroup].
  - intros i track Hi. destruct (Htracks i track Hi) as [Hc Hgather].
    destruct (Hstep i track _ Hi Hc) as [Hc' Hg]. cbn [Nat.add] in Hc', Hg.
    rewrite Hgathered, Hg, length_app. split; [exact Hc'|].
    intro n. specialize (Hgather (S n)). cbn [gather] in Hgather.
    rewrite skipn_skipn in Hgather.
    replace (tick_index + S n)%nat with (S tick_index + n)%nat in Hgather by lia.
    rewrite <- Hgather, <- app_assoc. f_equal. f_equal. f_equal. f_equal. lia.
  - intros _ track Htrack. destruct (Htracks 0%nat track Htrack) as [Hc _].
    destruct (Hstep 0%nat track _ Htrack Hc) as [_ Hg]. cbn [Nat.add] in Hg.
    destruct tick_index as [|t].
    + assert (Hnil : notes_per_tick = []).
      { destruct notes_per_tick as [|[k v] rest]; [reflexivity|].
        specialize (Hkeys k (or_introl eq_refl)). lia. }
      subst notes_per_tick. cbn in Hg. rewrite Hnotes'.
      destruct notes_at_tick as [|g gs] eqn:Eg.
      * rewrite <- Hg. reflexivity.
      * unfold first_group. cbn. exact Hg.
    + rewrite <- (Hfirst ltac:(lia) track Htrack). rewrite Hnotes'.
      destruct notes_at_tick; [reflexivity|].
      unfold first_group. rewrite dict_get_snoc.
      destruct (dict_get notes_per_tick 0); reflexivity.
Qed.

Lemma scan_ticks_inv {F} (track_entries : list (PTFileTrack F)) n :
  forall tick_index state,
    grouped_up_to track_entries tick_index state ->
    exists state',
      for_each (seq tick_index n) (DwaxCli.scan_tick track_entries) state
      = Ok state' /\
      grouped_up_to track_entries (tick_index + n) state'.
Proof.
  induction n as [|n IH]; intros tick_index state Hinv.
  - exists state. rewrite Nat.add_0_r. split; [reflexivity|exact Hinv].
  - cbn [seq for_each].
    destruct (scan_tick_inv _ _ _ Hinv) as (state1 & -> & Hinv1). cbn [bind].
    destruct (IH _ _ Hinv1) as (state' & Hrun & Hinv').
    exists state'. split; [exact Hrun|].
    replace (tick_index + S n)%nat with (S tick_index + n)%nat by lia.
    exact Hinv'.
Qed.

Lemma grouped_up_to_start {F} (track_entries : list (PTFileTrack F)) num_tracks :
  (length track_entries <= num_tracks)%nat ->
  grouped_up_to track_entries 0 (repeat 0%nat num_tracks, []).
Proof.
  intro Hlen. unfold grouped_up_to. rewrite repeat_length.
  split; [exact Hlen|]. split; [intros key []|]. split; [constructor|].
  split; [constructor|]. split; [|lia].
  intros i track Hi. cbn [gathered flat_map length app skipn]. split.
  - assert (Hlt : (i < num_tracks)%nat).
    { assert (i < length track_entries)%nat by (apply nth_error_Some; congruence).
      lia. }
    rewrite nth_error_repeat by exact Hlt. reflexivity.
  - intro n. reflexivity.
Qed.

Lemma parse_notes_grouped {F} (ptfile : PTFile F) :
  (length (tracks ptfile) <= N.to_nat (number_of_tracks (header ptfile)))%nat ->
  exists current_track_indices notes_per_tick,
    DwaxCli.parse_notes ptfile = Ok notes_per_tick /\
    grouped_up_to (tracks ptfile) (N.to_nat (total_ticks (header ptfile)))
      (current_track_indices, notes_per_tick).
Proof.
  intro Hlen. unfold DwaxCli.parse_notes.
  destruct (scan_ticks_inv (tracks ptfile) (N.to_nat (total_ticks (header ptfile)))
              0 _ (grouped_up_to_start _ _ Hlen))
    as ([cur notes_per_tick] & -> & Hinv).
  exists cur, notes_per_tick. split; [reflexivity|exact Hinv].
Qed.

Lemma parse_notes_no_cursor {F} (ptfile : PTFile F) :
  (N.to_nat (number_of_tracks (header ptfile)) < length (tracks ptfile))%nat ->
  (0 < total_ticks (header ptfile))%N ->
  DwaxCli.parse_notes ptfile = Err IndexError.
Proof.
  intros Hlen Hticks. unfold DwaxCli.parse_notes.
  destruct (N.to_nat (total_ticks (header ptfile))) as [|n] eqn:En; [lia|].
  cbn [seq for_each]. unfold DwaxCli.scan_tick at 1, DwaxCli.enumerate.
  rewrite scan_tracks_fail; [reflexivity| |intros key []].
  rewrite repeat_length. lia.
Qed.

(** Property X25.  [parse_notes] of [diff] goes through the ticks once, with
    one cursor per track that never moves back.  On a chart with no more
    tracks than its header counts it never fails; the ticks of the result
    are in increasing order and below [total_ticks], every group is a
    non-empty list of notes at its tick, and the notes gathered for a track
    are the longest prefix of the notes of the track whose positions never
    go down and stay below [total_ticks]: a note out of order, or at or
    past [total_ticks], and every note after it, is left out.  With more
    tracks than the header counts and at least one tick, it raises
    [IndexError]. *)
Theorem parse_notes_in_order_prefix (F : Type) (ptfile : PTFile F) :
  ((length (tracks ptfile) <= N.to_nat (number_of_tracks (header ptfile)))%nat ->
   exists notes_per_tick,
     DwaxCli.parse_notes ptfile = Ok notes_per_tick /\
     StronglySorted lt (dict_keys notes_per_tick) /\
     Forall (fun tick_index =>
               (tick_index < N.to_nat (total_ticks (header ptfile)))%nat)
       (dict_keys notes_per_tick) /\
     Forall (groups_at (length (tracks ptfile))) notes_per_tick /\
     forall track_index track,
       nth_error (tracks ptfile) track_index = Some track ->
       gathered notes_per_tick track_index
       = in_order_prefix (total_ticks (header ptfile)) 0 (notes track)) /\
  ((N.to_nat (number_of_tracks (header ptfile)) < length (tracks ptfile))%nat ->
   (0 < total_ticks (header ptfile))%N ->
   DwaxCli.parse_notes ptfile = Err IndexError).
Proof.
  split.
  - intro Hlen.
    destruct (parse_notes_grouped ptfile Hlen)
      as (cur & notes_per_tick & Hrun & _ & Hkeys & Hsorted & Hgroups & Htracks & _).
    exists notes_per_tick. split; [exact Hrun|]. split; [exact Hsorted|].
    split; [apply Forall_forall; exact Hkeys|]. split; [exact Hgroups|].
    intros i track Hi. destruct (Htracks i track Hi) as [_ Hgather].
    specialize (Hgather 0%nat). cbn [gather] in Hgather.
    rewrite app_nil_r, Nat.add_0_r in Hgather. rewrite Hgather.
    rewrite gather_in_order. cbn [Nat.add N.of_nat]. rewrite N2Nat.id.
    reflexivity.
  - apply parse_notes_no_cursor.
Qed.

Lemma parse_notes_in_order_prefix_witness :
  exists notes_per_tick,
    DwaxCli.parse_notes Sample.chart = Ok notes_per_tick /\
    gathered notes_per_tick 3 = notes Sample.key_track.
Proof.
  destruct (proj1 (parse_notes_in_order_prefix Q Sample.chart))
    as (notes_per_tick & Hrun & _ & _ & _ & Htracks).
  - vm_compute. lia.
  - exists notes_per_tick. split; [exact Hrun|].
    rewrite (Htracks 3%nat Sample.key_track) by reflexivity.
    vm_compute. reflexivity.
Defined.

(** Property X26.  The beat that [diff] reads from the grouped notes,
    [notes[0][0][-1].params.beat], is the beat of the last of the notes at
    the head of the first track whose position is 0.  The lookup raises
    [KeyError] when the chart has no track or no tick or its first track
    does not begin with a note at position 0, and [AttributeError] when the
    last of those notes is not a BEAT note. *)
Theorem diff_first_beat (F : Type) (ptfile : PTFile F)
    (notes_per_tick : list (nat * list (nat * list (PTFileNote F)))) :
  DwaxCli.parse_notes ptfile = Ok notes_per_tick ->
  DwaxCli.first_beat notes_per_tick
  = match tracks ptfile with
    | [] => Err KeyError
    | track :: _ =>
        if (total_ticks (header ptfile) =? 0)%N then Err KeyError
        else
          match rev (take_at 0 (notes track)) with
          | [] => Err KeyError
          | note :: _ =>
              match params note with
              | PTFileBeatNoteParams beat => Ok beat
              | _ => Err AttributeError
              end
          end
    end.
Proof.
  intro Hrun.
  assert (Hzero : total_ticks (header ptfile) = 0%N ->
                  DwaxCli.first_beat notes_per_tick = Err KeyError).
  { intro E. unfold DwaxCli.parse_notes in Hrun. rewrite E in Hrun.
    cbn in Hrun. injection Hrun as <-. reflexivity. }
  destruct (N.eqb_spec (total_ticks (header ptfile)) 0) as [E|Hticks].
  { rewrite (Hzero E). destruct (tracks ptfile); reflexivity. }
  destruct (Nat.le_gt_cases (length (tracks ptfile))
              (N.to_nat (number_of_tracks (header ptfile)))) as [Hlen|Hlen].
  2:{ rewrite (parse_notes_no_cursor ptfile Hlen) in Hrun; [discriminate|lia]. }
  destruct (parse_notes_grouped ptfile Hlen)
    as (cur & notes' & Hrun' & _ & _ & _ & Hgroups & _ & Hfirst).
  rewrite Hrun in Hrun'. injection Hrun' as <-.
  unfold DwaxCli.first_beat, dict_getitem.
  destruct (tracks ptfile) as [|track rest] eqn:Etracks.
  - destruct (dict_get notes_per_tick 0) as [notes_at_tick|] eqn:Hget;
      [|reflexivity].
    apply dict_get_In in Hget.
    rewrite Forall_forall in Hgroups.
    destruct (Hgroups _ Hget) as [Hne Hall]. cbn [fst snd] in Hne, Hall.
    destruct notes_at_tick as [|g gs]; [contradiction|].
    inversion Hall as [|? ? (_ & _ & Hlt) _]. cbn in Hlt. lia.
  - specialize (Hfirst ltac:(lia) track eq_refl). unfold first_group in Hfirst.
    destruct (dict_get notes_per_tick 0) as [notes_at_tick|] eqn:Hget;
      cbn [bind]; [|rewrite <- Hfirst; reflexivity].
    unfold group_of in Hfirst.
    destruct (dict_get notes_at_tick 0) as [track_notes|] eqn:Hget0;
      cbn [bind]; [|rewrite <- Hfirst; reflexivity].
    subst track_notes.
    destruct (rev (take_at 0 (notes track))) as [|note l] eqn:Erev;
      [|reflexivity].
    exfalso.
    apply dict_get_In in Hget. apply dict_get_In in Hget0.
    rewrite Forall_forall in Hgroups.
    destruct (Hgroups _ Hget) as [_ Hall]. cbn [fst snd] in Hall.
    rewrite Forall_forall in Hall.
    destruct (Hall _ Hget0) as [Hne _]. cbn [snd] in Hne.
    apply Hne. apply (f_equal (@rev _)) in Erev.
    rewrite rev_involutive in Erev. exact Erev.
Qed.

Lemma diff_first_beat_witness :
  exists notes_per_tick,
    DwaxCli.parse_notes Sample.chart = Ok notes_per_tick /\
    DwaxCli.first_beat notes_per_tick = Err AttributeError.
Proof.
  destruct (DwaxCli.parse_notes Sample.chart) as [notes_per_tick|e] eqn:Hrun;
    [|vm_compute in Hrun; discriminate].
  exists notes_per_tick. split; [reflexivity|].
  rewrite (diff_first_beat Q Sample.chart notes_per_tick Hrun).
  vm_compute. reflexivity.
Defined.
